(** * tau, the thruster arrangement utility: a shallow embedding of [tau.py]

    The program computes, for a direction in space, the largest net force a
    fixed set of thrusters can produce along it (two linear programs and a
    quadratic derating step), and samples that over a grid of directions.

    Numbers.  Python runs the code on binary64 floats; the specification
    speaks of exact arithmetic.  The embedding is therefore written once,
    over an interface [Arith] of the arithmetic the code uses, and read at
    two instances:
    - [R], the exact reals: the reading of every algebraic statement.  A
      run at [R] is meaningful where no divisor is zero ([/ 0] is an
      arbitrary real there); the three normalisations of
      [transform_orientations] are the only unguarded divisions of the
      program, and they divide by a non-zero norm when the target direction
      is not zero.
    - [float], the kernel's IEEE 754 binary64 numbers: the reading of what
      happens at a zero divisor (NaN), and a way to run the code.

    Libraries.  [np.cross], [np.linalg.norm] and [np.roots] are modelled by
    what they compute in exact arithmetic; [np.linalg.inv] by the LU
    factorisation and solve of LAPACK that it calls;
    [scipy.optimize.linprog] is an oracle, a parameter of [get_max_thrust]. *)

From Stdlib Require Floats.
From Stdlib Require Import String Reals Lra Psatz RNsatz ZArith Bool List.
Import ListNotations.

Set Implicit Arguments.

(** ** Python exceptions *)

(** The classes of the exceptions the code can raise.  [tau.py] defines no
    exception class of its own; a class a caller could define is [Custom]. *)
Inductive exn : Type :=
| TypeError
| ValueError
| IndexError
| LinAlgError
| Custom (name : string).

Definition DegenerateInputError : exn := Custom "DegenerateInputError".
Definition SolverError : exn := Custom "SolverError".
Definition CurrentInfeasibleError : exn := Custom "CurrentInfeasibleError".

(** Python's error for an integer beyond the range of a float. *)
Definition OverflowError : exn := Custom "OverflowError".

Inductive result (A : Type) : Type :=
| Ok (a : A)
| Raise (e : exn).

Arguments Ok {A} a.
Arguments Raise {A} e.

Definition bind {A B : Type} (m : result A) (k : A -> result B) : result B :=
  match m with
  | Ok a => k a
  | Raise e => Raise e
  end.

Declare Scope py_scope.
Delimit Scope py_scope with py.
Notation "x <- m ;; k" := (bind m (fun x => k))
  (at level 61, m at next level, right associativity) : py_scope.
Open Scope py_scope.

(** [[f(a) for a in l]], stopping at the first exception. *)
Fixpoint mapM {A B : Type} (f : A -> result B) (l : list A) : result (list B) :=
  match l with
  | [] => Ok []
  | a :: l' => b <- f a ;; bs <- mapM f l' ;; Ok (b :: bs)
  end.

(** [l[i]] on a Python list. *)
Definition index {A : Type} (l : list A) (i : nat) : result A :=
  match nth_error l i with
  | Some a => Ok a
  | None => Raise IndexError
  end.

(** [enumerate(l)]. *)
Definition enumerate {A : Type} (l : list A) : list (nat * A) :=
  combine (seq 0 (length l)) l.

(** ** The arithmetic of the code *)

Class Arith (num : Type) : Type := {
  of_Z : Z -> num;             (* an integer literal *)
  of_int : Z -> result num;    (* a Python int where a float is computed *)
  nadd : num -> num -> num;
  nsub : num -> num -> num;
  nmul : num -> num -> num;
  ndiv : num -> num -> num;
  nopp : num -> num;
  nsqrt : num -> num;
  neqb : num -> num -> bool;   (* x == y *)
  nltb : num -> num -> bool;   (* x < y *)
  nleb : num -> num -> bool    (* x <= y *)
}.

Declare Scope num_scope.
Delimit Scope num_scope with num.
Infix "+" := nadd : num_scope.
Infix "-" := nsub : num_scope.
Infix "*" := nmul : num_scope.
Infix "/" := ndiv : num_scope.
Notation "- x" := (nopp x) : num_scope.
Infix "==" := neqb (at level 70, no associativity) : num_scope.
Infix "<?" := nltb : num_scope.
Infix "<=?" := nleb : num_scope.

(** Exact reals. *)
Definition Reqb (x y : R) : bool := if Req_dec_T x y then true else false.
Definition Rltb (x y : R) : bool := if Rlt_dec x y then true else false.
Definition Rleb (x y : R) : bool := if Rle_dec x y then true else false.

#[export] Instance RArith : Arith R := {
  of_Z := IZR;
  of_int := fun z => Ok (IZR z);
  nadd := Rplus;
  nsub := Rminus;
  nmul := Rmult;
  ndiv := Rdiv;
  nopp := Ropp;
  nsqrt := sqrt;
  neqb := Reqb;
  nltb := Rltb;
  nleb := Rleb
}.

(** binary64.  An integer becomes the nearest float, ties to even, and
    infinity from 2^1024 - 2^970 on; there Python raises [OverflowError]
    instead. *)
Abbreviation float := PrimFloat.float.

Definition float_of_Z (z : Z) : float :=
  FloatOps.SF2Prim (SpecFloat.binary_normalize FloatOps.prec FloatOps.emax z 0 false).

Definition float_of_int (z : Z) : result float :=
  let x := float_of_Z z in
  if PrimFloat.is_infinity x then Raise OverflowError else Ok x.

#[export] Instance FArith : Arith float := {
  of_Z := float_of_Z;
  of_int := float_of_int;
  nadd := PrimFloat.add;
  nsub := PrimFloat.sub;
  nmul := PrimFloat.mul;
  ndiv := PrimFloat.div;
  nopp := PrimFloat.opp;
  nsqrt := PrimFloat.sqrt;
  neqb := PrimFloat.eqb;
  nltb := PrimFloat.ltb;
  nleb := PrimFloat.leb
}.

Section Code.

Context {num : Type} `{Arith num}.
Local Open Scope num_scope.

(** A decimal literal [n / d] of the source ([.741] is [dec 741 1000]):
    the float nearest to a decimal is the correctly rounded quotient. *)
Definition dec (n d : Z) : num := of_Z n / of_Z d.

(** [np.isfinite]: a float is finite when [x - x] is zero. *)
Definition isfinite (x : num) : bool := (x - x) == of_Z 0.

(** *** Vectors and matrices of numpy *)

Record vec : Type := Vec { v0 : num; v1 : num; v2 : num }.

Definition vmap (f : num -> num) (a : vec) : vec :=
  Vec (f (v0 a)) (f (v1 a)) (f (v2 a)).

(** [a / s] and [a /= s]. *)
Definition vdiv (a : vec) (s : num) : vec := vmap (fun x => x / s) a.

Definition dot (a b : vec) : num :=
  v0 a * v0 b + v1 a * v1 b + v2 a * v2 b.

(** [np.cross(a, b)]. *)
Definition cross (a b : vec) : vec :=
  Vec (v1 a * v2 b - v2 a * v1 b)
      (v2 a * v0 b - v0 a * v2 b)
      (v0 a * v1 b - v1 a * v0 b).

(** [np.linalg.norm(a)]. *)
Definition norm (a : vec) : num := nsqrt (dot a a).

(** A 3x3 array, by rows. *)
Record mat : Type := Mat { row0 : vec; row1 : vec; row2 : vec }.

(** The array whose columns are [a], [b] and [c]. *)
Definition of_columns (a b c : vec) : mat :=
  Mat (Vec (v0 a) (v0 b) (v0 c))
      (Vec (v1 a) (v1 b) (v1 c))
      (Vec (v2 a) (v2 b) (v2 c)).

Definition transpose (m : mat) : mat :=
  of_columns (row0 m) (row1 m) (row2 m).

Definition det (m : mat) : num :=
  v0 (row0 m) * (v1 (row1 m) * v2 (row2 m) - v2 (row1 m) * v1 (row2 m))
  - v1 (row0 m) * (v0 (row1 m) * v2 (row2 m) - v2 (row1 m) * v0 (row2 m))
  + v2 (row0 m) * (v0 (row1 m) * v1 (row2 m) - v1 (row1 m) * v0 (row2 m)).

(** *** np.linalg.inv

    [np.linalg.inv(m)] solves [m x = identity] with LAPACK's [gesv]: an LU
    factorisation with partial pivoting ([getrf]), then a forward and a
    back substitution for every column ([getrs]).  A pivot that is exactly
    zero is reported by [getrf], and numpy raises [LinAlgError].  The
    operations are in the order of the reference routines. *)

(** [abs(x)], up to the sign of a zero. *)
Definition nabs (x : num) : num := if x <? of_Z 0 then - x else x.

(** [idamax]: the first index of the largest absolute value of a column
    that starts with [x0]; a later entry is taken when it is larger. *)
Fixpoint idamax_from (x : list num) (i best : nat) (dmax : num) : nat :=
  match x with
  | [] => best
  | xi :: x' =>
      if dmax <? nabs xi then idamax_from x' (S i) i (nabs xi)
      else idamax_from x' (S i) best dmax
  end.

Definition idamax (x0 : num) (x : list num) : nat := idamax_from x 1 0 (nabs x0).

(** The safe minimum of binary64, 2^-1022. *)
Definition sfmin : num := of_Z 1 / of_Z (2 ^ 1022).

(** An entry below a pivot: multiplied by the reciprocal of the pivot, or
    divided by a pivot under the safe minimum. *)
Definition below_pivot (pivot x : num) : num :=
  if sfmin <=? nabs pivot then x * (of_Z 1 / pivot) else x / pivot.

(** Rows 0 and [p] exchanged, and rows 1 and [1 + q]. *)
Definition swap0 (p : nat) (m : mat) : mat :=
  match p with
  | 0 => m
  | 1 => Mat (row1 m) (row0 m) (row2 m)
  | _ => Mat (row2 m) (row1 m) (row0 m)
  end.

Definition swap1 (q : nat) (m : mat) : mat :=
  match q with
  | 0 => m
  | _ => Mat (row0 m) (row2 m) (row1 m)
  end.

(** [getrf] on a 3x3 array: the factors in place (the multipliers under the
    diagonal, the upper factor on and above it) and the two pivot rows. *)
Definition getrf (a : mat) : result (mat * (nat * nat)) :=
  let p := idamax (v0 (row0 a)) [v0 (row1 a); v0 (row2 a)] in
  let a := swap0 p a in
  let pivot := v0 (row0 a) in
  if pivot == of_Z 0 then Raise LinAlgError
  else
    let l1 := below_pivot pivot (v0 (row1 a)) in
    let l2 := below_pivot pivot (v0 (row2 a)) in
    let a := Mat (row0 a)
                 (Vec l1 (v1 (row1 a) - l1 * v1 (row0 a)) (v2 (row1 a) - l1 * v2 (row0 a)))
                 (Vec l2 (v1 (row2 a) - l2 * v1 (row0 a)) (v2 (row2 a) - l2 * v2 (row0 a))) in
    let q := idamax (v1 (row1 a)) [v1 (row2 a)] in
    let a := swap1 q a in
    let pivot := v1 (row1 a) in
    if pivot == of_Z 0 then Raise LinAlgError
    else
      let l := below_pivot pivot (v1 (row2 a)) in
      let u := v2 (row2 a) - l * v2 (row1 a) in
      if u == of_Z 0 then Raise LinAlgError
      else Ok (Mat (row0 a) (row1 a) (Vec (v0 (row2 a)) l u), (p, q)).

(** [getrs] for one right-hand side whose rows are already exchanged. *)
Definition getrs (lu : mat) (b : vec) : vec :=
  let y0 := v0 b in
  let y1 := v1 b - y0 * v0 (row1 lu) in
  let y2 := v2 b - y0 * v0 (row2 lu) in
  let y2 := y2 - y1 * v1 (row2 lu) in
  let x2 := y2 / v2 (row2 lu) in
  let x0 := y0 - x2 * v2 (row0 lu) in
  let x1 := y1 - x2 * v2 (row1 lu) in
  let x1 := x1 / v1 (row1 lu) in
  let x0 := x0 - x1 * v1 (row0 lu) in
  let x0 := x0 / v0 (row0 lu) in
  Vec x0 x1 x2.

Definition identity : mat :=
  Mat (Vec (of_Z 1) (of_Z 0) (of_Z 0))
      (Vec (of_Z 0) (of_Z 1) (of_Z 0))
      (Vec (of_Z 0) (of_Z 0) (of_Z 1)).

Definition inv (m : mat) : result mat :=
  r <- getrf m ;;
  let '(lu, (p, q)) := r in
  let b := transpose (swap1 q (swap0 p identity)) in
  Ok (of_columns (getrs lu (row0 b)) (getrs lu (row1 b)) (getrs lu (row2 b))).

(** [m.dot(a)] for a vector [a]. *)
Definition mat_vec (m : mat) (a : vec) : vec :=
  Vec (dot (row0 m) a) (dot (row1 m) a) (dot (row2 m) a).

(** *** Module constants *)

Definition DEFAULT_MAX_THRUSTS : list num := [dec (-29) 10; dec 371 100].
Definition DEFAULT_FWD_CURRENT : list num := [dec 741 1000; dec 189 100; dec (-278) 1000].
Definition DEFAULT_REV_CURRENT : list num := [dec 136 100; dec 204 100; dec (-231) 1000].
Definition DEFAULT_MAX_CURRENT : Z := 22.

(** *** class Thruster3D *)

Record Thruster3D : Type := {
  pos : vec;
  max_thrusts : list num;
  fwd_current : list num;
  rev_current : list num;
  orientation : vec
}.

Definition torque (self : Thruster3D) : vec :=
  cross (pos self) (orientation self).

(** *** transform_orientations *)

(** Lines 46 to 65: the change of basis array for a target direction. *)
Definition new_bases (target_dir : vec) : mat :=
  let target_dir := vdiv target_dir (norm target_dir) in
  let second_basis :=
    if negb ((v1 target_dir == of_Z 0) && (v2 target_dir == of_Z 0))
    then cross target_dir (Vec (of_Z 1) (of_Z 0) (of_Z 0))
    else cross target_dir (Vec (of_Z 0) (of_Z 1) (of_Z 0)) in
  let second_basis := vdiv second_basis (norm second_basis) in
  let third_basis := cross target_dir second_basis in
  let third_basis := vdiv third_basis (norm third_basis) in
  of_columns target_dir second_basis third_basis.

(** The rows of the result are the thrusters' orientations in the new
    basis ([inverse_transform.dot(orientations).transpose()]). *)
Definition transform_orientations (thrusters : list Thruster3D) (target_dir : vec)
  : result (list vec) :=
  let orientations := map orientation thrusters in
  inverse_transform <- inv (new_bases target_dir) ;;
  Ok (map (mat_vec inverse_transform) orientations).

(** *** scipy.optimize.linprog *)

(** The arguments of a [linprog] call of the program ([A_ub] and [b_ub]
    are [None] in both calls): minimise [c . x] subject to
    [A_eq x = b_eq] and, for each variable, [bounds[k][0] <= x[k] <=
    bounds[k][1]]. *)
Record LinProg : Type := {
  c : list num;
  A_eq : list (list num);
  b_eq : list num;
  bounds : list (list num)
}.

(** The [OptimizeResult] of the "highs" method, as far as the program
    reads it: when the solver finds no optimum ([status] 2 is infeasible,
    3 unbounded), [fun] and [x] are [None]. *)
Record OptimizeResult : Type := {
  status : Z;
  res_fun : option num;
  res_x : option (list num)
}.

(** *** np.roots on the three coefficients of [current_quadratic] *)

(** A numpy array of roots: of floats when every root is real, of complex
    numbers (real and imaginary part) otherwise. *)
Inductive roots : Type :=
| RealRoots (l : list num)
| ComplexRoots (l : list (num * num)).

Fixpoint strip_leading (p : list num) : list num :=
  match p with
  | [] => []
  | x :: p' => if x == of_Z 0 then strip_leading p' else p
  end.

(** [p[non_zero[0] : non_zero[-1] + 1]] and the number of trailing zeros. *)
Definition strip_zeros (p : list num) : list num * nat :=
  let q := strip_leading (rev (strip_leading p)) in
  (rev q, (length (strip_leading p) - length q)%nat).

(** [eigvals] of the companion matrix of the stripped polynomial, which
    has at most three coefficients here: it raises [LinAlgError] on an
    array that is not finite, and returns the roots of the polynomial, a
    real array when all of them are real.  A polynomial of one coefficient
    or none has no companion matrix and no root. *)
Definition companion_eigvals (p : list num) : result roots :=
  match p with
  | [a; b] =>
      let B := - b / a in
      if isfinite B then Ok (RealRoots [B]) else Raise LinAlgError
  | [a; b; c0] =>
      (* eigenvalues of [[B, C], [1, 0]]: x^2 - B x - C = 0 *)
      let B := - b / a in
      let C := - c0 / a in
      if isfinite B && isfinite C then
        let disc := B * B + of_Z 4 * C in
        if disc <? of_Z 0 then
          let im := nsqrt (- disc) / of_Z 2 in
          Ok (ComplexRoots [(B / of_Z 2, im); (B / of_Z 2, - im)])
        else
          Ok (RealRoots [(B + nsqrt disc) / of_Z 2; (B - nsqrt disc) / of_Z 2])
      else Raise LinAlgError
  | _ => Ok (RealRoots [])
  end.

(** [np.hstack((roots, zeros(k)))]. *)
Definition hstack_zeros (r : roots) (k : nat) : roots :=
  match r with
  | RealRoots l => RealRoots (l ++ repeat (of_Z 0) k)
  | ComplexRoots l => ComplexRoots (l ++ repeat (of_Z 0, of_Z 0) k)
  end.

Definition np_roots (p : list num) : result roots :=
  let '(q, trailing_zeros) := strip_zeros p in
  r <- companion_eigvals q ;;
  Ok (hstack_zeros r trailing_zeros).

(** *** Python numbers, [max] and [min] *)

(** A float, or a complex number (numpy orders complex numbers
    lexicographically). *)
Inductive pynum : Type :=
| PyFloat (x : num)
| PyComplex (re im : num).

Definition clt (a b : num * num) : bool :=
  (fst a <? fst b) || ((fst a == fst b) && (snd a <? snd b)).

(** [max(l)]: the first greatest item, [ValueError] on an empty sequence. *)
Definition py_max {A : Type} (lt : A -> A -> bool) (l : list A) : result A :=
  match l with
  | [] => Raise ValueError
  | x :: l' => Ok (fold_left (fun m y => if lt m y then y else m) l' x)
  end.

(** [min(1., max(r))]. *)
Definition clamp_multiplier (r : roots) : result pynum :=
  match r with
  | RealRoots l =>
      m <- py_max nltb l ;;
      Ok (PyFloat (if m <? of_Z 1 then m else of_Z 1))
  | ComplexRoots l =>
      m <- py_max clt l ;;
      Ok (if clt m (of_Z 1, of_Z 0) then PyComplex (fst m) (snd m) else PyFloat (of_Z 1))
  end.

(** [x * m] for a float [x]. *)
Definition scale (x : num) (m : pynum) : pynum :=
  match m with
  | PyFloat y => PyFloat (x * y)
  | PyComplex re im => PyComplex (x * re) (x * im)
  end.

(** *** get_max_thrust *)

(** Lines 91 to 101 and 137 to 161: the loops read [t_constraints[i]] for
    every index [i] of [transformed_orientations]. *)
Definition with_constraints (transformed_orientations t_constraints : list vec)
  : result (list (vec * vec)) :=
  mapM (fun '(i, orientation) =>
          t <- index t_constraints i ;; Ok (orientation, t))
       (enumerate transformed_orientations).

(** The first linear program (lines 79 to 119). *)
Definition max_thrust_problem (cols : list (vec * vec)) : LinProg :=
  let objective := map (fun '(o, _) => - v0 o) cols in
  let thrusts_y := map (fun '(o, _) => v1 o) cols in
  let thrusts_z := map (fun '(o, _) => v2 o) cols in
  let torques_x := map (fun '(_, t) => v0 t) cols in
  let torques_y := map (fun '(_, t) => v1 t) cols in
  let torques_z := map (fun '(_, t) => v2 t) cols in
  let bounds := map (fun _ => DEFAULT_MAX_THRUSTS) cols in
  {| c := objective;
     A_eq := [thrusts_y; thrusts_z; torques_x; torques_y; torques_z];
     b_eq := [of_Z 0; of_Z 0; of_Z 0; of_Z 0; of_Z 0];
     bounds := bounds |}.

(** Each thruster becomes a forward and a reverse half-thruster. *)
Definition halves (f : vec * vec -> num) (cols : list (vec * vec)) : list num :=
  flat_map (fun col => [f col; - f col]) cols.

(** The second linear program (lines 124 to 181). *)
Definition min_current_problem (cols : list (vec * vec)) (max_thrust : num) : LinProg :=
  let objective_mincurrent := flat_map (fun _ => [of_Z 1; of_Z 1]) cols in
  let thrusts_x_mincurrent := halves (fun '(o, _) => v0 o) cols in
  let thrusts_y_mincurrent := halves (fun '(o, _) => v1 o) cols in
  let thrusts_z_mincurrent := halves (fun '(o, _) => v2 o) cols in
  let torques_x_mincurrent := halves (fun '(_, t) => v0 t) cols in
  let torques_y_mincurrent := halves (fun '(_, t) => v1 t) cols in
  let torques_z_mincurrent := halves (fun '(_, t) => v2 t) cols in
  let bounds_mincurrent :=
    flat_map (fun _ => [[of_Z 0; dec 371 100]; [of_Z 0; dec 290 100]]) cols in
  {| c := objective_mincurrent;
     A_eq := [thrusts_x_mincurrent; thrusts_y_mincurrent; thrusts_z_mincurrent;
              torques_x_mincurrent; torques_y_mincurrent; torques_z_mincurrent];
     b_eq := [max_thrust; of_Z 0; of_Z 0; of_Z 0; of_Z 0; of_Z 0];
     bounds := bounds_mincurrent |}.

(** Lines 185 to 188: [range(0, len(a) - 1, 2)] pairs the half-thrusters. *)
Fixpoint combine_halves (a : list num) : list num :=
  match a with
  | f :: r :: a' => (f - r) :: combine_halves a'
  | _ => []
  end.

(** Lines 190 to 202: the three coefficients summed over the allocation. *)
Definition add_current (q : num * num * num) (thrust : num) : num * num * num :=
  let '(q0, q1, q2) := q in
  if of_Z 0 <=? thrust then
    (q0 + nth 0 DEFAULT_FWD_CURRENT (of_Z 0) * (thrust * thrust),
     q1 + nth 1 DEFAULT_FWD_CURRENT (of_Z 0) * thrust,
     q2 + nth 2 DEFAULT_FWD_CURRENT (of_Z 0))
  else
    (q0 + nth 0 DEFAULT_REV_CURRENT (of_Z 0) * ((- thrust) * (- thrust)),
     q1 + nth 1 DEFAULT_REV_CURRENT (of_Z 0) * (- thrust),
     q2 + nth 2 DEFAULT_REV_CURRENT (of_Z 0)).

Definition current_quadratic (min_current_true_array : list num) : num * num * num :=
  fold_left add_current min_current_true_array (of_Z 0, of_Z 0, of_Z 0).

(** Lines 209 to 212: the total thrust along the target direction;
    [thrust_value] is Python's integer 0 until the first addition. *)
Fixpoint thrust_sum (i : nat) (a : list num) (transformed_orientations : list vec)
    (thrust_value : num) : result num :=
  match a with
  | [] => Ok thrust_value
  | t :: a' =>
      o <- index transformed_orientations i ;;
      thrust_sum (S i) a' transformed_orientations (thrust_value + t * v0 o)
  end.

(** Lines 183 to 214: from the answer of the second program to the
    returned thrust.  Line 204 subtracts the integer [max_current] from a
    float. *)
Definition derate (min_current_duplicated_array : list num)
    (transformed_orientations : list vec) (max_current : Z) : result pynum :=
  let min_current_true_array := combine_halves min_current_duplicated_array in
  let '(q0, q1, q2) := current_quadratic min_current_true_array in
  budget <- of_int max_current ;;
  let q2 := q2 - budget in
  r <- np_roots [q0; q1; q2] ;;
  thrust_multiplier <- clamp_multiplier r ;;
  thrust_value <- thrust_sum 0 min_current_true_array transformed_orientations (of_Z 0) ;;
  Ok (scale thrust_value thrust_multiplier).

(** [r.fun] and [r.x] used as numbers: [None] in an arithmetic operation or
    under [len] is a [TypeError]. *)
Definition not_none {A : Type} (o : option A) : result A :=
  match o with
  | Some a => Ok a
  | None => Raise TypeError
  end.

Section GetMaxThrust.

Variable linprog : LinProg -> result OptimizeResult.

Definition get_max_thrust (transformed_orientations t_constraints : list vec)
    (max_current : Z) : result pynum :=
  cols <- with_constraints transformed_orientations t_constraints ;;
  max_thrust_result <- linprog (max_thrust_problem cols) ;;
  f <- not_none (res_fun max_thrust_result) ;;
  let max_thrust := - dec 999 1000 * f in
  min_current_result <- linprog (min_current_problem cols max_thrust) ;;
  min_current_duplicated_array <- not_none (res_x min_current_result) ;;
  derate min_current_duplicated_array transformed_orientations max_current.

End GetMaxThrust.

End Code.

Arguments vec num : clear implicits.
Arguments mat num : clear implicits.
Arguments Thruster3D num : clear implicits.
Arguments LinProg num : clear implicits.
Arguments OptimizeResult num : clear implicits.
Arguments roots num : clear implicits.
Arguments pynum num : clear implicits.

(** ** The sampler: [main], at the exact reals *)

Module Sampler.

Local Open Scope R_scope.

(** [np.radians]. *)
Definition radians (x : R) : R := x * (PI / 180).

(** [Thruster3D.__init__]. *)
Definition Thruster3D_init (x y z theta phi : R)
    (max_thrusts fwd_current rev_current : list R) : Thruster3D R :=
  let theta := radians theta in
  let phi := radians phi in
  {| pos := Vec x y z;
     max_thrusts := max_thrusts;
     fwd_current := fwd_current;
     rev_current := rev_current;
     orientation := Vec (sin phi * cos theta) (sin phi * sin theta) (cos phi) |}.

(** One record of the thruster file: five required numbers and three
    optional lists. *)
Record thruster_raw : Type := {
  raw_x : R;
  raw_y : R;
  raw_z : R;
  raw_theta : R;
  raw_phi : R;
  raw_max_thrusts : option (list R);
  raw_fwd_current : option (list R);
  raw_rev_current : option (list R)
}.

(** [d.get(key, default)]. *)
Definition get {A : Type} (o : option A) (default : A) : A :=
  match o with
  | Some a => a
  | None => default
  end.

(** Lines 280 to 294. *)
Definition load_thrusters (thrusters_raw : list thruster_raw) : list (Thruster3D R) :=
  map (fun raw =>
         Thruster3D_init (raw_x raw) (raw_y raw) (raw_z raw) (raw_theta raw) (raw_phi raw)
           (get (raw_max_thrusts raw) DEFAULT_MAX_THRUSTS)
           (get (raw_fwd_current raw) DEFAULT_FWD_CURRENT)
           (get (raw_rev_current raw) DEFAULT_REV_CURRENT))
      thrusters_raw.

(** One axis of [np.mgrid[0:stop:count*1j]]: [count] points from 0 to
    [stop], both included (a single point is 0). *)
Definition mgrid_axis (stop : R) (count : Z) : list R :=
  let step := if (count =? 1)%Z then 1 else (stop - 0) / IZR (count - 1) in
  map (fun k => INR k * step + 0) (seq 0 (Z.to_nat count)).

(** The numbers of points of the two axes of line 302: [int(abs(step))] for
    the steps [resolution * 1j] and [resolution / 2 * 1j]. *)
Definition count_u (resolution : Z) : Z := Z.abs resolution.
Definition count_v (resolution : Z) : Z := Z.abs resolution / 2.

(** A grid cell: the direction sampled and the thrust found along it. *)
Record cell : Type := {
  cell_dir : vec R;
  cell_rho : pynum R
}.

(** What a float array keeps of a number stored into it: numpy casts a
    complex number to its real part (and warns). *)
Definition stored (p : pynum R) : R :=
  match p with
  | PyFloat x => x
  | PyComplex re _ => re
  end.

(** [(mesh_x[i][j], mesh_y[i][j], mesh_z[i][j])]. *)
Definition mesh_point (s : cell) : vec R :=
  let d := cell_dir s in
  Vec (stored (scale (v0 d) (cell_rho s)))
      (stored (scale (v1 d) (cell_rho s)))
      (stored (scale (v2 d) (cell_rho s))).

Section Sweep.

Variable linprog : LinProg R -> result (OptimizeResult R).

(** The body of the double loop (lines 313 to 318). *)
Definition sample (thrusters : list (Thruster3D R)) (torque_constraints : list (vec R))
    (max_current : Z) (u v : R) : result cell :=
  let z := cos u * sin v in
  let y := sin u * sin v in
  let x := cos v in
  transformed_orientations <- transform_orientations thrusters (Vec x y z) ;;
  rho <- get_max_thrust linprog transformed_orientations torque_constraints max_current ;;
  Ok {| cell_dir := Vec x y z; cell_rho := rho |}.

(** Lines 297 to 322: the grid and the double loop; an exception raised
    for a cell ends the sweep.  The running maximum [max_rho], which only
    the plot reads, is left out. *)
Definition sweep (thrusters : list (Thruster3D R)) (resolution max_current : Z)
  : result (list (list cell)) :=
  let torque_constraints := map torque thrusters in
  mapM (fun u =>
          mapM (fun v => sample thrusters torque_constraints max_current u v)
               (mgrid_axis PI (count_v resolution)))
       (mgrid_axis (2 * PI) (count_u resolution)).

(** [main], up to the end of the double loop. *)
Definition main (thrusters_raw : list thruster_raw) (resolution max_current : Z)
  : result (list (list cell)) :=
  sweep (load_thrusters thrusters_raw) resolution max_current.

End Sweep.

End Sampler.

(** ** Notions used to state the properties *)

Module Notions.

Local Open Scope R_scope.

Definition zero_vec : vec R := Vec 0 0 0.

(** The inverse of exact arithmetic, by cofactors; singular at a zero
    determinant. *)
Definition inverse_by_cofactors (m : mat R) : result (mat R) :=
  let d := det m in
  if Reqb d 0 then Raise LinAlgError
  else
    let '(Mat (Vec a b c) (Vec d' e f) (Vec g h i)) := m in
    Ok (Mat (Vec ((e * i - f * h) / d) ((c * h - b * i) / d) ((b * f - c * e) / d))
            (Vec ((f * g - d' * i) / d) ((a * i - c * g) / d) ((c * d' - a * f) / d))
            (Vec ((d' * h - e * g) / d) ((b * g - a * h) / d) ((a * e - b * d') / d))).

Definition float_zero_vec : vec float := Vec PrimFloat.zero PrimFloat.zero PrimFloat.zero.
Definition float_nan_vec : vec float := Vec PrimFloat.nan PrimFloat.nan PrimFloat.nan.

(** A thruster at the origin that pushes along x, with the default
    specifications, in binary64. *)
Definition surge_thruster_float : Thruster3D float :=
  {| pos := float_zero_vec;
     max_thrusts := DEFAULT_MAX_THRUSTS;
     fwd_current := DEFAULT_FWD_CURRENT;
     rev_current := DEFAULT_REV_CURRENT;
     orientation := Vec PrimFloat.one PrimFloat.zero PrimFloat.zero |}.

(** The larger root of [a s^2 + b s + c], for [0 < a] and a discriminant
    that is not negative. *)
Definition discriminant (a b c : R) : R := b * b - 4 * a * c.
Definition larger_root (a b c : R) : R := (- b + sqrt (discriminant a b c)) / (2 * a).

(** [thrust_value * thrust_multiplier] for a quadratic [a s^2 + b s + c]
    with [0 < a]: the larger root clamped above by 1 when the roots are
    real, the root of positive imaginary part otherwise. *)
Definition derated (tv a b c : R) : pynum R :=
  if Rlt_dec (discriminant a b c) 0
  then PyComplex (tv * (- b / (2 * a))) (tv * (sqrt (- discriminant a b c) / (2 * a)))
  else PyFloat (tv * Rmin 1 (larger_root a b c)).

(** The current one thruster draws at thrust [t], with the coefficients
    [coeffs] of its direction: [a |t|^2 + b |t| + c]. *)
Definition current_draw (coeffs : list R) (t : R) : R :=
  nth 0 coeffs 0 * (Rabs t * Rabs t) + nth 1 coeffs 0 * Rabs t + nth 2 coeffs 0.

(** The current [get_max_thrust] counts for a thrust [t], of whichever
    thruster: the coefficients are the module constants (lines 193 to
    202). *)
Definition default_current (t : R) : R :=
  if Rle_dec 0 t then current_draw DEFAULT_FWD_CURRENT t
  else current_draw DEFAULT_REV_CURRENT t.

(** The current the thruster [th] draws at thrust [t] by its own
    coefficients [fwd_current] and [rev_current]. *)
Definition thruster_current (th : Thruster3D R) (t : R) : R :=
  if Rle_dec 0 t then current_draw (fwd_current th) t
  else current_draw (rev_current th) t.

Definition total (l : list R) : R := fold_right Rplus 0 l.

(** *** What a linear-program solver answers *)

Definition dotl (a b : list R) : R :=
  total (map (fun p => fst p * snd p) (combine a b)).

(** [x] is within the bound [[lo; hi]]. *)
Definition within (bd : list R) (x : R) : Prop :=
  match bd with
  | [lo; hi] => lo <= x <= hi
  | _ => False
  end.

Definition feasible (lp : LinProg R) (x : list R) : Prop :=
  length x = length (c lp) /\
  Forall2 (fun row b => dotl row x = b) (A_eq lp) (b_eq lp) /\
  Forall2 within (bounds lp) x.

Definition optimum (lp : LinProg R) (f : R) (x : list R) : Prop :=
  feasible lp x /\ f = dotl (c lp) x /\
  forall y : list R, feasible lp y -> f <= dotl (c lp) y.

(** An answer with [fun] and [x] is an optimum of the program; an answer
    that reports a failure has neither. *)
Definition answers (lp : LinProg R) (r : OptimizeResult R) : Prop :=
  match res_fun r, res_x r with
  | Some f, Some x => optimum lp f x
  | None, None => True
  | _, _ => False
  end.

(** The solver is exact: whatever it answers, answers the program. *)
Definition sound (linprog : LinProg R -> result (OptimizeResult R)) : Prop :=
  forall (lp : LinProg R) (r : OptimizeResult R), linprog lp = Ok r -> answers lp r.

(** The solver reports a failure (infeasible or unbounded) for [lp]. *)
Definition reports_failure (linprog : LinProg R -> result (OptimizeResult R))
    (lp : LinProg R) : Prop :=
  exists r : OptimizeResult R, linprog lp = Ok r /\ res_fun r = None /\ res_x r = None.

(** *** A run: one thruster at the origin that pushes along x *)

Definition surge_raw : Sampler.thruster_raw :=
  {| Sampler.raw_x := 0; Sampler.raw_y := 0; Sampler.raw_z := 0;
     Sampler.raw_theta := 0; Sampler.raw_phi := 90;
     Sampler.raw_max_thrusts := None;
     Sampler.raw_fwd_current := None;
     Sampler.raw_rev_current := None |}.

(** The same thruster with bounds of its own in the thruster file. *)
Definition weak_surge_raw : Sampler.thruster_raw :=
  {| Sampler.raw_x := 0; Sampler.raw_y := 0; Sampler.raw_z := 0;
     Sampler.raw_theta := 0; Sampler.raw_phi := 90;
     Sampler.raw_max_thrusts := Some [-1; 1];
     Sampler.raw_fwd_current := None;
     Sampler.raw_rev_current := None |}.

(** The same thruster with forward current coefficients of its own in the
    thruster file: it draws [3 t^2] at a forward thrust [t]. *)
Definition hungry_surge_raw : Sampler.thruster_raw :=
  {| Sampler.raw_x := 0; Sampler.raw_y := 0; Sampler.raw_z := 0;
     Sampler.raw_theta := 0; Sampler.raw_phi := 90;
     Sampler.raw_max_thrusts := None;
     Sampler.raw_fwd_current := Some [3; 0; 0];
     Sampler.raw_rev_current := None |}.

(** The thrusters, as [Thruster3D.__init__] builds them. *)
Definition surge_thruster : Thruster3D R :=
  {| pos := Vec 0 0 0; max_thrusts := DEFAULT_MAX_THRUSTS;
     fwd_current := DEFAULT_FWD_CURRENT; rev_current := DEFAULT_REV_CURRENT;
     orientation := Vec 1 0 0 |}.

Definition weak_surge_thruster : Thruster3D R :=
  {| pos := Vec 0 0 0; max_thrusts := [-1; 1];
     fwd_current := DEFAULT_FWD_CURRENT; rev_current := DEFAULT_REV_CURRENT;
     orientation := Vec 1 0 0 |}.

Definition hungry_surge_thruster : Thruster3D R :=
  {| pos := Vec 0 0 0; max_thrusts := DEFAULT_MAX_THRUSTS;
     fwd_current := [3; 0; 0]; rev_current := DEFAULT_REV_CURRENT;
     orientation := Vec 1 0 0 |}.

(** A grid cell along x with the thrust [rho]. *)
Definition surge_cell (rho : R) : Sampler.cell :=
  {| Sampler.cell_dir := Vec 1 0 0; Sampler.cell_rho := PyFloat rho |}.

(** Its orientation in the basis of the direction (1, 0, 0), and its torque
    arm. *)
Definition surge_cols : list (vec R * vec R) := [(Vec 1 0 0, Vec 0 0 0)].

Definition surge_max_thrust : R := - dec 999 1000 * (- (371 / 100)).

Definition surge_problem_1 : LinProg R := max_thrust_problem surge_cols.
Definition surge_problem_2 : LinProg R := min_current_problem surge_cols surge_max_thrust.

Definition surge_answer_1 : OptimizeResult R :=
  {| status := 0; res_fun := Some (- (371 / 100)); res_x := Some [371 / 100] |}.
Definition surge_answer_2 : OptimizeResult R :=
  {| status := 0; res_fun := Some surge_max_thrust; res_x := Some [surge_max_thrust; 0] |}.

(** The thrust allocated to it, and the coefficients of its quadratic. *)
Definition surge_thrust : R := 370629 / 100000.
Definition surge_a : R := 741 / 1000 * (surge_thrust * surge_thrust).
Definition surge_b : R := 189 / 100 * surge_thrust.
Definition surge_c : R := -278 / 1000.

Definition LinProg_eq_dec (a b : LinProg R) : {a = b} + {a <> b}.
Proof.
  decide equality; repeat (apply list_eq_dec; intros); apply Req_dec_T.
Defined.

(** A solver that knows the two programs of that run. *)
Definition surge_linprog (lp : LinProg R) : result (OptimizeResult R) :=
  if LinProg_eq_dec lp surge_problem_1 then Ok surge_answer_1
  else if LinProg_eq_dec lp surge_problem_2 then Ok surge_answer_2
  else Raise ValueError.

(** A solver that reports every program infeasible. *)
Definition failing_linprog (lp : LinProg R) : result (OptimizeResult R) :=
  Ok {| status := 2; res_fun := None; res_x := None |}.

(** The larger limit of a thruster's own [max_thrusts]. *)
Definition forward_bound (th : Thruster3D R) : R := nth 1 (max_thrusts th) 0.

End Notions.

Import Notions.

(** ** calc_max_yaw_pitch_roll *)

(** Python's error for a local variable read before any assignment, and
    for a missing dictionary key: builtin classes, named. *)
Definition UnboundLocalError : exn := Custom "UnboundLocalError".

Section YawPitchRoll.

Context {num : Type} `{Arith num}.
Local Open Scope num_scope.

Variable linprog : LinProg num -> result (OptimizeResult num).

(** Lines 231 to 241: the loop reads [torque_constraints[i]] and
    [thrusters[i]] for every index [i] of [torque_constraints]. *)
Definition with_thrusters (thrusters : list (Thruster3D num)) (torque_constraints : list (vec num))
  : result (list (vec num * Thruster3D num)) :=
  mapM (fun '(i, t) => thruster <- index thrusters i ;; Ok (t, thruster))
       (enumerate torque_constraints).

(** [torques.pop(i)]. *)
Definition pop {A : Type} (i : nat) (l : list A) : list A :=
  firstn i l ++ skipn (S i) l.

(** Lines 244 to 254: the program of the axis [i].  Its objective is the
    one-row array [[torques[i]]], which [linprog] reads as that row. *)
Definition yaw_pitch_roll_problem (cols : list (vec num * Thruster3D num)) (i : nat)
  : LinProg num :=
  let torque_x := map (fun '(t, _) => v0 t) cols in
  let torque_y := map (fun '(t, _) => v1 t) cols in
  let torque_z := map (fun '(t, _) => v2 t) cols in
  let constraint3 := map (fun '(_, thruster) => v0 (orientation thruster)) cols in
  let constraint4 := map (fun '(_, thruster) => v1 (orientation thruster)) cols in
  let constraint5 := map (fun '(_, thruster) => v2 (orientation thruster)) cols in
  let bounds := map (fun _ => DEFAULT_MAX_THRUSTS) cols in
  let torques := [torque_x; torque_y; torque_z] in
  let objective := nth i torques [] in
  let torques := pop i torques in
  let constraint1 := nth 0 torques [] in
  let constraint2 := nth 1 torques [] in
  {| c := objective;
     A_eq := [constraint1; constraint2; constraint3; constraint4; constraint5];
     b_eq := [of_Z 0; of_Z 0; of_Z 0; of_Z 0; of_Z 0];
     bounds := bounds |}.

(** The second loop: what has been printed, and how the loop ended. *)
Fixpoint solve_axes (axes : list nat) (cols : list (vec num * Thruster3D num))
    (printed : list (OptimizeResult num)) : list (OptimizeResult num) * result unit :=
  match axes with
  | [] => (printed, Ok tt)
  | i :: axes' =>
      match linprog (yaw_pitch_roll_problem cols i) with
      | Ok res => solve_axes axes' cols (printed ++ [res])
      | Raise e => (printed, Raise e)
      end
  end.

(** The function returns [None]; what it does is print the answer of each
    program.  [torques] is assigned in the first loop only, so with no
    torque constraint [len(torques)] reads an unassigned local. *)
Definition calc_max_yaw_pitch_roll (thrusters : list (Thruster3D num))
    (torque_constraints : list (vec num)) : list (OptimizeResult num) * result unit :=
  match with_thrusters thrusters torque_constraints with
  | Raise e => ([], Raise e)
  | Ok [] => ([], Raise UnboundLocalError)
  | Ok cols => solve_axes (seq 0 3) cols []
  end.

End YawPitchRoll.

(** ** The thruster file and the running maximum of [main] *)

Module Loader.

Import Sampler.
Local Open Scope R_scope.

(** A value of the thruster file as [json.load] returns it: [None], a
    bool, a number (an int or a float, as a real), a str, a list, or a
    dict by its items. *)
#[local] Unset Elimination Schemes.
#[local] Set Elimination Schemes.














(** A Python number as a complex number, and [a > b] on numpy scalars. *)
Definition as_complex (p : pynum R) : R * R :=
  match p with
  | PyFloat x => (x, 0)
  | PyComplex re im => (re, im)
  end.

Definition py_gt (a b : pynum R) : bool := clt (as_complex b) (as_complex a).

(** Lines 310 and 322: [max_rho = max(max_rho, rho)] over the cells, row
    by row, from 0. *)
Definition max_rho (mesh : list (list cell)) : pynum R :=
  fold_left
    (fun max_rho row =>
       fold_left (fun m s => if py_gt (cell_rho s) m then cell_rho s else m) row max_rho)
    mesh (PyFloat 0).

End Loader.

(** ** More notions *)

Module MoreNotions.

Local Open Scope R_scope.

(** A signed allocation as forward and reverse half-thrusts. *)
Definition split_halves (t : list R) : list R :=
  flat_map (fun x => [Rmax x 0; Rmax (- x) 0]) t.

(** Two thrusters with the torque arm (0, 0, 1), the first pushing along
    the sampled direction and the second against it: a thrust free of
    torque runs the second in reverse. *)
Definition opposed_cols : list (vec R * vec R) :=
  [(Vec 1 0 0, Vec 0 0 1); (Vec (-1) 0 0, Vec 0 0 1)].

(** A run without thrust: one thruster at (0, 1, 0) that pushes along x,
    sampled along x.  Its torque arm is (0, 0, -1), so no thrust is free of
    torque. *)
Definition sway_cols : list (vec R * vec R) := [(Vec 1 0 0, Vec 0 0 (-1))].

Definition sway_problem_1 : LinProg R := max_thrust_problem sway_cols.
Definition sway_problem_2 : LinProg R :=
  min_current_problem sway_cols (- (999 / 1000) * 0).

Definition sway_answer_1 : OptimizeResult R :=
  {| status := 0; res_fun := Some 0; res_x := Some [0] |}.
Definition sway_answer_2 : OptimizeResult R :=
  {| status := 0; res_fun := Some 0; res_x := Some [0; 0] |}.

Definition sway_linprog (lp : LinProg R) : result (OptimizeResult R) :=
  if LinProg_eq_dec lp sway_problem_1 then Ok sway_answer_1
  else if LinProg_eq_dec lp sway_problem_2 then Ok sway_answer_2
  else Raise ValueError.











(** The surge thruster in [calc_max_yaw_pitch_roll]: its torque arm is
    zero, and the three programs are the same one, solved by no thrust. *)
Definition still_cols : list (vec R * Thruster3D R) := [(Vec 0 0 0, surge_thruster)].

Definition still_problem : LinProg R := yaw_pitch_roll_problem still_cols 0.

Definition still_answer : OptimizeResult R :=
  {| status := 0; res_fun := Some 0; res_x := Some [0] |}.

Definition still_linprog (lp : LinProg R) : result (OptimizeResult R) :=
  if LinProg_eq_dec lp still_problem then Ok still_answer else Raise ValueError.

End MoreNotions.

Import MoreNotions.

(** * Properties *)

Unset Implicit Arguments.
Local Open Scope R_scope.

(** ** Exact arithmetic *)

Lemma Reqb_true (x y : R) : Reqb x y = true <-> x = y.
Proof. unfold Reqb. destruct (Req_dec_T x y); split; congruence. Qed.

Lemma Reqb_false (x y : R) : Reqb x y = false <-> x <> y.
Proof. unfold Reqb. destruct (Req_dec_T x y); split; congruence. Qed.

Lemma Rltb_true (x y : R) : Rltb x y = true <-> x < y.
Proof. unfold Rltb. destruct (Rlt_dec x y); split; congruence. Qed.

Lemma Rltb_false (x y : R) : Rltb x y = false <-> y <= x.
Proof. unfold Rltb. destruct (Rlt_dec x y); split; try congruence; lra. Qed.

Lemma Rleb_true (x y : R) : Rleb x y = true <-> x <= y.
Proof. unfold Rleb. destruct (Rle_dec x y); split; congruence. Qed.

Lemma Rleb_false (x y : R) : Rleb x y = false <-> y < x.
Proof. unfold Rleb. destruct (Rle_dec x y); split; try congruence; lra. Qed.

(** Unfolds the interface at the instance [RArith]. *)
Ltac rarith :=
  cbn [of_Z of_int nadd nsub nmul ndiv nopp nsqrt neqb nltb nleb RArith] in *.

Lemma isfinite_R (x : R) : isfinite x = true.
Proof. unfold isfinite. rarith. apply Reqb_true. lra. Qed.

(** ** The change of basis *)

Lemma dot_self_pos (a : vec R) : a <> zero_vec -> 0 < dot a a.
Proof.
  destruct a as [x y z]. intros Hne. unfold dot. rarith. cbn [v0 v1 v2].
  assert (Hsq : 0 <= x * x + y * y + z * z) by nra.
  destruct Hsq as [Hlt | Heq]; [exact Hlt | exfalso].
  apply Hne. unfold zero_vec.
  assert (x = 0) by nra. assert (y = 0) by nra. assert (z = 0) by nra.
  congruence.
Qed.

Lemma norm_pos (a : vec R) : a <> zero_vec -> 0 < norm a.
Proof. intros Hne. unfold norm. rarith. apply sqrt_lt_R0, dot_self_pos, Hne. Qed.

Lemma norm_sqr (a : vec R) : norm a * norm a = dot a a.
Proof.
  unfold norm. rarith. apply sqrt_sqrt.
  destruct a as [x y z]. unfold dot. rarith. cbn [v0 v1 v2]. nra.
Qed.

(** A vector divided by its norm has length one. *)
Lemma dot_normalized (a : vec R) :
  a <> zero_vec -> dot (vdiv a (norm a)) (vdiv a (norm a)) = 1.
Proof.
  intros Hne. pose proof (norm_pos _ Hne) as Hpos. pose proof (norm_sqr a) as Hsq.
  destruct a as [x y z]. unfold vdiv, vmap, dot in *. rarith. cbn [v0 v1 v2] in *.
  set (n := norm (Vec x y z)) in *.
  replace (x / n * (x / n) + y / n * (y / n) + z / n * (z / n))
    with ((x * x + y * y + z * z) / (n * n)) by (field; lra).
  rewrite <- Hsq. field. lra.
Qed.

Lemma norm_of_unit (a : vec R) : dot a a = 1 -> norm a = 1.
Proof. intros Hu. unfold norm. rarith. rewrite Hu. apply sqrt_1. Qed.

Lemma vdiv_1 (a : vec R) : vdiv a 1 = a.
Proof.
  destruct a as [x y z]. unfold vdiv, vmap. rarith. cbn [v0 v1 v2].
  f_equal; field.
Qed.

(** ** The inverse *)

Lemma nabs_R (x : R) : nabs x = Rabs x.
Proof.
  unfold nabs. rarith. unfold Rltb, Rabs.
  destruct (Rlt_dec x 0), (Rcase_abs x); lra.
Qed.

Lemma below_pivot_R (pivot x : R) : below_pivot pivot x = x / pivot.
Proof.
  unfold below_pivot. destruct (sfmin <=? nabs pivot)%num; rarith; [| reflexivity].
  unfold Rdiv. ring.
Qed.

Lemma idamax_3 (x0 x1 x2 : R) :
  (idamax x0 [x1; x2] = 0%nat /\ (x0 = 0 -> x1 = 0 /\ x2 = 0)) \/
  (idamax x0 [x1; x2] = 1%nat /\ (x1 = 0 -> x0 = 0 /\ x2 = 0)) \/
  (idamax x0 [x1; x2] = 2%nat /\ (x2 = 0 -> x0 = 0 /\ x1 = 0)).
Proof.
  unfold idamax, idamax_from. rewrite !nabs_R. rarith.
  pose proof (Rabs_pos x0). pose proof (Rabs_pos x1). pose proof (Rabs_pos x2).
  assert (Hz : forall x : R, Rabs x <= 0 -> x = 0).
  { intros x Hx. destruct (Req_dec x 0) as [E | E]; [exact E |].
    pose proof (Rabs_pos_lt x E). lra. }
  destruct (Rltb (Rabs x0) (Rabs x1)) eqn:E1.
  - apply Rltb_true in E1.
    destruct (Rltb (Rabs x1) (Rabs x2)) eqn:E2.
    + apply Rltb_true in E2. right; right. split; [reflexivity |].
      intros ->. rewrite Rabs_R0 in *. lra.
    + apply Rltb_false in E2. right; left. split; [reflexivity |].
      intros ->. rewrite Rabs_R0 in *. lra.
  - apply Rltb_false in E1.
    destruct (Rltb (Rabs x0) (Rabs x2)) eqn:E2.
    + apply Rltb_true in E2. right; right. split; [reflexivity |].
      intros ->. rewrite Rabs_R0 in *. lra.
    + apply Rltb_false in E2. left. split; [reflexivity |].
      intros ->. rewrite Rabs_R0 in *. split; apply Hz; lra.
Qed.

Lemma idamax_2 (x0 x1 : R) :
  (idamax x0 [x1] = 0%nat /\ (x0 = 0 -> x1 = 0)) \/
  (idamax x0 [x1] = 1%nat /\ (x1 = 0 -> x0 = 0)).
Proof.
  unfold idamax, idamax_from. rewrite !nabs_R. rarith.
  pose proof (Rabs_pos x0). pose proof (Rabs_pos x1).
  assert (Hz : forall x : R, Rabs x <= 0 -> x = 0).
  { intros x Hx. destruct (Req_dec x 0) as [E | E]; [exact E |].
    pose proof (Rabs_pos_lt x E). lra. }
  destruct (Rltb (Rabs x0) (Rabs x1)) eqn:E1.
  - apply Rltb_true in E1. right. split; [reflexivity |].
    intros ->. rewrite Rabs_R0 in *. lra.
  - apply Rltb_false in E1. left. split; [reflexivity |].
    intros ->. rewrite Rabs_R0 in *. apply Hz; lra.
Qed.

(** The factors of an array whose pivots are on the diagonal, and what
    the two substitutions then give. *)
Lemma getrs_exact (a b c d e f g h i : R) :
  a <> 0 -> e - d / a * b <> 0 ->
  i - g / a * c - (h - g / a * b) / (e - d / a * b) * (f - d / a * c) <> 0 ->
  let D := a * (e * i - f * h) - b * (d * i - f * g) + c * (d * h - e * g) in
  D = a * (e - d / a * b)
      * (i - g / a * c - (h - g / a * b) / (e - d / a * b) * (f - d / a * c)) /\
  forall x y z : R,
    getrs (Mat (Vec a b c)
               (Vec (d / a) (e - d / a * b) (f - d / a * c))
               (Vec (g / a) ((h - g / a * b) / (e - d / a * b))
                    (i - g / a * c - (h - g / a * b) / (e - d / a * b) * (f - d / a * c))))
          (Vec x y z)
    = Vec (((e * i - f * h) * x + (c * h - b * i) * y + (b * f - c * e) * z) / D)
          (((f * g - d * i) * x + (a * i - c * g) * y + (c * d - a * f) * z) / D)
          (((d * h - e * g) * x + (b * g - a * h) * y + (a * e - b * d) * z) / D).
Proof.
  intros Ha Hp Hu D.
  assert (Hp' : e * a - d * b <> 0).
  { intros E. apply Hp. apply (Rmult_eq_reg_l a); [| exact Ha].
    rewrite Rmult_0_r, <- E. field. exact Ha. }
  assert (HD : D = a * (e - d / a * b)
      * (i - g / a * c - (h - g / a * b) / (e - d / a * b) * (f - d / a * c))).
  { unfold D. field. split; assumption. }
  assert (HD0 : D <> 0).
  { rewrite HD. repeat apply Rmult_integral_contrapositive_currified; assumption. }
  split; [exact HD |].
  intros x y z. cbv [getrs row0 row1 row2 v0 v1 v2]. rarith.
  assert (HD' : a * e * i - a * f * h - b * d * i + b * f * g + c * d * h - c * e * g <> 0).
  { intros E. apply HD0. unfold D. rewrite <- E. ring. }
  assert (Hu' : (i * a - g * c) * (e * a - d * b) - (h * a - g * b) * (f * a - d * c) <> 0).
  { replace ((i * a - g * c) * (e * a - d * b) - (h * a - g * b) * (f * a - d * c))
      with (a * D) by (unfold D; ring).
    apply Rmult_integral_contrapositive_currified; assumption. }
  f_equal; unfold D; field; repeat split; assumption.
Qed.

Lemma det_pivots (a b c d e f g h i : R) :
  a <> 0 -> e - d / a * b <> 0 ->
  a * (e * i - f * h) - b * (d * i - f * g) + c * (d * h - e * g)
  = a * (e - d / a * b)
      * (i - g / a * c - (h - g / a * b) / (e - d / a * b) * (f - d / a * c)).
Proof.
  intros Ha Hp.
  assert (Hp' : e * a - d * b <> 0).
  { intros E. apply Hp. apply (Rmult_eq_reg_l a); [| exact Ha].
    rewrite Rmult_0_r, <- E. field. exact Ha. }
  field. split; assumption.
Qed.

(** After the first pivot [Ea]: the second pivot, the third, and the
    substitutions. *)
Ltac pivots_2_3 Ea :=
  let Hz2 := fresh "Hz2" in
  let Ep := fresh "Ep" in
  let Eu := fresh "Eu" in
  let Ep2 := fresh "Ep2" in
  let HD := fresh "HD" in
  let HD0 := fresh "HD0" in
  let Hsol := fresh "Hsol" in
  let E0 := fresh "E0" in
  match goal with |- context [idamax ?x [?y]] =>
    destruct (idamax_2 x y) as [[-> Hz2] | [-> Hz2]] end;
  cbn [swap1 row0 row1 row2 v0 v1 v2]; rewrite ?below_pivot_R; rarith;
  ((match goal with |- context [if Reqb ?x 0 then _ else _] =>
     destruct (Reqb x 0) eqn:Ep end);
  [ apply Reqb_true in Ep; pose proof (Hz2 Ep) as Ep2; cbn [bind];
    (replace (Reqb _ 0) with true; [reflexivity |]);
    symmetry; apply Reqb_true;
    match type of Ep with ?v - ?s = 0 =>
      match type of Ep2 with ?w - ?t = 0 =>
        replace v with s by lra; replace w with t by lra
      end
    end;
    field; exact Ea
  | apply Reqb_false in Ep;
    ((match goal with |- context [if Reqb ?x 0 then _ else _] =>
       destruct (Reqb x 0) eqn:Eu end);
    [ apply Reqb_true in Eu; cbn [bind];
      (replace (Reqb _ 0) with true; [reflexivity |]);
      symmetry; apply Reqb_true;
      match type of Eu with
        ?I - ?G / ?A * ?C - (?H - ?G / ?A * ?B) / (?E - ?D / ?A * ?B) * (?F - ?D / ?A * ?C) = 0 =>
        pose proof (det_pivots A B C D E F G H I Ea Ep) as HD
      end;
      rewrite Eu, Rmult_0_r in HD; lra
    | apply Reqb_false in Eu; cbn [bind];
      match type of Eu with
        ?I - ?G / ?A * ?C - (?H - ?G / ?A * ?B) / (?E - ?D / ?A * ?B) * (?F - ?D / ?A * ?C) <> 0 =>
        destruct (getrs_exact A B C D E F G H I Ea Ep Eu) as [HD Hsol];
        assert (HD0 : A * (E * I - F * H) - B * (D * I - F * G) + C * (D * H - E * G) <> 0)
          by (rewrite HD; repeat apply Rmult_integral_contrapositive_currified; assumption)
      end;
      cbv [transpose swap0 swap1 identity of_columns row0 row1 row2 v0 v1 v2]; rarith;
      rewrite !Hsol; clear Hsol HD;
      (replace (Reqb _ 0) with false
         by (symmetry; apply Reqb_false; intros E0; apply HD0; lra));
      f_equal; f_equal; f_equal; field; repeat split; intros E0; apply HD0; lra ]) ]).

(** In exact arithmetic the factorisation and the substitutions give the
    inverse, and a pivot is zero exactly for a singular array. *)
Lemma inv_exact (m : mat R) : inv m = inverse_by_cofactors m.
Proof.
  destruct m as [[a b c] [d e f] [g h i]].
  unfold inv, getrf, inverse_by_cofactors, det. cbn [row0 row1 row2 v0 v1 v2].
  destruct (idamax_3 a d g) as [[-> Hz] | [[-> Hz] | [-> Hz]]];
    cbn [swap0 row0 row1 row2 v0 v1 v2]; rewrite ?below_pivot_R; rarith.
  - destruct (Reqb a 0) eqn:Ea.
    + apply Reqb_true in Ea. destruct (Hz Ea) as [-> ->]. subst a. cbn [bind].
      replace (Reqb _ 0) with true; [reflexivity |].
      symmetry. apply Reqb_true. ring.
    + apply Reqb_false in Ea. pivots_2_3 Ea.
  - destruct (Reqb d 0) eqn:Ea.
    + apply Reqb_true in Ea. destruct (Hz Ea) as [-> ->]. subst d. cbn [bind].
      replace (Reqb _ 0) with true; [reflexivity |].
      symmetry. apply Reqb_true. ring.
    + apply Reqb_false in Ea. pivots_2_3 Ea.
  - destruct (Reqb g 0) eqn:Ea.
    + apply Reqb_true in Ea. destruct (Hz Ea) as [-> ->]. subst g. cbn [bind].
      replace (Reqb _ 0) with true; [reflexivity |].
      symmetry. apply Reqb_true. ring.
    + apply Reqb_false in Ea. pivots_2_3 Ea.
Qed.

(** Two orthogonal unit vectors and their cross product are the columns of
    a matrix whose inverse is its transpose. *)
Lemma inv_frame (t s : vec R) :
  dot t t = 1 -> dot s s = 1 -> dot t s = 0 ->
  inv (of_columns t s (cross t s)) = Ok (transpose (of_columns t s (cross t s))).
Proof.
  destruct t as [t0 t1 t2], s as [s0 s1 s2]. unfold dot. rarith. cbn [v0 v1 v2].
  intros Ht Hs Hts.
  assert (Hdet : det (of_columns (Vec t0 t1 t2) (Vec s0 s1 s2)
                        (cross (Vec t0 t1 t2) (Vec s0 s1 s2))) = 1).
  { unfold det, of_columns, cross. cbn. nsatz. }
  rewrite inv_exact. unfold inverse_by_cofactors. rewrite Hdet. rarith.
  replace (Reqb 1 0) with false by (symmetry; apply Reqb_false; lra).
  unfold transpose, of_columns, cross. cbn [v0 v1 v2 row0 row1 row2]. rarith.
  do 2 f_equal; f_equal; unfold Rdiv; rewrite Rinv_1, Rmult_1_r; nsatz.
Qed.

(** The cross product of two orthogonal unit vectors is a unit vector. *)
Lemma cross_unit (t s : vec R) :
  dot t t = 1 -> dot s s = 1 -> dot t s = 0 -> dot (cross t s) (cross t s) = 1.
Proof.
  destruct t as [t0 t1 t2], s as [s0 s1 s2]. unfold dot, cross. rarith. cbn [v0 v1 v2].
  intros Ht Hs Hts. nsatz.
Qed.

(** The transposed frame keeps the length of every vector. *)
Lemma frame_isometry (t s a : vec R) :
  dot t t = 1 -> dot s s = 1 -> dot t s = 0 ->
  dot (mat_vec (transpose (of_columns t s (cross t s))) a)
      (mat_vec (transpose (of_columns t s (cross t s))) a) = dot a a.
Proof.
  destruct t as [t0 t1 t2], s as [s0 s1 s2], a as [a0 a1 a2].
  cbv [dot cross mat_vec transpose of_columns v0 v1 v2 row0 row1 row2].
  rarith. intros Ht Hs Hts. nsatz.
Qed.

Lemma dot_cross_l (t e : vec R) : dot t (cross t e) = 0.
Proof.
  destruct t as [t0 t1 t2], e as [e0 e1 e2].
  cbv [dot cross v0 v1 v2]. rarith. ring.
Qed.

Lemma dot_vdiv_r (t a : vec R) (n : R) : n <> 0 -> dot t (vdiv a n) = dot t a / n.
Proof.
  intros Hn. destruct t as [t0 t1 t2], a as [a0 a1 a2].
  cbv [dot vdiv vmap v0 v1 v2]. rarith. field. exact Hn.
Qed.

(** The reference axis of lines 56 to 59 is never parallel to the
    normalised target direction. *)
Lemma second_basis_nonzero (t : vec R) :
  dot t t = 1 ->
  (if negb (Reqb (v1 t) 0 && Reqb (v2 t) 0)
   then cross t (Vec 1 0 0) else cross t (Vec 0 1 0)) <> zero_vec.
Proof.
  destruct t as [t0 t1 t2]. cbv [dot v0 v1 v2]. rarith. intros Ht.
  destruct (Reqb t1 0) eqn:E1; [destruct (Reqb t2 0) eqn:E2 |]; cbn [negb andb].
  - apply Reqb_true in E1, E2. subst t1 t2.
    cbv [cross zero_vec v0 v1 v2]. rarith. intros Heq. injection Heq as _ _ H3. nra.
  - apply Reqb_false in E2.
    cbv [cross zero_vec v0 v1 v2]. rarith. intros Heq. injection Heq as _ H2 _. lra.
  - apply Reqb_false in E1.
    cbv [cross zero_vec v0 v1 v2]. rarith. intros Heq. injection Heq as _ _ H3. lra.
Qed.

(** For a target direction that is not zero, the array of lines 53 to 65
    has as columns the unit target direction [t], a unit vector [s]
    orthogonal to it, and their cross product. *)
Lemma new_bases_frame (target_dir : vec R) :
  target_dir <> zero_vec ->
  exists s : vec R,
    let t := vdiv target_dir (norm target_dir) in
    dot t t = 1 /\ dot s s = 1 /\ dot t s = 0 /\
    new_bases target_dir = of_columns t s (cross t s).
Proof.
  intros Hne. pose proof (dot_normalized _ Hne) as Ht.
  unfold new_bases. rarith.
  set (t := vdiv target_dir (norm target_dir)) in *.
  pose proof (second_basis_nonzero t Ht) as Hs0.
  set (s0 := if negb (Reqb (v1 t) 0 && Reqb (v2 t) 0)
             then cross t (Vec 1 0 0) else cross t (Vec 0 1 0)) in *.
  assert (Hts0 : dot t s0 = 0).
  { subst s0. destruct (negb _); apply dot_cross_l. }
  exists (vdiv s0 (norm s0)). cbv zeta.
  pose proof (dot_normalized _ Hs0) as Hs. pose proof (norm_pos _ Hs0) as Hn.
  assert (Hts : dot t (vdiv s0 (norm s0)) = 0).
  { rewrite dot_vdiv_r by lra. rewrite Hts0. unfold Rdiv. ring. }
  repeat split; try assumption.
  rewrite (norm_of_unit _ (cross_unit _ _ Ht Hs Hts)), vdiv_1. reflexivity.
Qed.

(** The three normalisations of [transform_orientations] divide by a norm
    that is not zero, when the target direction is not zero. *)
Lemma normalisations_defined (target_dir : vec R) :
  target_dir <> zero_vec ->
  let t := vdiv target_dir (norm target_dir) in
  let s0 := if negb (Reqb (v1 t) 0 && Reqb (v2 t) 0)
            then cross t (Vec 1 0 0) else cross t (Vec 0 1 0) in
  0 < norm target_dir /\ 0 < norm s0 /\ norm (cross t (vdiv s0 (norm s0))) = 1.
Proof.
  intros Hne t s0. pose proof (dot_normalized _ Hne) as Ht. fold t in Ht.
  pose proof (second_basis_nonzero t Ht) as Hs0. fold s0 in Hs0.
  split; [exact (norm_pos _ Hne) | split; [exact (norm_pos _ Hs0) |]].
  apply norm_of_unit, cross_unit.
  - exact Ht.
  - exact (dot_normalized _ Hs0).
  - rewrite dot_vdiv_r by (pose proof (norm_pos _ Hs0); lra).
    replace (dot t s0) with 0; [unfold Rdiv; ring |].
    subst s0. destruct (negb _); symmetry; apply dot_cross_l.
Qed.

Lemma inv_new_bases (target_dir : vec R) :
  target_dir <> zero_vec ->
  inv (new_bases target_dir) = Ok (transpose (new_bases target_dir)).
Proof.
  intros Hne. destruct (new_bases_frame _ Hne) as (s & Ht & Hs & Hts & Hnb).
  cbv zeta in *. rewrite Hnb. apply inv_frame; assumption.
Qed.

Lemma transform_orientations_frame (thrusters : list (Thruster3D R)) (target_dir : vec R) :
  target_dir <> zero_vec ->
  transform_orientations thrusters target_dir
  = Ok (map (fun th => mat_vec (transpose (new_bases target_dir)) (orientation th))
            thrusters).
Proof.
  intros Hne. unfold transform_orientations. rewrite (inv_new_bases _ Hne). cbn [bind].
  rewrite map_map. reflexivity.
Qed.

(** C5.  For every target direction that is not zero, the change of basis
    array built by [transform_orientations] has its transpose as inverse,
    [transform_orientations] applies that transpose to every orientation,
    and applying it keeps the length of every vector. *)
Theorem new_bases_orthonormal (target_dir : vec R) :
  target_dir <> zero_vec ->
  inv (new_bases target_dir) = Ok (transpose (new_bases target_dir)) /\
  (forall thrusters : list (Thruster3D R),
      transform_orientations thrusters target_dir
      = Ok (map (fun th => mat_vec (transpose (new_bases target_dir)) (orientation th))
                thrusters)) /\
  (forall a : vec R, norm (mat_vec (transpose (new_bases target_dir)) a) = norm a).
Proof.
  intros Hne. split; [exact (inv_new_bases _ Hne) | split].
  - intros thrusters. exact (transform_orientations_frame thrusters _ Hne).
  - intros a. destruct (new_bases_frame _ Hne) as (s & Ht & Hs & Hts & Hnb).
    cbv zeta in *. unfold norm. rewrite Hnb, frame_isometry by assumption. reflexivity.
Qed.

(** The theorem at the direction (3, 4, 0). *)
Lemma new_bases_orthonormal_witness :
  inv (new_bases (Vec 3 4 0)) = Ok (transpose (new_bases (Vec 3 4 0))) /\
  (forall thrusters : list (Thruster3D R),
      transform_orientations thrusters (Vec 3 4 0)
      = Ok (map (fun th => mat_vec (transpose (new_bases (Vec 3 4 0))) (orientation th))
                thrusters)) /\
  (forall a : vec R, norm (mat_vec (transpose (new_bases (Vec 3 4 0))) a) = norm a).
Proof.
  apply (new_bases_orthonormal (Vec 3 4 0)).
  unfold zero_vec. intros Heq. apply (f_equal (@v0 R)) in Heq. cbn in Heq. lra.
Defined.

(** ** The zero direction, in binary64 *)

Lemma float_mul_nan (x : float) : PrimFloat.mul PrimFloat.nan x = PrimFloat.nan.
Proof.
  rewrite <- (FloatAxioms.SF2Prim_Prim2SF (PrimFloat.mul PrimFloat.nan x)).
  rewrite FloatAxioms.mul_spec. reflexivity.
Qed.

Lemma float_add_nan (x : float) : PrimFloat.add PrimFloat.nan x = PrimFloat.nan.
Proof.
  rewrite <- (FloatAxioms.SF2Prim_Prim2SF (PrimFloat.add PrimFloat.nan x)).
  rewrite FloatAxioms.add_spec. reflexivity.
Qed.

(** 0/0 is NaN, NaN is not equal to 0, and every later operation keeps it:
    the change of basis array and its inverse are NaN throughout, and no
    [LinAlgError] is raised. *)
Lemma inv_new_bases_zero :
  inv (new_bases float_zero_vec)
  = Ok (Mat float_nan_vec float_nan_vec float_nan_vec).
Proof. vm_compute. reflexivity. Qed.

Lemma mat_vec_nan (a : vec float) :
  mat_vec (Mat float_nan_vec float_nan_vec float_nan_vec) a = float_nan_vec.
Proof.
  cbv [mat_vec dot float_nan_vec row0 row1 row2 v0 v1 v2 nadd nmul FArith].
  rewrite !float_mul_nan, !float_add_nan. reflexivity.
Qed.

(** C2, as the code has it.  For the target direction (0, 0, 0),
    [transform_orientations] raises nothing: it returns one row per
    thruster, and every entry of every row is NaN. *)
Theorem transform_orientations_zero_direction (thrusters : list (Thruster3D float)) :
  transform_orientations thrusters float_zero_vec
  = Ok (map (fun _ => float_nan_vec) thrusters).
Proof.
  unfold transform_orientations. rewrite inv_new_bases_zero. cbn [bind].
  rewrite map_map. f_equal. apply map_ext. intros th. apply mat_vec_nan.
Qed.

(** C2, as stated, fails: at the zero direction the call returns an array
    of NaN and raises no [DegenerateInputError]. *)
Lemma zero_direction_not_rejected :
  transform_orientations [surge_thruster_float] float_zero_vec = Ok [float_nan_vec] /\
  transform_orientations [surge_thruster_float] float_zero_vec
  <> Raise DegenerateInputError.
Proof.
  split.
  - vm_compute. reflexivity.
  - vm_compute. discriminate.
Qed.

(** ** The derating step *)

Lemma Rabs_sqr_eq (t : R) : Rabs t * Rabs t = t * t.
Proof. unfold Rabs. destruct (Rcase_abs t); ring. Qed.

(** For every allocation, the three coefficients the derating step
    accumulates, taken as a quadratic in the scale and evaluated at scale 1
    (before the budget is subtracted), add up to the sum over the
    allocation of [default_current]: the module's forward coefficients
    where the thrust is not negative and its reverse ones elsewhere. *)
Lemma current_quadratic_at_one (min_current_true_array : list R) :
  let '(q0, q1, q2) := current_quadratic min_current_true_array in
  q0 * (1 * 1) + q1 * 1 + q2 = total (map default_current min_current_true_array).
Proof.
  unfold current_quadratic. rarith.
  assert (Hgen : forall (a : list R) (q0 q1 q2 : R),
             let '(r0, r1, r2) := fold_left add_current a (q0, q1, q2) in
             r0 + r1 + r2 = q0 + q1 + q2 + total (map default_current a)).
  { induction a as [| t a IH]; intros q0 q1 q2; cbn [fold_left map total fold_right].
    - lra.
    - unfold add_current at 2. rarith.
      assert (Hstep : forall b : bool, b = Rleb 0 t ->
                let '(r0, r1, r2) := fold_left add_current a
                  (if b then
                     (q0 + nth 0 DEFAULT_FWD_CURRENT 0 * (t * t),
                      q1 + nth 1 DEFAULT_FWD_CURRENT 0 * t,
                      q2 + nth 2 DEFAULT_FWD_CURRENT 0)
                   else
                     (q0 + nth 0 DEFAULT_REV_CURRENT 0 * (- t * - t),
                      q1 + nth 1 DEFAULT_REV_CURRENT 0 * - t,
                      q2 + nth 2 DEFAULT_REV_CURRENT 0)) in
                r0 + r1 + r2
                = q0 + q1 + q2 + (default_current t + total (map default_current a))).
      { intros b Hb. unfold default_current at 1, current_draw.
        destruct b; symmetry in Hb.
        - apply Rleb_true in Hb. destruct (Rle_dec 0 t) as [_ | Hn]; [| contradiction].
          specialize (IH (q0 + nth 0 DEFAULT_FWD_CURRENT 0 * (t * t))
                         (q1 + nth 1 DEFAULT_FWD_CURRENT 0 * t)
                         (q2 + nth 2 DEFAULT_FWD_CURRENT 0)).
          destruct (fold_left add_current a _) as [[r0 r1] r2].
          rewrite IH, Rabs_sqr_eq, (Rabs_right t) by lra. ring.
        - apply Rleb_false in Hb. destruct (Rle_dec 0 t) as [Hn | _]; [lra |].
          specialize (IH (q0 + nth 0 DEFAULT_REV_CURRENT 0 * (- t * - t))
                         (q1 + nth 1 DEFAULT_REV_CURRENT 0 * - t)
                         (q2 + nth 2 DEFAULT_REV_CURRENT 0)).
          destruct (fold_left add_current a _) as [[r0 r1] r2].
          rewrite IH, Rabs_sqr_eq, (Rabs_left t) by lra. ring. }
      exact (Hstep _ eq_refl). }
  specialize (Hgen min_current_true_array 0 0 0).
  destruct (fold_left add_current min_current_true_array (0, 0, 0)) as [[q0 q1] q2].
  lra.
Qed.

Lemma Reqb_neq (x y : R) : x <> y -> Reqb x y = false.
Proof. apply Reqb_false. Qed.

Lemma Reqb_refl (x : R) : Reqb x x = true.
Proof. apply Reqb_true. reflexivity. Qed.

Lemma Rltb_lt (x y : R) : x < y -> Rltb x y = true.
Proof. apply Rltb_true. Qed.

Lemma Rltb_ge (x y : R) : y <= x -> Rltb x y = false.
Proof. apply Rltb_false. Qed.

Lemma clamp_Rmin (m : R) : (if Rltb m 1 then m else 1) = Rmin 1 m.
Proof.
  unfold Rmin. destruct (Rle_dec 1 m) as [Hle | Hgt].
  - rewrite Rltb_ge by lra. reflexivity.
  - rewrite Rltb_lt by lra. reflexivity.
Qed.

(** The discriminant of the companion matrix is the discriminant of the
    polynomial over the square of its leading coefficient. *)
Lemma companion_discriminant (a b c : R) :
  0 < a ->
  - b / a * (- b / a) + 4 * (- c / a) = discriminant a b c / (a * a).
Proof. intros Ha. unfold discriminant. field. lra. Qed.


Lemma sqrt_over_square (a d : R) :
  0 < a -> 0 <= d -> sqrt (d / (a * a)) = sqrt d / a.
Proof.
  intros Ha Hd. apply sqrt_lem_1.
  - apply Rmult_le_pos; [exact Hd | left; apply Rinv_0_lt_compat; nra].
  - apply Rmult_le_pos; [apply sqrt_pos | left; apply Rinv_0_lt_compat; lra].
  - pose proof (sqrt_sqrt _ Hd) as Hs.
    replace (sqrt d / a * (sqrt d / a)) with (sqrt d * sqrt d / (a * a)) by (field; lra).
    rewrite Hs. reflexivity.
Qed.

(** With real roots and a positive leading coefficient, [np.roots], [max]
    and [min] give the larger root, clamped above by 1 and not below. *)
Lemma multiplier_real (a b c : R) :
  0 < a -> 0 <= b -> 0 <= discriminant a b c ->
  (r <- np_roots [a; b; c] ;; clamp_multiplier r)
  = Ok (PyFloat (Rmin 1 (larger_root a b c))).
Proof.
  intros Ha Hb Hd.
  unfold np_roots, strip_zeros. cbn [strip_leading rev app]. rarith.
  rewrite (Reqb_neq a 0) by lra. cbn [rev app strip_leading]. rarith.
  destruct (Req_dec_T c 0) as [Hc | Hc].
  - subst c. rewrite Reqb_refl.
    assert (Hroot : larger_root a b 0 = 0).
    { unfold larger_root, discriminant.
      replace (b * b - 4 * a * 0) with (b * b) by ring.
      rewrite sqrt_square by exact Hb. field. lra. }
    rewrite Hroot. rewrite Rmin_right by lra.
    destruct (Req_dec_T b 0) as [Hb0 | Hb0].
    + subst b. rewrite Reqb_refl, (Reqb_neq a 0) by lra.
      cbn -[Rltb]. rarith. rewrite (Rltb_ge 0 0), (Rltb_lt 0 1) by lra. reflexivity.
    + rewrite (Reqb_neq b 0) by exact Hb0. cbn -[Rltb isfinite]. rarith.
      rewrite isfinite_R. cbn -[Rltb]. rarith.
      assert (Hneg : - b / a < 0).
      { apply Rmult_neg_pos; [lra | apply Rinv_0_lt_compat; lra]. }
      rewrite (Rltb_lt (- b / a) 0), (Rltb_lt 0 1) by lra. reflexivity.
  - rewrite (Reqb_neq c 0) by exact Hc. cbn -[Rltb isfinite]. rarith.
    rewrite !isfinite_R. cbn [andb bind].
    rewrite companion_discriminant by exact Ha.
    assert (Hq : 0 <= discriminant a b c / (a * a)).
    { apply Rmult_le_pos; [exact Hd | left; apply Rinv_0_lt_compat; nra]. }
    rewrite (Rltb_ge _ 0) by exact Hq.
    rewrite sqrt_over_square by assumption.
    cbn -[Rltb]. rarith.
    pose proof (sqrt_pos (discriminant a b c)) as Hs.
    assert (Hinv : 0 < / a) by (apply Rinv_0_lt_compat; exact Ha).
    rewrite (Rltb_ge ((- b / a + sqrt (discriminant a b c) / a) / 2)
                     ((- b / a - sqrt (discriminant a b c) / a) / 2)).
    2:{ unfold Rdiv. nra. }
    rewrite clamp_Rmin. do 3 f_equal. unfold larger_root. field. lra.
Qed.


(** Without real roots, the two roots are complex conjugates; numpy's
    lexicographic order makes [max] the one with the positive imaginary
    part, it is below 1 in that order, and [min] returns it. *)
Lemma multiplier_complex (a b c : R) :
  0 < a -> 0 <= b -> discriminant a b c < 0 ->
  (r <- np_roots [a; b; c] ;; clamp_multiplier r)
  = Ok (PyComplex (- b / (2 * a)) (sqrt (- discriminant a b c) / (2 * a))).
Proof.
  intros Ha Hb Hd.
  assert (Hc : c <> 0). { unfold discriminant in Hd. intros ->. nra. }
  unfold np_roots, strip_zeros. cbn [strip_leading rev app]. rarith.
  rewrite (Reqb_neq a 0) by lra. cbn [rev app strip_leading]. rarith.
  rewrite (Reqb_neq c 0) by exact Hc. cbn -[Rltb isfinite]. rarith.
  rewrite !isfinite_R. cbn [andb bind].
  rewrite companion_discriminant by exact Ha.
  assert (Hinv : 0 < / (a * a)) by (apply Rinv_0_lt_compat; nra).
  assert (Hq : discriminant a b c / (a * a) < 0) by (unfold Rdiv; nra).
  rewrite (Rltb_lt _ 0) by exact Hq.
  replace (- (discriminant a b c / (a * a))) with (- discriminant a b c / (a * a))
    by (field; lra).
  rewrite sqrt_over_square by lra.
  pose proof (sqrt_pos (- discriminant a b c)) as Hs.
  assert (Hia : 0 < / a) by (apply Rinv_0_lt_compat; exact Ha).
  assert (Him : 0 <= sqrt (- discriminant a b c) / a / 2) by (unfold Rdiv; nra).
  assert (Hre : - b / a / 2 <= 0) by (unfold Rdiv; nra).
  cbv [hstack_zeros repeat app clamp_multiplier py_max bind fold_left clt fst snd].
  rarith.
  rewrite (Rltb_ge (- b / a / 2) (- b / a / 2)) by lra.
  rewrite (Rltb_ge (sqrt (- discriminant a b c) / a / 2)
                   (- (sqrt (- discriminant a b c) / a / 2))) by lra.
  rewrite andb_false_r. cbn [orb].
  rewrite (Rltb_lt (- b / a / 2) 1) by lra. cbn [orb].
  f_equal. f_equal; field; lra.
Qed.

(** With no thrust allocated, the first two coefficients are zero,
    [np.roots] returns an empty array and [max] raises. *)
Lemma multiplier_none (c : R) :
  (r <- np_roots [0; 0; c] ;; clamp_multiplier r) = Raise ValueError.
Proof.
  unfold np_roots, strip_zeros. cbn [strip_leading]. rarith.
  rewrite Reqb_refl.
  destruct (Req_dec_T c 0) as [Hc | Hc].
  - subst c. rewrite Reqb_refl. reflexivity.
  - rewrite (Reqb_neq c 0) by exact Hc. cbn [rev app strip_leading]. rarith.
    rewrite (Reqb_neq c 0) by exact Hc. reflexivity.
Qed.

(** The accumulated coefficients: the first two only grow, the third only
    falls, and the first stays where it was only if no thrust was added. *)
Lemma fold_add_current (a : list R) (p0 p1 p2 : R) :
  let '(r0, r1, r2) := fold_left add_current a (p0, p1, p2) in
  p0 <= r0 /\ p1 <= r1 /\ r2 <= p2 /\
  (r0 = p0 -> r1 = p1) /\ (p0 < r0 -> r2 < p2).
Proof.
  revert p0 p1 p2. induction a as [| t a IH]; intros p0 p1 p2; cbn [fold_left].
  - lra.
  - unfold add_current at 2. rarith. cbn [DEFAULT_FWD_CURRENT DEFAULT_REV_CURRENT nth].
    unfold dec. rarith.
    destruct (Rleb 0 t) eqn:Ht.
    + apply Rleb_true in Ht.
      specialize (IH (p0 + 741 / 1000 * (t * t)) (p1 + 189 / 100 * t) (p2 + -278 / 1000)).
      destruct (fold_left add_current a _) as [[r0 r1] r2].
      destruct IH as (H0 & H1 & H2 & H3 & H4).
      repeat split; nra.
    + apply Rleb_false in Ht.
      specialize (IH (p0 + 136 / 100 * (- t * - t)) (p1 + 204 / 100 * - t)
                     (p2 + -231 / 1000)).
      destruct (fold_left add_current a _) as [[r0 r1] r2].
      destruct IH as (H0 & H1 & H2 & H3 & H4).
      repeat split; nra.
Qed.

Lemma current_quadratic_signs (a : list R) :
  let '(q0, q1, q2) := current_quadratic a in
  0 <= q0 /\ 0 <= q1 /\ q2 <= 0 /\ (q0 = 0 -> q1 = 0) /\ (0 < q0 -> q2 < 0).
Proof. unfold current_quadratic. rarith. apply fold_add_current. Qed.

(** The derating step, case by case. *)
Lemma derate_cases (x : list R) (os : list (vec R)) (max_current : Z) :
  let '(q0, q1, q2) := current_quadratic (combine_halves x) in
  (q0 = 0 -> derate x os max_current = Raise ValueError) /\
  (0 < q0 ->
   derate x os max_current
   = (tv <- thrust_sum 0 (combine_halves x) os 0 ;;
      Ok (derated tv q0 q1 (q2 - IZR max_current)))).
Proof.
  pose proof (current_quadratic_signs (combine_halves x)) as Hs.
  unfold derate. rarith.
  destruct (current_quadratic (combine_halves x)) as [[q0 q1] q2].
  cbn [bind]. cbv zeta.
  destruct Hs as (H0 & H1 & H2 & H3 & H4). split.
  - intros Hz. subst q0. rewrite (H3 eq_refl).
    pose proof (multiplier_none (q2 - IZR max_current)) as Hm.
    destruct (np_roots _) as [r | e]; cbn [bind] in *.
    + rewrite Hm. reflexivity.
    + congruence.
  - intros Hpos. unfold derated.
    destruct (Rlt_dec (discriminant q0 q1 (q2 - IZR max_current)) 0) as [Hd | Hd].
    + pose proof (multiplier_complex q0 q1 _ Hpos H1 Hd) as Hm.
      destruct (np_roots _) as [r | e]; cbn [bind] in *; [| discriminate].
      rewrite Hm. cbn [bind]. destruct (thrust_sum _ _ _ _); reflexivity.
    + pose proof (multiplier_real q0 q1 (q2 - IZR max_current) Hpos H1 ltac:(lra)) as Hm.
      destruct (np_roots _) as [r | e]; cbn [bind] in *; [| discriminate].
      rewrite Hm. cbn [bind]. destruct (thrust_sum _ _ _ _); reflexivity.
Qed.

(** ** get_max_thrust *)

(** When both programs are answered, [get_max_thrust] is the derating of
    the second answer. *)
Lemma get_max_thrust_derate
    (linprog : LinProg R -> result (OptimizeResult R))
    (os tcs : list (vec R)) (max_current : Z)
    (cols : list (vec R * vec R)) (r1 r2 : OptimizeResult R) (f : R) (x : list R) :
  with_constraints os tcs = Ok cols ->
  linprog (max_thrust_problem cols) = Ok r1 -> res_fun r1 = Some f ->
  linprog (min_current_problem cols (- (999 / 1000) * f)) = Ok r2 -> res_x r2 = Some x ->
  get_max_thrust linprog os tcs max_current = derate x os max_current.
Proof.
  intros Hc H1 Hf H2 Hx. unfold get_max_thrust.
  rewrite Hc. cbn [bind]. rewrite H1. cbn [bind]. rewrite Hf. cbn [not_none bind].
  unfold dec. rarith. rewrite H2. cbn [bind]. rewrite Hx. reflexivity.
Qed.

(** C1, as the code has it.  Once both programs are answered, the derating
    step raises no [CurrentInfeasibleError]: without real roots
    [get_max_thrust] returns a complex number; with real roots it returns
    the thrust times the larger root clamped above by 1, also when that
    root is negative; its only exception is the [ValueError] of [max] on
    the empty array of roots, when no thrust is allocated. *)
Theorem derating_never_rejects
    (linprog : LinProg R -> result (OptimizeResult R))
    (os tcs : list (vec R)) (max_current : Z)
    (cols : list (vec R * vec R)) (r1 r2 : OptimizeResult R) (f tv : R) (x : list R) :
  with_constraints os tcs = Ok cols ->
  linprog (max_thrust_problem cols) = Ok r1 -> res_fun r1 = Some f ->
  linprog (min_current_problem cols (- (999 / 1000) * f)) = Ok r2 -> res_x r2 = Some x ->
  thrust_sum 0 (combine_halves x) os 0 = Ok tv ->
  let '(q0, q1, q2) := current_quadratic (combine_halves x) in
  let c := q2 - IZR max_current in
  (0 < q0 -> discriminant q0 q1 c < 0 ->
   get_max_thrust linprog os tcs max_current
   = Ok (PyComplex (tv * (- q1 / (2 * q0)))
                   (tv * (sqrt (- discriminant q0 q1 c) / (2 * q0))))) /\
  (0 < q0 -> 0 <= discriminant q0 q1 c -> larger_root q0 q1 c < 0 ->
   get_max_thrust linprog os tcs max_current = Ok (PyFloat (tv * larger_root q0 q1 c))) /\
  (0 < q0 -> 0 <= discriminant q0 q1 c ->
   get_max_thrust linprog os tcs max_current
   = Ok (PyFloat (tv * Rmin 1 (larger_root q0 q1 c)))) /\
  (q0 = 0 -> get_max_thrust linprog os tcs max_current = Raise ValueError) /\
  get_max_thrust linprog os tcs max_current <> Raise CurrentInfeasibleError.
Proof.
  intros Hc H1 Hf H2 Hx Htv.
  rewrite (get_max_thrust_derate linprog os tcs max_current cols r1 r2 f x Hc H1 Hf H2 Hx).
  pose proof (derate_cases x os max_current) as Hd.
  pose proof (current_quadratic_signs (combine_halves x)) as Hs.
  destruct (current_quadratic (combine_halves x)) as [[q0 q1] q2].
  destruct Hd as [Hzero Hpos]. destruct Hs as (Hq0 & _).
  rewrite Htv in Hpos. cbn [bind] in Hpos. unfold derated in Hpos. cbv zeta.
  repeat split.
  - intros Ha Hdisc. rewrite (Hpos Ha).
    destruct (Rlt_dec _ 0); [reflexivity | lra].
  - intros Ha Hdisc Hneg. rewrite (Hpos Ha).
    destruct (Rlt_dec _ 0); [lra |]. rewrite Rmin_right by lra. reflexivity.
  - intros Ha Hdisc. rewrite (Hpos Ha).
    destruct (Rlt_dec _ 0); [lra | reflexivity].
  - exact Hzero.
  - destruct Hq0 as [Ha | Hz].
    + rewrite (Hpos Ha). destruct (Rlt_dec _ 0); discriminate.
    + rewrite (Hzero (eq_sym Hz)). discriminate.
Qed.

(** *** The run with one surge thruster *)

Lemma surge_linprog_1 : surge_linprog surge_problem_1 = Ok surge_answer_1.
Proof.
  unfold surge_linprog.
  destruct (LinProg_eq_dec surge_problem_1 surge_problem_1); [reflexivity | contradiction].
Qed.

Lemma surge_problems_differ : surge_problem_2 <> surge_problem_1.
Proof. intros Heq. apply (f_equal (fun lp => length (c lp))) in Heq. discriminate. Qed.

Lemma surge_linprog_2 : surge_linprog surge_problem_2 = Ok surge_answer_2.
Proof.
  unfold surge_linprog.
  destruct (LinProg_eq_dec surge_problem_2 surge_problem_1) as [Heq | _].
  - exfalso. exact (surge_problems_differ Heq).
  - destruct (LinProg_eq_dec surge_problem_2 surge_problem_2); [reflexivity | contradiction].
Qed.

Lemma surge_max_thrust_value : surge_max_thrust = surge_thrust.
Proof. unfold surge_max_thrust, surge_thrust, dec. rarith. lra. Qed.

Lemma surge_thrust_pos : 0 < surge_thrust.
Proof. unfold surge_thrust. lra. Qed.

Lemma surge_current_quadratic :
  current_quadratic (combine_halves [surge_max_thrust; 0]) = (surge_a, surge_b, surge_c).
Proof.
  cbn [combine_halves]. rarith. rewrite surge_max_thrust_value.
  unfold current_quadratic. cbn [fold_left]. unfold add_current. rarith.
  pose proof surge_thrust_pos as Hp.
  replace (Rleb 0 (surge_thrust - 0)) with true by (symmetry; apply Rleb_true; lra).
  cbn [DEFAULT_FWD_CURRENT nth]. unfold dec, surge_a, surge_b, surge_c. rarith.
  f_equal; [f_equal |]; lra.
Qed.

Lemma surge_thrust_sum :
  thrust_sum 0 (combine_halves [surge_max_thrust; 0]) [Vec 1 0 0] 0 = Ok surge_thrust.
Proof.
  cbn. rarith. rewrite surge_max_thrust_value. f_equal. lra.
Qed.

Lemma surge_a_pos : 0 < surge_a.
Proof. unfold surge_a, surge_thrust. lra. Qed.

(** What [get_max_thrust] returns for that thruster, along x, for any
    budget. *)
Lemma get_max_thrust_surge (max_current : Z) :
  get_max_thrust surge_linprog [Vec 1 0 0] [Vec 0 0 0] max_current
  = Ok (derated surge_thrust surge_a surge_b (surge_c - IZR max_current)).
Proof.
  rewrite (get_max_thrust_derate surge_linprog [Vec 1 0 0] [Vec 0 0 0] max_current
             surge_cols surge_answer_1 surge_answer_2 (- (371 / 100))
             [surge_max_thrust; 0] eq_refl surge_linprog_1 eq_refl surge_linprog_2 eq_refl).
  pose proof (derate_cases [surge_max_thrust; 0] [Vec 1 0 0] max_current) as Hd.
  rewrite surge_current_quadratic, surge_thrust_sum in Hd.
  destruct Hd as [_ Hpos]. exact (Hpos surge_a_pos).
Qed.

(** The theorem at that run, with the budget -1. *)
Lemma derating_never_rejects_witness :
  get_max_thrust surge_linprog [Vec 1 0 0] [Vec 0 0 0] (-1) <> Raise CurrentInfeasibleError.
Proof.
  pose proof (derating_never_rejects surge_linprog [Vec 1 0 0] [Vec 0 0 0] (-1)
                surge_cols surge_answer_1 surge_answer_2 (- (371 / 100)) surge_thrust
                [surge_max_thrust; 0] eq_refl surge_linprog_1 eq_refl surge_linprog_2
                eq_refl surge_thrust_sum) as Hw.
  destruct (current_quadratic (combine_halves [surge_max_thrust; 0])) as [[q0 q1] q2].
  apply Hw.
Defined.

Lemma surge_discriminant_budget_m1 : 0 <= discriminant surge_a surge_b (surge_c - IZR (-1)).
Proof. unfold discriminant, surge_a, surge_b, surge_c, surge_thrust. lra. Qed.

Lemma surge_root_budget_m1 : larger_root surge_a surge_b (surge_c - IZR (-1)) < 0.
Proof.
  pose proof surge_discriminant_budget_m1 as Hd. pose proof surge_a_pos as Ha.
  assert (Hb : 0 < surge_b) by (unfold surge_b, surge_thrust; lra).
  assert (Hlt : discriminant surge_a surge_b (surge_c - IZR (-1)) < surge_b * surge_b).
  { unfold discriminant, surge_a, surge_b, surge_c, surge_thrust. lra. }
  assert (Hs : sqrt (discriminant surge_a surge_b (surge_c - IZR (-1))) < surge_b).
  { rewrite <- (sqrt_square surge_b) at 2 by lra. apply sqrt_lt_1; lra. }
  unfold larger_root.
  apply Rmult_neg_pos; [lra | apply Rinv_0_lt_compat; lra].
Qed.

(** C1, as stated, fails.  With one surge thruster, the programs solved
    exactly and the budget -1, the quadratic has real roots, both negative;
    [get_max_thrust] raises nothing and returns the allocated thrust scaled
    by the negative root. *)
Lemma negative_root_applied :
  0 <= discriminant surge_a surge_b (surge_c - IZR (-1)) /\
  larger_root surge_a surge_b (surge_c - IZR (-1)) < 0 /\
  get_max_thrust surge_linprog [Vec 1 0 0] [Vec 0 0 0] (-1)
  = Ok (PyFloat (surge_thrust * larger_root surge_a surge_b (surge_c - IZR (-1)))) /\
  surge_thrust * larger_root surge_a surge_b (surge_c - IZR (-1)) < 0 /\
  get_max_thrust surge_linprog [Vec 1 0 0] [Vec 0 0 0] (-1) <> Raise CurrentInfeasibleError.
Proof.
  pose proof surge_discriminant_budget_m1 as Hd.
  pose proof surge_root_budget_m1 as Hr. pose proof surge_thrust_pos as Ht.
  assert (Hrun : get_max_thrust surge_linprog [Vec 1 0 0] [Vec 0 0 0] (-1)
                 = Ok (PyFloat (surge_thrust
                                * larger_root surge_a surge_b (surge_c - IZR (-1))))).
  { rewrite get_max_thrust_surge. unfold derated.
    destruct (Rlt_dec _ 0); [lra |]. rewrite Rmin_right by lra. reflexivity. }
  repeat split; try assumption.
  - nra.
  - rewrite Hrun. discriminate.
Qed.

(** *** Lists and loops *)

Lemma mapM_Forall2 {A B : Type} (f : A -> result B) (l : list A) (ys : list B) :
  mapM f l = Ok ys -> Forall2 (fun a b => f a = Ok b) l ys.
Proof.
  revert ys. induction l as [| a l IH]; intros ys Hm; cbn [mapM] in Hm.
  - injection Hm as <-. constructor.
  - destruct (f a) as [b | e] eqn:Hfa; cbn [bind] in Hm; [| discriminate].
    destruct (mapM f l) as [bs | e] eqn:Hml; cbn [bind] in Hm; [| discriminate].
    injection Hm as <-. constructor; [exact Hfa | apply IH; reflexivity].
Qed.

Lemma mapM_ext {A B : Type} (f g : A -> result B) (l : list A) :
  (forall a : A, f a = g a) -> mapM f l = mapM g l.
Proof.
  intros Hfg. induction l as [| a l IH]; cbn [mapM]; [reflexivity |].
  rewrite Hfg, IH. reflexivity.
Qed.

Lemma mapM_raise {A B : Type} (f : A -> result B) (l : list A) (a : A) (e : exn) :
  In a l -> f a = Raise e -> exists e' : exn, mapM f l = Raise e'.
Proof.
  induction l as [| a' l IH]; intros Hin Hfa; [contradiction |].
  cbn [mapM]. destruct Hin as [-> | Hin].
  - rewrite Hfa. exists e. reflexivity.
  - destruct (f a') as [b | e0]; cbn [bind]; [| exists e0; reflexivity].
    destruct (IH Hin Hfa) as [e' He']. rewrite He'. exists e'. reflexivity.
Qed.

Lemma with_constraints_from (s : nat) (os tcs : list (vec R)) (cols : list (vec R * vec R)) :
  mapM (fun '(i, orientation) => t <- index tcs i ;; Ok (orientation, t))
       (combine (seq s (length os)) os) = Ok cols ->
  map fst cols = os.
Proof.
  revert s cols. induction os as [| o os IH]; intros s cols Hm; cbn in Hm.
  - injection Hm as <-. reflexivity.
  - destruct (index tcs s) as [t | e]; cbn [bind] in Hm; [| discriminate].
    destruct (mapM _ _) as [cs | e] eqn:Hcs; cbn [bind] in Hm; [| discriminate].
    injection Hm as <-. cbn [map fst]. f_equal. exact (IH (S s) cs Hcs).
Qed.

Lemma with_constraints_fst (os tcs : list (vec R)) (cols : list (vec R * vec R)) :
  with_constraints os tcs = Ok cols -> map fst cols = os.
Proof. apply with_constraints_from. Qed.

Lemma dotl_nil_r (a : list R) : dotl a [] = 0.
Proof. unfold dotl. destruct a; reflexivity. Qed.

Lemma dotl_cons (a b : R) (l m : list R) : dotl (a :: l) (b :: m) = a * b + dotl l m.
Proof. reflexivity. Qed.

Lemma dotl_zeros (a : list R) (n : nat) : dotl a (repeat 0 n) = 0.
Proof.
  revert n. induction a as [| x a IH]; intros [| n]; cbn [repeat]; try reflexivity.
  rewrite dotl_cons, IH. ring.
Qed.

(** The loop of lines 210 to 212 is a dot product. *)
Lemma thrust_sum_dot (a : list R) (pre os : list (vec R)) (acc : R) :
  (length a <= length os)%nat ->
  thrust_sum (length pre) a (pre ++ os) acc = Ok (acc + dotl a (map (@v0 R) os)).
Proof.
  revert pre os acc. induction a as [| t a IH]; intros pre os acc Hlen; cbn [thrust_sum].
  - unfold dotl. cbn. f_equal. ring.
  - destruct os as [| o os]; cbn [length] in Hlen; [lia |].
    unfold index. rewrite nth_error_app2 by lia. rewrite Nat.sub_diag. cbn [nth_error bind].
    replace (pre ++ o :: os) with ((pre ++ [o]) ++ os) by (rewrite <- app_assoc; reflexivity).
    replace (S (length pre)) with (length (pre ++ [o])) by (rewrite length_app; cbn; lia).
    rewrite IH by lia. rarith. cbn [map]. rewrite dotl_cons. f_equal. ring.
Qed.

(** Recombining the half-thrusters: the thrust along the target direction
    is the first row of the second program applied to its answer. *)
Lemma halves_dot (f : vec R * vec R -> R) (cols : list (vec R * vec R)) (x : list R) :
  length x = (2 * length cols)%nat ->
  dotl (combine_halves x) (map f cols) = dotl (halves f cols) x.
Proof.
  revert x. induction cols as [| col cols IH]; intros x Hlen; cbn [length] in Hlen.
  - destruct x; [reflexivity | discriminate].
  - destruct x as [| x0 [| x1 x]]; cbn [length] in Hlen; try lia.
    cbn [combine_halves map]. unfold halves. cbn [flat_map app]. fold (halves f cols).
    rewrite !dotl_cons, IH by lia. rarith. ring.
Qed.

Lemma combine_halves_length (x : list R) (n : nat) :
  length x = (2 * n)%nat -> length (combine_halves x) = n.
Proof.
  revert x. induction n as [| n IH]; intros x Hlen.
  - destruct x; [reflexivity | discriminate].
  - destruct x as [| x0 [| x1 x]]; cbn [length] in Hlen; try lia.
    cbn [combine_halves length]. f_equal. apply IH. lia.
Qed.

(** *** The two programs, solved exactly *)

Lemma within_default_zero : within DEFAULT_MAX_THRUSTS 0.
Proof. cbn. unfold dec. rarith. lra. Qed.

(** Allocating no thrust is feasible for the first program. *)
Lemma max_thrust_zero_feasible (cols : list (vec R * vec R)) :
  feasible (max_thrust_problem cols) (repeat 0 (length cols)).
Proof.
  unfold feasible, max_thrust_problem. cbn [c A_eq b_eq bounds]. rarith.
  split; [| split].
  - rewrite repeat_length, length_map. reflexivity.
  - repeat constructor; apply dotl_zeros.
  - induction cols as [| col cols IH]; cbn [map repeat length]; constructor.
    + exact within_default_zero.
    + exact IH.
Qed.

(** Within the bounds of the first program, the thrust along the target
    direction is at most 3.71 per thruster, when no orientation has a
    component larger than 1. *)
Lemma objective_upper (cols : list (vec R * vec R)) (x : list R) :
  Forall2 within (map (fun _ => DEFAULT_MAX_THRUSTS) cols) x ->
  (forall col, In col cols -> -1 <= v0 (fst col) <= 1) ->
  - dotl (map (fun '(o, _) => - v0 o) cols) x <= 371 / 100 * INR (length cols).
Proof.
  revert x. induction cols as [| [o t] cols IH]; intros x Hb Hu; cbn [map length] in *.
  - inversion Hb; subst. unfold dotl. cbn. lra.
  - inversion Hb as [| bd x0 bds x' Hw Hb' E1 E2]; subst.
    rewrite dotl_cons, S_INR.
    specialize (IH x' Hb' (fun col Hin => Hu col (or_intror Hin))).
    pose proof (Hu (o, t) (or_introl eq_refl)) as Ho. cbn [fst] in Ho.
    cbn in Hw. unfold dec in Hw. rarith. nra.
Qed.

Lemma min_current_objective_length (cols : list (vec R * vec R)) :
  length (flat_map (fun _ : vec R * vec R => [1; 1]) cols) = (2 * length cols)%nat.
Proof. induction cols as [| col cols IH]; cbn [flat_map app length] in *; lia. Qed.

(** A feasible point of the second program has two entries per thruster
    and reproduces the target thrust. *)
Lemma min_current_feasible (cols : list (vec R * vec R)) (m : R) (x : list R) :
  feasible (min_current_problem cols m) x ->
  length x = (2 * length cols)%nat /\
  dotl (halves (fun '(o, _) => v0 o) cols) x = m.
Proof.
  unfold feasible, min_current_problem. cbn [c A_eq b_eq bounds]. rarith.
  intros (Hlen & Hrows & _). split.
  - rewrite Hlen. apply min_current_objective_length.
  - inversion Hrows; subst. reflexivity.
Qed.

(** What [get_max_thrust] went through when it returned. *)
Lemma get_max_thrust_inv
    (linprog : LinProg R -> result (OptimizeResult R))
    (os tcs : list (vec R)) (max_current : Z) (p : pynum R) :
  get_max_thrust linprog os tcs max_current = Ok p ->
  exists (cols : list (vec R * vec R)) (r1 r2 : OptimizeResult R) (f : R) (x : list R),
    with_constraints os tcs = Ok cols /\
    linprog (max_thrust_problem cols) = Ok r1 /\ res_fun r1 = Some f /\
    linprog (min_current_problem cols (- (999 / 1000) * f)) = Ok r2 /\ res_x r2 = Some x.
Proof.
  unfold get_max_thrust. intros Hrun.
  destruct (with_constraints os tcs) as [cols | e]; cbn [bind] in Hrun; [| discriminate].
  destruct (linprog (max_thrust_problem cols)) as [r1 | e] eqn:H1;
    cbn [bind] in Hrun; [| discriminate].
  destruct (res_fun r1) as [f |] eqn:Hf; cbn [not_none bind] in Hrun; [| discriminate].
  unfold dec in Hrun. rarith.
  destruct (linprog (min_current_problem cols (- (999 / 1000) * f))) as [r2 | e] eqn:H2;
    cbn [bind] in Hrun; [| discriminate].
  destruct (res_x r2) as [x |] eqn:Hx; cbn [not_none bind] in Hrun; [| discriminate].
  exists cols, r1, r2, f, x. repeat split; assumption.
Qed.

(** With an exact solver, the thrust that is derated is the target of the
    second program: 0.999 times the optimum of the first, which is not
    negative, and at most 3.71 per thruster. *)
Lemma thrust_value_sound
    (linprog : LinProg R -> result (OptimizeResult R))
    (os tcs : list (vec R))
    (cols : list (vec R * vec R)) (r1 r2 : OptimizeResult R) (f : R) (x : list R) :
  sound linprog ->
  with_constraints os tcs = Ok cols ->
  linprog (max_thrust_problem cols) = Ok r1 -> res_fun r1 = Some f ->
  linprog (min_current_problem cols (- (999 / 1000) * f)) = Ok r2 -> res_x r2 = Some x ->
  exists tv : R,
    thrust_sum 0 (combine_halves x) os 0 = Ok tv /\ 0 <= tv /\
    ((forall o, In o os -> -1 <= v0 o <= 1) -> tv <= 371 / 100 * INR (length os)).
Proof.
  intros Hsound Hc H1 Hf H2 Hx.
  pose proof (with_constraints_fst os tcs cols Hc) as Hos.
  pose proof (Hsound _ _ H1) as Ha1. pose proof (Hsound _ _ H2) as Ha2.
  unfold answers in Ha1, Ha2. rewrite Hf in Ha1. rewrite Hx in Ha2.
  destruct (res_x r1) as [x1 |]; [| contradiction].
  destruct (res_fun r2) as [f2 |]; [| contradiction].
  destruct Ha1 as (Hfeas1 & Hval1 & Hopt1). destruct Ha2 as (Hfeas2 & _ & _).
  destruct (min_current_feasible cols _ x Hfeas2) as [Hlen Hrow].
  exists (- (999 / 1000) * f).
  assert (Hf0 : f <= 0).
  { pose proof (Hopt1 _ (max_thrust_zero_feasible cols)) as Hle.
    rewrite dotl_zeros in Hle. exact Hle. }
  split; [| split].
  - pose proof (thrust_sum_dot (combine_halves x) [] os 0) as Hsum.
    cbn [length app] in Hsum. rewrite Hsum.
    + f_equal. rewrite <- Hos at 1. rewrite map_map.
      rewrite (map_ext (fun col => v0 (fst col)) (fun '(o, _) => v0 o))
        by (intros [o t]; reflexivity).
      rewrite halves_dot by exact Hlen. rewrite Hrow. ring.
    + rewrite (combine_halves_length x (length cols) Hlen).
      rewrite <- Hos, length_map. lia.
  - lra.
  - intros Hu.
    assert (Hup : - f <= 371 / 100 * INR (length cols)).
    { rewrite Hval1. destruct Hfeas1 as (_ & _ & Hb).
      apply objective_upper; [exact Hb |].
      intros col Hin. apply Hu. rewrite <- Hos. apply in_map. exact Hin. }
    rewrite <- Hos, length_map. lra.
Qed.

(** *** The larger root as a function of the budget *)

Lemma discriminant_mono (a b c1 c2 : R) :
  0 < a -> c2 <= c1 -> discriminant a b c1 <= discriminant a b c2.
Proof. intros Ha Hc. unfold discriminant. nra. Qed.

Lemma larger_root_mono (a b c1 c2 : R) :
  0 < a -> c2 <= c1 -> 0 <= discriminant a b c1 ->
  larger_root a b c1 <= larger_root a b c2.
Proof.
  intros Ha Hc Hd. pose proof (discriminant_mono a b c1 c2 Ha Hc) as Hm.
  assert (Hs : sqrt (discriminant a b c1) <= sqrt (discriminant a b c2)).
  { apply sqrt_le_1; lra. }
  assert (Hinv : 0 < / (2 * a)) by (apply Rinv_0_lt_compat; lra).
  unfold larger_root, Rdiv. nra.
Qed.

Lemma larger_root_pos (a b c : R) :
  0 < a -> 0 <= b -> c < 0 -> 0 < discriminant a b c /\ 0 < larger_root a b c.
Proof.
  intros Ha Hb Hc.
  assert (Hd : b * b < discriminant a b c) by (unfold discriminant; nra).
  split; [nra |].
  assert (Hs : b < sqrt (discriminant a b c)).
  { rewrite <- (sqrt_square b) at 1 by exact Hb. apply sqrt_lt_1; nra. }
  assert (Hinv : 0 < / (2 * a)) by (apply Rinv_0_lt_compat; lra).
  unfold larger_root, Rdiv. nra.
Qed.

(** C7.  With the linear programs solved exactly, for fixed orientations
    and torque arms (hence a fixed allocation), a larger budget never gives
    a smaller derated thrust: if [get_max_thrust] returns a real thrust at
    one budget, it returns one at every larger budget, and that one is at
    least as large. *)
Theorem derated_thrust_monotone
    (linprog : LinProg R -> result (OptimizeResult R))
    (os tcs : list (vec R)) (budget1 budget2 : Z) (rho1 : R) :
  sound linprog ->
  (budget1 <= budget2)%Z ->
  get_max_thrust linprog os tcs budget1 = Ok (PyFloat rho1) ->
  exists rho2 : R,
    get_max_thrust linprog os tcs budget2 = Ok (PyFloat rho2) /\ rho1 <= rho2.
Proof.
  intros Hsound Hle Hrun.
  destruct (get_max_thrust_inv linprog os tcs budget1 _ Hrun)
    as (cols & r1 & r2 & f & x & Hc & H1 & Hf & H2 & Hx).
  destruct (thrust_value_sound linprog os tcs cols r1 r2 f x Hsound Hc H1 Hf H2 Hx)
    as (tv & Htv & Hpos & _).
  rewrite (get_max_thrust_derate linprog os tcs budget1 cols r1 r2 f x Hc H1 Hf H2 Hx)
    in Hrun.
  rewrite (get_max_thrust_derate linprog os tcs budget2 cols r1 r2 f x Hc H1 Hf H2 Hx).
  pose proof (derate_cases x os budget1) as Hd1.
  pose proof (derate_cases x os budget2) as Hd2.
  pose proof (current_quadratic_signs (combine_halves x)) as Hs.
  destruct (current_quadratic (combine_halves x)) as [[q0 q1] q2].
  destruct Hs as (Hq0 & Hq1 & _).
  destruct Hd1 as [Hz1 Hp1]. destruct Hd2 as [_ Hp2].
  destruct Hq0 as [Ha | Hz]; [| rewrite (Hz1 (eq_sym Hz)) in Hrun; discriminate].
  rewrite (Hp1 Ha), Htv in Hrun. rewrite (Hp2 Ha), Htv. cbn [bind] in *.
  unfold derated in *.
  assert (Hcs : q2 - IZR budget2 <= q2 - IZR budget1).
  { apply IZR_le in Hle. lra. }
  destruct (Rlt_dec (discriminant q0 q1 (q2 - IZR budget1)) 0) as [Hn | Hd];
    [discriminate |].
  injection Hrun as <-.
  pose proof (discriminant_mono q0 q1 _ _ Ha Hcs) as Hm.
  destruct (Rlt_dec (discriminant q0 q1 (q2 - IZR budget2)) 0) as [Hn | _]; [lra |].
  eexists. split; [reflexivity |].
  apply Rmult_le_compat_l; [exact Hpos |].
  apply Rle_min_compat_l. apply larger_root_mono; lra.
Qed.

(** With the programs solved exactly and a budget that is not negative,
    the derated thrust lies between 0 and 3.71 per thruster. *)
Lemma get_max_thrust_bounded
    (linprog : LinProg R -> result (OptimizeResult R))
    (os tcs : list (vec R)) (max_current : Z) (p : pynum R) :
  sound linprog ->
  (0 <= max_current)%Z ->
  (forall o, In o os -> -1 <= v0 o <= 1) ->
  get_max_thrust linprog os tcs max_current = Ok p ->
  exists rho : R, p = PyFloat rho /\ 0 <= rho <= 371 / 100 * INR (length os).
Proof.
  intros Hsound Hbudget Hu Hrun.
  destruct (get_max_thrust_inv linprog os tcs max_current _ Hrun)
    as (cols & r1 & r2 & f & x & Hc & H1 & Hf & H2 & Hx).
  destruct (thrust_value_sound linprog os tcs cols r1 r2 f x Hsound Hc H1 Hf H2 Hx)
    as (tv & Htv & Hpos & Hup). specialize (Hup Hu).
  rewrite (get_max_thrust_derate linprog os tcs max_current cols r1 r2 f x Hc H1 Hf H2 Hx)
    in Hrun.
  pose proof (derate_cases x os max_current) as Hd.
  pose proof (current_quadratic_signs (combine_halves x)) as Hs.
  destruct (current_quadratic (combine_halves x)) as [[q0 q1] q2].
  destruct Hs as (Hq0 & Hq1 & _ & _ & Hq2). destruct Hd as [Hz Hp].
  destruct Hq0 as [Ha | Hzero]; [| rewrite (Hz (eq_sym Hzero)) in Hrun; discriminate].
  rewrite (Hp Ha), Htv in Hrun. cbn [bind] in Hrun. unfold derated in Hrun.
  apply IZR_le in Hbudget. specialize (Hq2 Ha).
  destruct (larger_root_pos q0 q1 (q2 - IZR max_current) Ha Hq1 ltac:(lra)) as [Hdisc Hroot].
  destruct (Rlt_dec _ 0) as [Hn | _]; [lra |].
  injection Hrun as <-. eexists. split; [reflexivity |].
  pose proof (Rmin_l 1 (larger_root q0 q1 (q2 - IZR max_current))) as Hl.
  assert (Hmin : 0 < Rmin 1 (larger_root q0 q1 (q2 - IZR max_current))).
  { apply Rmin_glb_lt; lra. }
  split; nra.
Qed.

(** The solver of the surge run is exact. *)
Lemma surge_linprog_sound : sound surge_linprog.
Proof.
  intros lp r Hr. unfold surge_linprog in Hr.
  destruct (LinProg_eq_dec lp surge_problem_1) as [-> | _].
  - injection Hr as <-. unfold answers. cbn [res_fun res_x surge_answer_1].
    unfold optimum, feasible, surge_problem_1, surge_cols, max_thrust_problem.
    cbn [c A_eq b_eq bounds map v0 v1 v2 length]. unfold dec. rarith.
    repeat split.
    + repeat constructor; unfold dotl; cbn; lra.
    + repeat constructor; cbn; lra.
    + unfold dotl. cbn. lra.
    + intros y (Hlen & _ & Hb).
      destruct y as [| y0 [| y1 y]]; try discriminate.
      inversion Hb as [| bd y0' bds y' Hw _ E1 E2]; subst.
      cbn in Hw. unfold dotl. cbn. lra.
  - destruct (LinProg_eq_dec lp surge_problem_2) as [-> | _]; [| discriminate].
    injection Hr as <-. unfold answers. cbn [res_fun res_x surge_answer_2].
    rewrite surge_max_thrust_value.
    unfold optimum, feasible, surge_problem_2, surge_cols, min_current_problem, halves.
    cbn [c A_eq b_eq bounds flat_map app v0 v1 v2 length]. rewrite surge_max_thrust_value.
    unfold dec, surge_thrust. rarith.
    repeat split.
    + repeat constructor; unfold dotl; cbn; lra.
    + repeat constructor; cbn; lra.
    + unfold dotl. cbn. lra.
    + intros y (Hlen & Hrows & Hb).
      destruct y as [| y0 [| y1 [| y2 y]]]; try discriminate.
      inversion Hrows as [| row b rows bs Hrow _ E1 E2]; subst.
      inversion Hb as [| bd y0' bds y' Hw0 Hb' E1 E2]; subst.
      inversion Hb' as [| bd y1' bds y' Hw1 _ E1 E2]; subst.
      cbn in Hw0, Hw1. unfold dotl in *. cbn in *. lra.
Qed.

(** The theorem at the surge run, for the budgets 22 and 30. *)
Lemma derated_thrust_monotone_witness :
  exists rho2 : R,
    get_max_thrust surge_linprog [Vec 1 0 0] [Vec 0 0 0] 30 = Ok (PyFloat rho2) /\
    surge_thrust * Rmin 1 (larger_root surge_a surge_b (surge_c - IZR 22)) <= rho2.
Proof.
  apply (derated_thrust_monotone surge_linprog [Vec 1 0 0] [Vec 0 0 0] 22 30).
  - exact surge_linprog_sound.
  - lia.
  - rewrite get_max_thrust_surge. unfold derated.
    destruct (Rlt_dec _ 0) as [Hn | _]; [| reflexivity].
    exfalso. revert Hn. unfold discriminant, surge_a, surge_b, surge_c, surge_thrust. lra.
Defined.

(** ** The sampler *)

Import Sampler.

(** The change of basis for the direction (1, 0, 0). *)
Lemma new_bases_x :
  new_bases (Vec 1 0 0) = of_columns (Vec 1 0 0) (Vec 0 0 1) (Vec 0 (-1) 0).
Proof.
  assert (Hunit : forall a : vec R, dot a a = 1 -> vdiv a (norm a) = a).
  { intros a Ha. rewrite (norm_of_unit _ Ha). apply vdiv_1. }
  unfold new_bases. rarith.
  rewrite (Hunit (Vec 1 0 0)) by (cbv [dot v0 v1 v2]; rarith; ring).
  cbn [v1 v2]. rewrite Reqb_refl. cbn [andb negb].
  replace (cross (Vec 1 0 0) (Vec 0 1 0)) with (Vec 0 0 1 : vec R)
    by (cbv [cross v0 v1 v2]; rarith; f_equal; ring).
  rewrite (Hunit (Vec 0 0 1)) by (cbv [dot v0 v1 v2]; rarith; ring).
  replace (cross (Vec 1 0 0) (Vec 0 0 1)) with (Vec 0 (-1) 0 : vec R)
    by (cbv [cross v0 v1 v2]; rarith; f_equal; ring).
  rewrite (Hunit (Vec 0 (-1) 0)) by (cbv [dot v0 v1 v2]; rarith; ring).
  reflexivity.
Qed.

Lemma x_not_zero : Vec 1 0 0 <> zero_vec.
Proof. unfold zero_vec. intros Heq. apply (f_equal (@v0 R)) in Heq. cbn in Heq. lra. Qed.

(** The two thrusters of the runs are at the origin and push along x. *)
Lemma surge_orientation : Vec (sin (radians 90) * cos (radians 0))
                              (sin (radians 90) * sin (radians 0))
                              (cos (radians 90)) = Vec 1 0 0.
Proof.
  unfold radians.
  replace (90 * (PI / 180)) with (PI / 2) by field.
  replace (0 * (PI / 180)) with 0 by field.
  rewrite sin_PI2, cos_PI2, sin_0, cos_0. f_equal; ring.
Qed.

Lemma load_surge : load_thrusters [surge_raw] = [surge_thruster].
Proof.
  unfold surge_thruster, load_thrusters, surge_raw, Thruster3D_init. cbn [map get raw_x raw_y raw_z
    raw_theta raw_phi raw_max_thrusts raw_fwd_current raw_rev_current].
  rewrite surge_orientation. reflexivity.
Qed.

Lemma load_hungry_surge : load_thrusters [hungry_surge_raw] = [hungry_surge_thruster].
Proof.
  unfold hungry_surge_thruster, load_thrusters, hungry_surge_raw, Thruster3D_init.
  cbn [map get raw_x raw_y raw_z raw_theta raw_phi raw_max_thrusts raw_fwd_current
       raw_rev_current].
  rewrite surge_orientation. reflexivity.
Qed.

Lemma load_weak_surge : load_thrusters [weak_surge_raw] = [weak_surge_thruster].
Proof.
  unfold weak_surge_thruster, load_thrusters, weak_surge_raw, Thruster3D_init. cbn [map get raw_x raw_y raw_z
    raw_theta raw_phi raw_max_thrusts raw_fwd_current raw_rev_current].
  rewrite surge_orientation. reflexivity.
Qed.

(** One thruster at the origin along x, sampled at colatitude 0: the
    direction is (1, 0, 0), the transformed orientation (1, 0, 0) and the
    torque arm zero. *)
Lemma sample_surge (linprog : LinProg R -> result (OptimizeResult R))
    (th : Thruster3D R) (max_current : Z) (u : R) :
  pos th = Vec 0 0 0 -> orientation th = Vec 1 0 0 ->
  sample linprog [th] (map torque [th]) max_current u 0
  = (rho <- get_max_thrust linprog [Vec 1 0 0] [Vec 0 0 0] max_current ;;
     Ok {| cell_dir := Vec 1 0 0; cell_rho := rho |}).
Proof.
  intros Hp Ho. unfold sample. rewrite sin_0, cos_0, !Rmult_0_r.
  rewrite (transform_orientations_frame _ _ x_not_zero), new_bases_x. cbn [bind map].
  unfold torque. rewrite Hp, Ho.
  replace (mat_vec (transpose (of_columns (Vec 1 0 0) (Vec 0 0 1) (Vec 0 (-1) 0)))
                   (Vec 1 0 0)) with (Vec 1 0 0 : vec R)
    by (cbv [mat_vec transpose of_columns dot row0 row1 row2 v0 v1 v2]; rarith;
        f_equal; ring).
  replace (cross (Vec 0 0 0) (Vec 1 0 0)) with (Vec 0 0 0 : vec R)
    by (cbv [cross v0 v1 v2]; rarith; f_equal; ring).
  reflexivity.
Qed.

Lemma mgrid_axis_1 (stop : R) : mgrid_axis stop 1 = [0].
Proof.
  unfold mgrid_axis. change (Z.to_nat 1) with 1%nat. cbn [Z.eqb Pos.eqb seq map INR].
  f_equal. ring.
Qed.

Lemma mgrid_axis_2 (stop : R) : mgrid_axis stop 2 = [0; stop].
Proof.
  unfold mgrid_axis. change (Z.to_nat 2) with 2%nat. cbn [Z.eqb Pos.eqb seq map INR].
  change (IZR (2 - 1)) with 1. f_equal; [| f_equal]; field.
Qed.

(** At resolution 2 the grid has two longitudes and the colatitude 0. *)
Lemma sweep_surge (linprog : LinProg R -> result (OptimizeResult R))
    (th : Thruster3D R) (max_current : Z) (rho : pynum R) :
  pos th = Vec 0 0 0 -> orientation th = Vec 1 0 0 ->
  get_max_thrust linprog [Vec 1 0 0] [Vec 0 0 0] max_current = Ok rho ->
  sweep linprog [th] 2 max_current
  = Ok [[{| cell_dir := Vec 1 0 0; cell_rho := rho |}];
        [{| cell_dir := Vec 1 0 0; cell_rho := rho |}]].
Proof.
  intros Hp Ho Hrun. unfold sweep, count_u, count_v.
  change (Z.abs 2 / 2)%Z with 1%Z. change (Z.abs 2) with 2%Z.
  rewrite mgrid_axis_1, mgrid_axis_2. cbn [mapM].
  rewrite !(sample_surge linprog th max_current _ Hp Ho), Hrun. reflexivity.
Qed.

(** *** Failures of the solver *)

(** C6, as the code has it.  When the solver reports a failure for either
    program, its answer has no [fun] and no [x], and [get_max_thrust]
    raises the [TypeError] of using [None] as a number (no [SolverError]
    exists, and no default value is substituted); an exception raised for a
    grid cell ends the sweep with an exception. *)
Theorem lp_failure_raises_type_error
    (linprog : LinProg R -> result (OptimizeResult R))
    (os tcs : list (vec R)) (max_current : Z) (cols : list (vec R * vec R)) :
  with_constraints os tcs = Ok cols ->
  (reports_failure linprog (max_thrust_problem cols) ->
   get_max_thrust linprog os tcs max_current = Raise TypeError) /\
  (forall (r1 : OptimizeResult R) (f : R),
      linprog (max_thrust_problem cols) = Ok r1 -> res_fun r1 = Some f ->
      reports_failure linprog (min_current_problem cols (- (999 / 1000) * f)) ->
      get_max_thrust linprog os tcs max_current = Raise TypeError) /\
  (forall (thrusters : list (Thruster3D R)) (resolution : Z) (u v : R)
          (transformed_orientations : list (vec R)) (e : exn),
      In u (mgrid_axis (2 * PI) (count_u resolution)) ->
      In v (mgrid_axis PI (count_v resolution)) ->
      transform_orientations thrusters (Vec (cos v) (sin u * sin v) (cos u * sin v))
      = Ok transformed_orientations ->
      get_max_thrust linprog transformed_orientations (map torque thrusters) max_current
      = Raise e ->
      exists e' : exn, sweep linprog thrusters resolution max_current = Raise e').
Proof.
  intros Hc. split; [| split].
  - intros (r & Hr & Hf & _). unfold get_max_thrust.
    rewrite Hc. cbn [bind]. rewrite Hr. cbn [bind]. rewrite Hf. reflexivity.
  - intros r1 f H1 Hf (r & Hr & _ & Hx). unfold get_max_thrust.
    rewrite Hc. cbn [bind]. rewrite H1. cbn [bind]. rewrite Hf. cbn [not_none bind].
    unfold dec. rarith. rewrite Hr. cbn [bind]. rewrite Hx. reflexivity.
  - intros thrusters resolution u v transformed_orientations e Hu Hv Ht Hg.
    assert (Hs : sample linprog thrusters (map torque thrusters) max_current u v = Raise e).
    { unfold sample. rewrite Ht. cbn [bind]. rewrite Hg. reflexivity. }
    unfold sweep. destruct (mapM_raise _ _ v e Hv Hs) as [e1 He1].
    exact (mapM_raise
             (fun u0 => mapM (fun v0 => sample linprog thrusters (map torque thrusters)
                                          max_current u0 v0)
                             (mgrid_axis PI (count_v resolution)))
             _ u e1 Hu He1).
Qed.

(** The theorem for the surge thruster and a solver that reports every
    program infeasible. *)
Lemma lp_failure_raises_type_error_witness :
  get_max_thrust failing_linprog [Vec 1 0 0] [Vec 0 0 0] 22 = Raise TypeError.
Proof.
  apply (lp_failure_raises_type_error failing_linprog [Vec 1 0 0] [Vec 0 0 0] 22
           surge_cols eq_refl).
  eexists. repeat split; reflexivity.
Defined.

(** C6, as stated, fails: the exception is a [TypeError], not a
    [SolverError]. *)
Lemma lp_failure_not_solver_error :
  reports_failure failing_linprog (max_thrust_problem surge_cols) /\
  get_max_thrust failing_linprog [Vec 1 0 0] [Vec 0 0 0] 22 = Raise TypeError /\
  get_max_thrust failing_linprog [Vec 1 0 0] [Vec 0 0 0] 22 <> Raise SolverError.
Proof.
  split; [| split].
  - eexists. repeat split; reflexivity.
  - reflexivity.
  - discriminate.
Qed.

(** *** The thrusters' own specifications *)

Lemma torque_ext (ts1 ts2 : list (Thruster3D R)) :
  map (@pos R) ts1 = map (@pos R) ts2 ->
  map (@orientation R) ts1 = map (@orientation R) ts2 ->
  map torque ts1 = map torque ts2.
Proof.
  revert ts2. induction ts1 as [| t1 ts1 IH]; intros [| t2 ts2] Hp Ho;
    cbn [map] in *; try discriminate; [reflexivity |].
  injection Hp as Hp1 Hp. injection Ho as Ho1 Ho.
  unfold torque at 1 3. rewrite Hp1, Ho1. f_equal. apply IH; assumption.
Qed.

(** C10.  Two thruster lists with the same positions and orientations get
    the same transformed orientations, the same torque arms, the same
    result of [get_max_thrust] for every direction and the same sweep:
    their [max_thrusts], [fwd_current] and [rev_current] are never read,
    and the bounds of both programs are those of the module constants. *)
Theorem thruster_specs_unused
    (linprog : LinProg R -> result (OptimizeResult R))
    (ts1 ts2 : list (Thruster3D R)) (resolution max_current : Z) :
  map (@pos R) ts1 = map (@pos R) ts2 ->
  map (@orientation R) ts1 = map (@orientation R) ts2 ->
  (forall d : vec R, transform_orientations ts1 d = transform_orientations ts2 d) /\
  map torque ts1 = map torque ts2 /\
  (forall d : vec R,
      (os <- transform_orientations ts1 d ;;
       get_max_thrust linprog os (map torque ts1) max_current)
      = (os <- transform_orientations ts2 d ;;
         get_max_thrust linprog os (map torque ts2) max_current)) /\
  sweep linprog ts1 resolution max_current = sweep linprog ts2 resolution max_current /\
  (forall (cols : list (vec R * vec R)) (m : R),
      bounds (max_thrust_problem cols) = map (fun _ => DEFAULT_MAX_THRUSTS) cols /\
      bounds (min_current_problem cols m)
      = flat_map (fun _ => [[0; 371 / 100]; [0; 290 / 100]]) cols).
Proof.
  intros Hp Ho. pose proof (torque_ext ts1 ts2 Hp Ho) as Ht.
  assert (Htr : forall d : vec R,
             transform_orientations ts1 d = transform_orientations ts2 d).
  { intros d. unfold transform_orientations. rewrite Ho. reflexivity. }
  split; [exact Htr | split; [exact Ht | split; [| split]]].
  - intros d. rewrite Htr, Ht. reflexivity.
  - unfold sweep. rewrite Ht. apply mapM_ext. intros u. apply mapM_ext. intros v.
    unfold sample. rewrite Htr. reflexivity.
  - intros cols m. split; reflexivity.
Qed.

(** The theorem for the surge thruster with the default bounds and with
    bounds of its own. *)
Lemma thruster_specs_unused_witness :
  sweep surge_linprog [surge_thruster] 2 22
  = sweep surge_linprog [weak_surge_thruster] 2 22.
Proof.
  apply (thruster_specs_unused surge_linprog [surge_thruster] [weak_surge_thruster] 2 22
           eq_refl eq_refl).
Defined.

Lemma larger_root_ge_1 (a b c : R) :
  0 < a -> 0 <= b -> a + b + c <= 0 -> 1 <= larger_root a b c.
Proof.
  intros Ha Hb Hc.
  assert (Hd : (2 * a + b) * (2 * a + b) <= discriminant a b c).
  { unfold discriminant. nra. }
  assert (Hs : 2 * a + b <= sqrt (discriminant a b c)).
  { rewrite <- (sqrt_square (2 * a + b)) by lra. apply sqrt_le_1; nra. }
  unfold larger_root. apply (Rmult_le_reg_r (2 * a)); [lra |].
  unfold Rdiv. rewrite Rmult_assoc, Rinv_l by lra. lra.
Qed.

(** With the budget 22 the surge thruster is not derated. *)
Lemma get_max_thrust_surge_22 :
  get_max_thrust surge_linprog [Vec 1 0 0] [Vec 0 0 0] 22 = Ok (PyFloat surge_thrust).
Proof.
  rewrite get_max_thrust_surge. unfold derated.
  pose proof surge_a_pos as Ha.
  assert (Hb : 0 <= surge_b) by (unfold surge_b, surge_thrust; lra).
  assert (Hc : surge_a + surge_b + (surge_c - IZR 22) <= 0).
  { unfold surge_a, surge_b, surge_c, surge_thrust. lra. }
  pose proof (larger_root_ge_1 _ _ _ Ha Hb Hc) as Hr.
  destruct (Rlt_dec _ 0) as [Hn | _].
  - exfalso. revert Hn. unfold discriminant, surge_a, surge_b, surge_c, surge_thrust. lra.
  - rewrite Rmin_left by exact Hr. do 2 f_equal. ring.
Qed.

(** C3, on the code.  A thruster whose file entry gives the bounds
    [-1, 1]: both programs are built with the bounds of the module
    constants whatever the thrusters are, and the sweep finds a thrust of
    3.70629 along x, above that thruster's own upper bound. *)
Lemma custom_bounds_ignored :
  map (@max_thrusts R) (load_thrusters [weak_surge_raw]) = [[-1; 1]] /\
  (forall (cols : list (vec R * vec R)) (m : R),
      bounds (max_thrust_problem cols) = map (fun _ => [-29 / 10; 371 / 100]) cols /\
      bounds (min_current_problem cols m)
      = flat_map (fun _ => [[0; 371 / 100]; [0; 290 / 100]]) cols) /\
  main surge_linprog [weak_surge_raw] 2 22
  = Ok [[surge_cell surge_thrust]; [surge_cell surge_thrust]] /\
  forward_bound weak_surge_thruster < surge_thrust.
Proof.
  split; [| split; [| split]].
  - rewrite load_weak_surge. reflexivity.
  - intros cols m. split; reflexivity.
  - unfold main. rewrite load_weak_surge.
    apply (sweep_surge surge_linprog weak_surge_thruster 22 _ eq_refl eq_refl).
    exact get_max_thrust_surge_22.
  - unfold forward_bound, weak_surge_thruster, surge_thrust. cbn. lra.
Qed.

(** C4, on the code.  A thruster whose file entry gives forward current
    coefficients of its own, [3, 0, 0]: [main] loads them, but for every
    allocation the quadratic of the derating step, at scale 1, is the sum
    of the draws by the module's coefficients.  In the run along x with
    the budget 22 the thruster is allocated 3.70629; the quadratic at
    scale 1 is below 22 and the thrust is returned whole, while by its own
    coefficients the thruster draws more than 22 there. *)
Lemma own_current_ignored :
  map (@fwd_current R) (load_thrusters [hungry_surge_raw]) = [[3; 0; 0]] /\
  (forall a : list R,
      let '(q0, q1, q2) := current_quadratic a in
      q0 * (1 * 1) + q1 * 1 + q2 = total (map default_current a)) /\
  main surge_linprog [hungry_surge_raw] 2 22
  = Ok [[surge_cell surge_thrust]; [surge_cell surge_thrust]] /\
  combine_halves [surge_max_thrust; 0] = [surge_thrust] /\
  (let '(q0, q1, q2) := current_quadratic [surge_thrust] in
   q0 * (1 * 1) + q1 * 1 + q2 < 22 /\
   22 < total (map (thruster_current hungry_surge_thruster) [surge_thrust])).
Proof.
  split; [| split; [| split; [| split]]].
  - rewrite load_hungry_surge. reflexivity.
  - exact current_quadratic_at_one.
  - unfold main. rewrite load_hungry_surge.
    apply (sweep_surge surge_linprog hungry_surge_thruster 22 _ eq_refl eq_refl).
    exact get_max_thrust_surge_22.
  - cbn [combine_halves]. rarith. rewrite surge_max_thrust_value. f_equal. ring.
  - pose proof surge_current_quadratic as Hq.
    cbn [combine_halves] in Hq. rarith. rewrite surge_max_thrust_value in Hq.
    replace (surge_thrust - 0) with surge_thrust in Hq by ring.
    rewrite Hq. cbn [map total fold_right].
    unfold thruster_current, current_draw, hungry_surge_thruster. cbn [fwd_current nth].
    pose proof surge_thrust_pos as Hp.
    destruct (Rle_dec 0 surge_thrust) as [_ | Hn]; [| lra].
    rewrite (Rabs_right surge_thrust) by lra.
    unfold surge_a, surge_b, surge_c, surge_thrust. lra.
Qed.

(** *** The grid *)

Lemma nth_error_seq_lt (s n i : nat) : (i < n)%nat -> nth_error (seq s n) i = Some (s + i)%nat.
Proof.
  revert s i. induction n as [| n IH]; intros s [| i] Hi; try lia; cbn [seq nth_error].
  - f_equal. lia.
  - rewrite IH by lia. f_equal. lia.
Qed.

Lemma mgrid_axis_first (stop : R) (count : Z) :
  (1 <= count)%Z -> nth_error (mgrid_axis stop count) 0 = Some 0.
Proof.
  intros Hc. unfold mgrid_axis. rewrite nth_error_map, nth_error_seq_lt by lia.
  cbn [option_map Nat.add INR]. f_equal. ring.
Qed.

Lemma mgrid_axis_last (stop : R) (count : Z) :
  (2 <= count)%Z -> nth_error (mgrid_axis stop count) (Z.to_nat count - 1) = Some stop.
Proof.
  intros Hc. unfold mgrid_axis. rewrite nth_error_map, nth_error_seq_lt by lia.
  cbn [option_map Nat.add]. f_equal.
  destruct (Z.eqb_spec count 1) as [-> | _]; [lia |].
  replace (Z.to_nat count - 1)%nat with (Z.to_nat (count - 1)) by lia.
  rewrite INR_IZR_INZ, Z2Nat.id by lia. field. apply not_0_IZR. lia.
Qed.


Lemma mgrid_axis_length (stop : R) (count : Z) :
  length (mgrid_axis stop count) = Z.to_nat count.
Proof. unfold mgrid_axis. rewrite length_map, length_seq. reflexivity. Qed.



Lemma mapM_In {A B : Type} (f : A -> result B) (l : list A) (ys : list B) (y : B) :
  mapM f l = Ok ys -> In y ys -> exists a : A, In a l /\ f a = Ok y.
Proof.
  intros Hm. apply mapM_Forall2 in Hm.
  induction Hm as [| a b l' ys' Hab _ IH]; intros Hin; [contradiction |].
  destruct Hin as [<- | Hin].
  - exists a. split; [left; reflexivity | exact Hab].
  - destruct (IH Hin) as (a' & Ha' & Hf). exists a'. split; [right; exact Ha' | exact Hf].
Qed.

Lemma mapM_length {A B : Type} (f : A -> result B) (l : list A) (ys : list B) :
  mapM f l = Ok ys -> length ys = length l.
Proof.
  intros Hm. apply mapM_Forall2 in Hm. symmetry. exact (Forall2_length Hm).
Qed.



(** *** The bound on the envelope *)

Lemma direction_unit (u v : R) :
  dot (Vec (cos v) (sin u * sin v) (cos u * sin v))
      (Vec (cos v) (sin u * sin v) (cos u * sin v)) = 1.
Proof.
  cbv [dot v0 v1 v2]. rarith.
  pose proof (sin2_cos2 u) as Hu. pose proof (sin2_cos2 v) as Hv.
  unfold Rsqr in Hu, Hv. nra.
Qed.

Lemma unit_not_zero (a : vec R) : dot a a = 1 -> a <> zero_vec.
Proof.
  intros Ha ->. revert Ha. cbv [dot zero_vec v0 v1 v2]. rarith. lra.
Qed.

Lemma init_orientation_unit (x y z theta phi : R) (mt fc rc : list R) :
  dot (orientation (Thruster3D_init x y z theta phi mt fc rc))
      (orientation (Thruster3D_init x y z theta phi mt fc rc)) = 1.
Proof.
  unfold Thruster3D_init. cbv [orientation dot v0 v1 v2]. rarith.
  pose proof (sin2_cos2 (radians theta)) as Ht.
  pose proof (sin2_cos2 (radians phi)) as Hp.
  unfold Rsqr in Ht, Hp. nra.
Qed.

(** Cauchy and Schwarz, for unit vectors. *)
Lemma dot_unit_bound (t o : vec R) :
  dot t t = 1 -> dot o o = 1 -> -1 <= dot t o <= 1.
Proof.
  destruct t as [t0 t1 t2], o as [o0 o1 o2]. cbv [dot v0 v1 v2]. rarith.
  intros Ht Ho.
  assert (Hl : (t0 * o0 + t1 * o1 + t2 * o2) * (t0 * o0 + t1 * o1 + t2 * o2)
               + ((t1 * o2 - t2 * o1) * (t1 * o2 - t2 * o1)
                  + (t2 * o0 - t0 * o2) * (t2 * o0 - t0 * o2)
                  + (t0 * o1 - t1 * o0) * (t0 * o1 - t1 * o0))
               = (t0 * t0 + t1 * t1 + t2 * t2) * (o0 * o0 + o1 * o1 + o2 * o2)) by ring.
  rewrite Ht, Ho in Hl.
  set (d := t0 * o0 + t1 * o1 + t2 * o2) in *.
  pose proof (Rle_0_sqr (t1 * o2 - t2 * o1)) as H0.
  pose proof (Rle_0_sqr (t2 * o0 - t0 * o2)) as H1.
  pose proof (Rle_0_sqr (t0 * o1 - t1 * o0)) as H2.
  unfold Rsqr in H0, H1, H2.
  assert (Hd : d * d <= 1) by lra.
  split; nra.
Qed.

(** The first component of a transformed unit orientation is its component
    along the unit target direction. *)
Lemma transformed_component (d o : vec R) :
  d <> zero_vec -> dot o o = 1 ->
  -1 <= v0 (mat_vec (transpose (new_bases d)) o) <= 1.
Proof.
  intros Hne Ho. destruct (new_bases_frame _ Hne) as (s & Ht & Hs & Hts & Hnb).
  cbv zeta in *. rewrite Hnb.
  set (t := vdiv d (norm d)) in *.
  replace (v0 (mat_vec (transpose (of_columns t s (cross t s))) o)) with (dot t o).
  - apply dot_unit_bound; assumption.
  - destruct t as [t0 t1 t2], s as [s0 s1 s2], o as [o0 o1 o2]. reflexivity.
Qed.

Lemma load_orientations_unit (thrusters_raw : list thruster_raw) :
  Forall (fun th => dot (orientation th) (orientation th) = 1)
         (load_thrusters thrusters_raw).
Proof.
  unfold load_thrusters. apply Forall_map, Forall_forall. intros raw _.
  apply init_orientation_unit.
Qed.

Lemma total_forward_default (thrusters_raw : list thruster_raw) :
  Forall (fun raw => get (raw_max_thrusts raw) DEFAULT_MAX_THRUSTS = DEFAULT_MAX_THRUSTS)
         thrusters_raw ->
  total (map forward_bound (load_thrusters thrusters_raw))
  = 371 / 100 * INR (length thrusters_raw).
Proof.
  induction 1 as [| raw raws Hraw _ IH].
  - cbn. lra.
  - change (load_thrusters (raw :: raws))
      with (load_thrusters [raw] ++ load_thrusters raws).
    cbn [app map load_thrusters total fold_right length]. fold (load_thrusters raws).
    fold (total (map forward_bound (load_thrusters raws))).
    rewrite IH, S_INR. unfold forward_bound, Thruster3D_init. cbn [max_thrusts].
    rewrite Hraw. cbn [DEFAULT_MAX_THRUSTS nth]. unfold dec. rarith. lra.
Qed.

(** C8, as the code has it.  With the programs solved exactly, a budget
    that is not negative and thrusters with the default thrust bounds, the
    thrust stored for every cell of the sweep is a real number between 0
    and the sum of the thrusters' upper thrust bounds. *)
Theorem envelope_bounded
    (linprog : LinProg R -> result (OptimizeResult R))
    (thrusters_raw : list thruster_raw) (resolution max_current : Z)
    (mesh : list (list cell)) :
  sound linprog ->
  (0 <= max_current)%Z ->
  Forall (fun raw => get (raw_max_thrusts raw) DEFAULT_MAX_THRUSTS = DEFAULT_MAX_THRUSTS)
         thrusters_raw ->
  main linprog thrusters_raw resolution max_current = Ok mesh ->
  forall row : list cell, In row mesh ->
  forall s : cell, In s row ->
  exists rho : R,
    cell_rho s = PyFloat rho /\
    0 <= rho <= total (map forward_bound (load_thrusters thrusters_raw)).
Proof.
  intros Hsound Hbudget Hdefault Hmain row Hrow s Hs.
  rewrite (total_forward_default _ Hdefault).
  unfold main, sweep in Hmain.
  destruct (mapM_In _ _ _ _ Hmain Hrow) as (u & _ & Hu).
  destruct (mapM_In _ _ _ _ Hu Hs) as (v & _ & Hv).
  unfold sample in Hv.
  pose proof (unit_not_zero _ (direction_unit u v)) as Hne.
  rewrite (transform_orientations_frame _ _ Hne) in Hv. cbn [bind] in Hv.
  destruct (get_max_thrust _ _ _ _) as [p | e] eqn:Hrun; cbn [bind] in Hv; [| discriminate].
  injection Hv as <-. cbn [cell_rho].
  assert (Hunit : forall o : vec R,
             In o (map (fun th : Thruster3D R =>
                          mat_vec (transpose (new_bases
                            (Vec (cos v) (sin u * sin v) (cos u * sin v))))
                            (orientation th))
                       (load_thrusters thrusters_raw)) ->
             -1 <= v0 o <= 1).
  { intros o Hin. apply in_map_iff in Hin. destruct Hin as (th & <- & Hth).
    apply transformed_component; [exact Hne |].
    pose proof (load_orientations_unit thrusters_raw) as Hall.
    rewrite Forall_forall in Hall. exact (Hall th Hth). }
  destruct (get_max_thrust_bounded linprog _ _ max_current p Hsound Hbudget Hunit Hrun)
    as (rho & -> & Hrho).
  exists rho. split; [reflexivity |].
  rewrite length_map in Hrho. unfold load_thrusters in Hrho.
  rewrite length_map in Hrho. exact Hrho.
Qed.

Lemma main_surge_22 :
  main surge_linprog [surge_raw] 2 22
  = Ok [[surge_cell surge_thrust]; [surge_cell surge_thrust]].
Proof.
  unfold main. rewrite load_surge.
  apply (sweep_surge surge_linprog surge_thruster 22 _ eq_refl eq_refl).
  exact get_max_thrust_surge_22.
Qed.

(** The theorem for the sweep of the surge thruster at resolution 2 and
    budget 22. *)
Lemma envelope_bounded_witness :
  exists rho : R,
    cell_rho (surge_cell surge_thrust) = PyFloat rho /\
    0 <= rho <= total (map forward_bound (load_thrusters [surge_raw])).
Proof.
  apply (envelope_bounded surge_linprog [surge_raw] 2 22
           [[surge_cell surge_thrust]; [surge_cell surge_thrust]]
           surge_linprog_sound ltac:(lia) ltac:(repeat constructor) main_surge_22
           [surge_cell surge_thrust] ltac:(left; reflexivity)
           (surge_cell surge_thrust) ltac:(left; reflexivity)).
Defined.

(** C8, as stated, fails.  With the default thruster bounds, the programs
    solved exactly and the budget -1, the thrust stored for both cells of
    the sweep is negative. *)
Lemma negative_budget_negative_thrust :
  sound surge_linprog /\
  main surge_linprog [surge_raw] 2 (-1)
  = Ok [[surge_cell (surge_thrust * larger_root surge_a surge_b (surge_c - IZR (-1)))];
        [surge_cell (surge_thrust * larger_root surge_a surge_b (surge_c - IZR (-1)))]] /\
  surge_thrust * larger_root surge_a surge_b (surge_c - IZR (-1)) < 0.
Proof.
  pose proof surge_discriminant_budget_m1 as Hd.
  pose proof surge_root_budget_m1 as Hr. pose proof surge_thrust_pos as Ht.
  split; [exact surge_linprog_sound | split].
  - unfold main. rewrite load_surge.
    apply (sweep_surge surge_linprog surge_thruster (-1) _ eq_refl eq_refl).
    rewrite get_max_thrust_surge. unfold derated.
    destruct (Rlt_dec _ 0); [lra |]. rewrite Rmin_right by lra. reflexivity.
  - nra.
Qed.

(** ** The code runs: binary64 *)

Example np_roots_two_real :
  np_roots (num := float) [of_Z 1; of_Z (-3); of_Z 2] = Ok (RealRoots [of_Z 2; of_Z 1]).
Proof. vm_compute. reflexivity. Qed.

Example np_roots_trailing_zero :
  np_roots (num := float) [of_Z 0; of_Z 4; of_Z 0] = Ok (RealRoots [of_Z 0]).
Proof. vm_compute. reflexivity. Qed.

Example np_roots_constant :
  (r <- np_roots (num := float) [of_Z 0; of_Z 0; of_Z (-22)] ;; clamp_multiplier r)
  = Raise ValueError.
Proof. vm_compute. reflexivity. Qed.

Example np_roots_nan :
  np_roots (num := float) [PrimFloat.nan; of_Z 1; of_Z 1] = Raise LinAlgError.
Proof. vm_compute. reflexivity. Qed.

Example combine_halves_odd :
  combine_halves (num := float) [of_Z 3; of_Z 1; of_Z 5] = [of_Z 2].
Proof. vm_compute. reflexivity. Qed.

(** A column of zeros is a zero pivot, whatever the other entries are. *)
Example inv_zero_column :
  inv (num := float)
      (Mat (Vec (of_Z 0) PrimFloat.nan PrimFloat.nan)
           (Vec (of_Z 0) PrimFloat.nan PrimFloat.nan)
           (Vec (of_Z 0) PrimFloat.nan PrimFloat.nan))
  = Raise LinAlgError.
Proof. vm_compute. reflexivity. Qed.

(** A direction whose squared norm overflows: the norm is infinite, the
    first basis is zero and the other two are NaN. *)
Example transform_orientations_huge_direction :
  transform_orientations [surge_thruster_float] (Vec (of_Z (2 ^ 600)) (of_Z 0) (of_Z 0))
  = Raise LinAlgError.
Proof. vm_compute. reflexivity. Qed.

Example inv_dependent_rows :
  inv (num := float)
      (Mat (Vec (of_Z 2) (of_Z 1) (of_Z 0))
           (Vec (of_Z 4) (of_Z 2) (of_Z 0))
           (Vec (of_Z 1) (of_Z 0) (of_Z 1)))
  = Raise LinAlgError.
Proof. vm_compute. reflexivity. Qed.

Example inv_permutation :
  inv (num := float)
      (Mat (Vec (of_Z 0) (of_Z 1) (of_Z 0))
           (Vec (of_Z 0) (of_Z 0) (of_Z 1))
           (Vec (of_Z 1) (of_Z 0) (of_Z 0)))
  = Ok (Mat (Vec (of_Z 0) (of_Z 0) (of_Z 1))
            (Vec (of_Z 1) (of_Z 0) (of_Z 0))
            (Vec (of_Z 0) (of_Z 1) (of_Z 0))).
Proof. vm_compute. reflexivity. Qed.

(** An integer budget beyond 2^53 is rounded, ties to even; beyond the
    floats it is an [OverflowError]. *)
Example of_int_rounds :
  of_int (num := float) (2 ^ 63 + 1) = Ok (of_Z (2 ^ 63)) /\
  of_int (num := float) (2 ^ 53 + 1) = Ok (of_Z (2 ^ 53)) /\
  of_int (num := float) (2 ^ 53 + 3) = Ok (of_Z (2 ^ 53 + 4)).
Proof. vm_compute. repeat split. Qed.

Example of_int_overflow :
  of_int (num := float) (2 ^ 1024) = Raise OverflowError /\
  of_int (num := float) (- 2 ^ 1024) = Raise OverflowError.
Proof. vm_compute. split; reflexivity. Qed.

(** * Further properties *)

(** ** Thrusters and the change of basis *)

(** X1.  Whatever the position and the angles, the orientation of a
    thruster is a unit vector, its torque arm is orthogonal to its position
    and to its orientation, and the torque arm is not longer than the
    position. *)
Theorem thruster_geometry (x y z theta phi : R) (mt fc rc : list R) :
  let th := Thruster3D_init x y z theta phi mt fc rc in
  dot (orientation th) (orientation th) = 1 /\
  dot (torque th) (pos th) = 0 /\
  dot (torque th) (orientation th) = 0 /\
  dot (torque th) (torque th) <= dot (pos th) (pos th).
Proof.
  intros th. pose proof (init_orientation_unit x y z theta phi mt fc rc) as Hu.
  fold th in Hu. unfold torque.
  destruct (orientation th) as [o0 o1 o2], (pos th) as [p0 p1 p2].
  revert Hu. cbv [dot cross v0 v1 v2]. rarith. intros Hu.
  split; [exact Hu | split; [ring | split; [ring |]]].
  assert (Hl : (p1 * o2 - p2 * o1) * (p1 * o2 - p2 * o1)
               + (p2 * o0 - p0 * o2) * (p2 * o0 - p0 * o2)
               + (p0 * o1 - p1 * o0) * (p0 * o1 - p1 * o0)
               + (p0 * o0 + p1 * o1 + p2 * o2) * (p0 * o0 + p1 * o1 + p2 * o2)
               = (p0 * p0 + p1 * p1 + p2 * p2) * (o0 * o0 + o1 * o1 + o2 * o2)) by ring.
  rewrite Hu in Hl. pose proof (Rle_0_sqr (p0 * o0 + p1 * o1 + p2 * o2)) as Hs.
  unfold Rsqr in Hs. lra.
Qed.

Lemma Forall2_map_r {A B : Type} (P : A -> B -> Prop) (f : A -> B) (l : list A) :
  (forall a : A, In a l -> P a (f a)) -> Forall2 P l (map f l).
Proof.
  induction l as [| a l IH]; intros Hp; cbn [map]; constructor.
  - apply Hp. left. reflexivity.
  - apply IH. intros a' Hin. apply Hp. right. exact Hin.
Qed.

(** X2.  For a target direction that is not zero, the first component of
    each transformed orientation is the component of the orientation along
    the unit target direction, and a thruster that points along the target
    is transformed to (1, 0, 0). *)
Theorem transformed_orientation_projection
    (thrusters : list (Thruster3D R)) (target_dir : vec R) :
  target_dir <> zero_vec ->
  exists rows : list (vec R),
    transform_orientations thrusters target_dir = Ok rows /\
    Forall2 (fun th row =>
               v0 row = dot (vdiv target_dir (norm target_dir)) (orientation th) /\
               (orientation th = vdiv target_dir (norm target_dir) -> row = Vec 1 0 0))
            thrusters rows.
Proof.
  intros Hne. eexists. split; [exact (transform_orientations_frame thrusters _ Hne) |].
  apply Forall2_map_r. intros th _.
  destruct (new_bases_frame _ Hne) as (s & Ht & Hs & Hts & Hnb). cbv zeta in *.
  rewrite Hnb. set (t := vdiv target_dir (norm target_dir)) in *.
  split.
  - destruct t, s, (orientation th). reflexivity.
  - intros ->. destruct t as [t0 t1 t2], s as [s0 s1 s2].
    revert Ht Hs Hts. cbv [mat_vec transpose of_columns cross dot row0 row1 row2 v0 v1 v2].
    rarith. intros Ht Hs Hts. f_equal; nsatz.
Qed.

(** The theorem at the direction (3, 4, 0). *)
Lemma transformed_orientation_projection_witness :
  exists rows : list (vec R),
    transform_orientations [surge_thruster] (Vec 3 4 0) = Ok rows /\
    Forall2 (fun th row =>
               v0 row = dot (vdiv (Vec 3 4 0) (norm (Vec 3 4 0))) (orientation th) /\
               (orientation th = vdiv (Vec 3 4 0) (norm (Vec 3 4 0)) -> row = Vec 1 0 0))
            [surge_thruster] rows.
Proof.
  apply (transformed_orientation_projection [surge_thruster] (Vec 3 4 0)).
  unfold zero_vec. intros Heq. apply (f_equal (@v0 R)) in Heq. cbn in Heq. lra.
Defined.

Lemma norm_scaled (k : R) (a : vec R) : 0 < k -> norm (vmap (Rmult k) a) = k * norm a.
Proof.
  intros Hk. destruct a as [x y z]. unfold norm. cbv [vmap dot v0 v1 v2]. rarith.
  replace (k * x * (k * x) + k * y * (k * y) + k * z * (k * z))
    with (k * k * (x * x + y * y + z * z)) by ring.
  rewrite sqrt_mult by nra. rewrite sqrt_square by lra. reflexivity.
Qed.

(** X3.  The target direction need not be normalised: a positive multiple
    of a direction gives the same transformed orientations. *)
Theorem transform_scale_invariant
    (thrusters : list (Thruster3D R)) (target_dir : vec R) (k : R) :
  0 < k -> target_dir <> zero_vec ->
  transform_orientations thrusters (vmap (Rmult k) target_dir)
  = transform_orientations thrusters target_dir.
Proof.
  intros Hk Hne.
  assert (Hunit : vdiv (vmap (Rmult k) target_dir) (norm (vmap (Rmult k) target_dir))
                  = vdiv target_dir (norm target_dir)).
  { rewrite norm_scaled by exact Hk. pose proof (norm_pos _ Hne) as Hn.
    destruct target_dir as [x y z]. cbv [vdiv vmap v0 v1 v2]. rarith.
    set (n := norm (Vec x y z)) in *. f_equal; field; lra. }
  unfold transform_orientations, new_bases. rewrite Hunit. reflexivity.
Qed.

(** The theorem for the direction (3, 4, 0) doubled. *)
Lemma transform_scale_invariant_witness :
  transform_orientations [surge_thruster] (vmap (Rmult 2) (Vec 3 4 0))
  = transform_orientations [surge_thruster] (Vec 3 4 0).
Proof.
  apply (transform_scale_invariant [surge_thruster] (Vec 3 4 0) 2); [lra |].
  unfold zero_vec. intros Heq. apply (f_equal (@v0 R)) in Heq. cbn in Heq. lra.
Defined.

(** ** get_max_thrust: its inputs and its two programs *)

Lemma with_constraints_short (s : nat) (os tcs : list (vec R)) :
  (s <= length tcs)%nat -> (length tcs < s + length os)%nat ->
  mapM (fun '(i, orientation) => t <- index tcs i ;; Ok (orientation, t))
       (combine (seq s (length os)) os) = Raise IndexError.
Proof.
  revert s. induction os as [| o os IH]; intros s Hs Hlen; cbn [length] in Hlen; [lia |].
  cbn [length seq combine mapM]. unfold index at 1.
  destruct (nth_error tcs s) as [t |] eqn:Hn; cbn [bind]; [| reflexivity].
  assert (s < length tcs)%nat by (apply nth_error_Some; congruence).
  rewrite IH by lia. reflexivity.
Qed.

Lemma skipn_nth_error {A : Type} (l : list A) (s : nat) (a : A) :
  nth_error l s = Some a -> skipn s l = a :: skipn (S s) l.
Proof.
  revert s. induction l as [| b l IH]; intros [| s] Hn; cbn in Hn; try discriminate.
  - injection Hn as ->. reflexivity.
  - exact (IH s Hn).
Qed.

Lemma with_constraints_long (s : nat) (os tcs : list (vec R)) :
  (s + length os <= length tcs)%nat ->
  mapM (fun '(i, orientation) => t <- index tcs i ;; Ok (orientation, t))
       (combine (seq s (length os)) os) = Ok (combine os (skipn s tcs)).
Proof.
  revert s. induction os as [| o os IH]; intros s Hlen; cbn [length] in Hlen;
    [reflexivity |].
  cbn [length seq combine mapM]. unfold index at 1.
  destruct (nth_error tcs s) as [t |] eqn:Hn.
  - cbn [bind]. rewrite IH by lia. cbn [bind].
    rewrite (skipn_nth_error _ _ _ Hn). reflexivity.
  - apply nth_error_None in Hn. lia.
Qed.

(** X4.  The torque arms are matched to the orientations by index: with
    fewer torque arms than orientations [get_max_thrust] raises an
    [IndexError] before any program is solved, and torque arms beyond the
    last orientation are never read. *)
Theorem torque_constraints_by_index
    (linprog : LinProg R -> result (OptimizeResult R))
    (os tcs : list (vec R)) (max_current : Z) :
  ((length tcs < length os)%nat ->
   get_max_thrust linprog os tcs max_current = Raise IndexError) /\
  ((length os <= length tcs)%nat ->
   get_max_thrust linprog os tcs max_current
   = get_max_thrust linprog os (firstn (length os) tcs) max_current).
Proof.
  split; intros Hlen; unfold get_max_thrust, with_constraints, enumerate.
  - rewrite with_constraints_short by lia. reflexivity.
  - rewrite !with_constraints_long by (rewrite ?length_firstn; lia).
    cbn [skipn]. rewrite combine_firstn_l. reflexivity.
Qed.

Lemma halves_length (f : vec R * vec R -> R) (cols : list (vec R * vec R)) :
  length (halves f cols) = (2 * length cols)%nat.
Proof.
  unfold halves. induction cols as [| col cols IH]; cbn [flat_map app length] in *; lia.
Qed.

(** X5.  Both programs are well formed, whatever the thrusters: the first
    has one variable per thruster and five equality rows of that length,
    the second two variables per thruster and six rows of that length, and
    each has one bound per variable. *)
Theorem programs_well_formed (cols : list (vec R * vec R)) (max_thrust : R) :
  let n := length cols in
  let p1 := max_thrust_problem cols in
  let p2 := min_current_problem cols max_thrust in
  (length (c p1) = n /\ length (A_eq p1) = 5%nat /\ length (b_eq p1) = 5%nat /\
   Forall (fun row => length row = n) (A_eq p1) /\
   length (bounds p1) = n /\ Forall (fun bd => length bd = 2%nat) (bounds p1)) /\
  (length (c p2) = (2 * n)%nat /\ length (A_eq p2) = 6%nat /\ length (b_eq p2) = 6%nat /\
   Forall (fun row => length row = (2 * n)%nat) (A_eq p2) /\
   length (bounds p2) = (2 * n)%nat /\ Forall (fun bd => length bd = 2%nat) (bounds p2)).
Proof.
  cbv zeta. unfold max_thrust_problem, min_current_problem. cbn [c A_eq b_eq bounds].
  split.
  - rewrite !length_map. repeat split.
    + repeat constructor; apply length_map.
    + apply Forall_map, Forall_forall. intros col _. reflexivity.
  - rewrite min_current_objective_length. repeat split.
    + repeat constructor; apply halves_length.
    + induction cols as [| col cols IH]; cbn [flat_map app length] in *; lia.
    + induction cols as [| col cols IH]; cbn [flat_map app]; repeat constructor.
      exact IH.
Qed.

Lemma dotl_scaled (a x : list R) (k : R) :
  dotl a (map (Rmult k) x) = k * dotl a x.
Proof.
  revert x. induction a as [| r a IH]; intros [| y x]; cbn [map].
  - unfold dotl. cbn. ring.
  - unfold dotl. cbn. ring.
  - rewrite !dotl_nil_r. ring.
  - rewrite !dotl_cons, IH. ring.
Qed.

Lemma Rmax_halves (y : R) : Rmax y 0 - Rmax (- y) 0 = y.
Proof.
  unfold Rmax. destruct (Rle_dec y 0), (Rle_dec (- y) 0); lra.
Qed.

Lemma halves_split (f : vec R * vec R -> R) (cols : list (vec R * vec R)) (y : list R) :
  dotl (halves f cols) (split_halves y) = dotl (map f cols) y.
Proof.
  revert y. induction cols as [| col cols IH]; intros [| y0 y].
  - reflexivity.
  - reflexivity.
  - cbn [map split_halves flat_map]. rewrite !dotl_nil_r. reflexivity.
  - unfold halves, split_halves. cbn [flat_map app map].
    fold (halves f cols). fold (split_halves y).
    rewrite !dotl_cons, IH. rarith. pose proof (Rmax_halves y0) as Hm. nra.
Qed.

Lemma split_halves_length (y : list R) : length (split_halves y) = (2 * length y)%nat.
Proof.
  unfold split_halves. induction y as [| y0 y IH]; cbn [flat_map app length] in *; lia.
Qed.

Lemma split_halves_within (cols : list (vec R * vec R)) (x : list R) :
  Forall2 within (map (fun _ => DEFAULT_MAX_THRUSTS) cols) x ->
  Forall2 within
    (flat_map (fun _ : vec R * vec R => [[0; 371 / 100]; [0; 290 / 100]]) cols)
    (split_halves (map (Rmult (999 / 1000)) x)).
Proof.
  revert x. induction cols as [| col cols IH]; intros x Hb; cbn [map] in Hb;
    inversion Hb as [| bd x0 bds x' Hw Hb' E1 E2]; subst.
  - constructor.
  - unfold split_halves. cbn [map flat_map app].
    fold (split_halves (map (Rmult (999 / 1000)) x')).
    cbn in Hw. unfold dec in Hw. rarith.
    constructor; [| constructor; [| exact (IH x' Hb')]]; cbn; unfold Rmax;
      destruct (Rle_dec _ 0); lra.
Qed.

(** X6.  The second program always has a feasible point when the first has
    one: a feasible allocation of the first program, scaled by 0.999 and
    split into forward and reverse halves, meets the bounds and the six
    equalities of the second program whose target is 0.999 times the
    thrust of that allocation. *)
Theorem min_current_problem_feasible (cols : list (vec R * vec R)) (x : list R) :
  feasible (max_thrust_problem cols) x ->
  feasible
    (min_current_problem cols (- (999 / 1000) * dotl (c (max_thrust_problem cols)) x))
    (split_halves (map (Rmult (999 / 1000)) x)).
Proof.
  unfold feasible, max_thrust_problem, min_current_problem.
  cbn [c A_eq b_eq bounds]. rarith. unfold dec. rarith.
  intros (Hlen & Hrows & Hb).
  inversion Hrows as [| r1 b1 rs1 bs1 H1 Hrows1 E1 E2]; subst.
  inversion Hrows1 as [| r2 b2 rs2 bs2 H2 Hrows2 E1 E2]; subst.
  inversion Hrows2 as [| r3 b3 rs3 bs3 H3 Hrows3 E1 E2]; subst.
  inversion Hrows3 as [| r4 b4 rs4 bs4 H4 Hrows4 E1 E2]; subst.
  inversion Hrows4 as [| r5 b5 rs5 bs5 H5 _ E1 E2]; subst.
  split; [| split].
  - rewrite split_halves_length, length_map, min_current_objective_length.
    rewrite Hlen, length_map. reflexivity.
  - repeat constructor; rewrite halves_split, dotl_scaled.
    + replace (map (fun '(o, _) => v0 o) cols)
        with (map (Ropp) (map (fun '(o, _) => - v0 o) cols)).
      * assert (Hneg : forall a y : list R, dotl (map Ropp a) y = - dotl a y).
        { induction a as [| r a IH]; intros [| y0 y]; cbn [map];
            rewrite ?dotl_nil_r, ?dotl_cons, ?IH; try (unfold dotl; cbn); ring. }
        rewrite Hneg. ring.
      * rewrite map_map. apply map_ext. intros [o t]. ring.
    + rewrite H1. ring.
    + rewrite H2. ring.
    + rewrite H3. ring.
    + rewrite H4. ring.
    + rewrite H5. ring.
  - apply split_halves_within. exact Hb.
Qed.

(** The theorem for the two opposed thrusters and the allocation
    (2, -2), whose thrust is 4: the halves are (1.998, 0) and (0, 1.998),
    and the target of the second program is 3.996. *)
Lemma min_current_problem_feasible_witness :
  feasible (max_thrust_problem opposed_cols) [2; -2] /\
  - (999 / 1000) * dotl (c (max_thrust_problem opposed_cols)) [2; -2] = 3996 / 1000 /\
  split_halves (map (Rmult (999 / 1000)) [2; -2]) = [1998 / 1000; 0; 0; 1998 / 1000] /\
  feasible
    (min_current_problem opposed_cols
       (- (999 / 1000) * dotl (c (max_thrust_problem opposed_cols)) [2; -2]))
    (split_halves (map (Rmult (999 / 1000)) [2; -2])).
Proof.
  assert (Hf : feasible (max_thrust_problem opposed_cols) [2; -2]).
  { unfold feasible, max_thrust_problem, opposed_cols.
    cbn [c A_eq b_eq bounds map length v0 v1 v2]. unfold DEFAULT_MAX_THRUSTS, dec.
    cbn [of_Z nadd nsub nmul ndiv nopp RArith].
    split; [reflexivity | split].
    - constructor; [unfold dotl; cbn; lra |].
      constructor; [unfold dotl; cbn; lra |].
      constructor; [unfold dotl; cbn; lra |].
      constructor; [unfold dotl; cbn; lra |].
      constructor; [unfold dotl; cbn; lra |].
      constructor.
    - constructor; [cbn; lra |]. constructor; [cbn; lra |]. constructor. }
  split; [exact Hf |].
  split.
  { unfold max_thrust_problem, opposed_cols, dotl.
    cbn [c map combine total fold_right fst snd v0].
    cbn [of_Z nadd nsub nmul ndiv nopp RArith]. lra. }
  split.
  { unfold split_halves. cbn [map flat_map app].
    replace (999 / 1000 * 2) with (1998 / 1000) by lra.
    replace (999 / 1000 * -2) with (- (1998 / 1000)) by lra.
    rewrite Ropp_involutive.
    rewrite (Rmax_left (1998 / 1000) 0) by lra.
    rewrite (Rmax_right (- (1998 / 1000)) 0) by lra.
    reflexivity. }
  apply (min_current_problem_feasible opposed_cols [2; -2]).
  exact Hf.
Defined.

(** ** get_max_thrust: what the derating returns *)

Lemma min_current_zero_feasible (cols : list (vec R * vec R)) :
  feasible (min_current_problem cols (- (999 / 1000) * 0))
           (repeat 0 (2 * length cols)).
Proof.
  unfold feasible, min_current_problem. cbn [c A_eq b_eq bounds]. rarith.
  split; [| split].
  - rewrite repeat_length, min_current_objective_length. reflexivity.
  - repeat constructor; rewrite dotl_zeros; ring.
  - induction cols as [| col cols IH]; cbn [flat_map app length repeat Nat.mul Nat.add].
    + constructor.
    + replace (length cols + S (length cols + 0))%nat with (S (2 * length cols)) by lia.
      cbn [repeat]. constructor; [| constructor; [| exact IH]];
        cbn; unfold dec; rarith; lra.
Qed.

Lemma ones_dot_zero (cols : list (vec R * vec R)) (x : list R) :
  Forall2 within
    (flat_map (fun _ : vec R * vec R => [[0; 371 / 100]; [0; 290 / 100]]) cols) x ->
  dotl (flat_map (fun _ : vec R * vec R => [1; 1]) cols) x <= 0 ->
  0 <= dotl (flat_map (fun _ : vec R * vec R => [1; 1]) cols) x /\
  (dotl (flat_map (fun _ : vec R * vec R => [1; 1]) cols) x = 0 ->
   Forall (fun t => t = 0) (combine_halves x)).
Proof.
  intros Hb _. revert x Hb. induction cols as [| col cols IH]; intros x Hb;
    cbn [flat_map app] in *.
  - inversion Hb; subst. split; [unfold dotl; cbn; lra | constructor].
  - inversion Hb as [| b0 x0 bs0 xs0 Hw0 Hb0 E1 E2]; subst.
    inversion Hb0 as [| b1 x1 bs1 xs1 Hw1 Hb1 E1 E2]; subst.
    destruct (IH xs1 Hb1) as [Hpos Hzero].
    rewrite !dotl_cons. cbn in Hw0, Hw1. cbn [combine_halves].
    split; [lra |]. intros Hsum. constructor.
    + rarith. lra.
    + apply Hzero. lra.
Qed.

Lemma fold_add_current_zero (a : list R) (p0 p1 p2 : R) :
  Forall (fun t => t = 0) a ->
  fst (fst (fold_left add_current a (p0, p1, p2))) = p0.
Proof.
  intros Hz. revert p0 p1 p2. induction Hz as [| t a Ht _ IH]; intros p0 p1 p2;
    cbn [fold_left]; [reflexivity |].
  subst t. unfold add_current at 2. rarith.
  replace (Rleb 0 0) with true by (symmetry; apply Rleb_true; lra).
  rewrite IH. ring.
Qed.

(** X7.  Along a direction in which no thrust is achievable, the result is
    not the thrust 0 but an exception: when an exact solver finds the
    optimum 0 for the first program and answers the second, the allocation
    is zero, the quadratic has no root and [get_max_thrust] raises the
    [ValueError] of [max] on an empty sequence, whatever the budget. *)
Theorem no_thrust_raises_value_error
    (linprog : LinProg R -> result (OptimizeResult R))
    (os tcs : list (vec R)) (max_current : Z)
    (cols : list (vec R * vec R)) (r1 r2 : OptimizeResult R) (x : list R) :
  sound linprog ->
  with_constraints os tcs = Ok cols ->
  linprog (max_thrust_problem cols) = Ok r1 -> res_fun r1 = Some 0 ->
  linprog (min_current_problem cols (- (999 / 1000) * 0)) = Ok r2 ->
  res_x r2 = Some x ->
  get_max_thrust linprog os tcs max_current = Raise ValueError.
Proof.
  intros Hsound Hc H1 Hf H2 Hx.
  rewrite (get_max_thrust_derate linprog os tcs max_current cols r1 r2 0 x Hc H1 Hf H2 Hx).
  pose proof (Hsound _ _ H2) as Ha. unfold answers in Ha. rewrite Hx in Ha.
  destruct (res_fun r2) as [f2 |]; [| contradiction].
  destruct Ha as (Hfeas & Hval & Hopt).
  pose proof (Hopt _ (min_current_zero_feasible cols)) as Hle.
  rewrite dotl_zeros in Hle. rewrite Hval in Hle.
  destruct Hfeas as (_ & _ & Hb).
  unfold min_current_problem in Hb, Hle. cbn [c bounds] in Hb, Hle.
  unfold dec in Hb. rarith.
  destruct (ones_dot_zero cols x Hb Hle) as [Hpos Hzero].
  assert (Hall : Forall (fun t => t = 0) (combine_halves x)) by (apply Hzero; lra).
  pose proof (derate_cases x os max_current) as Hd.
  pose proof (fold_add_current_zero (combine_halves x) 0 0 0 Hall) as Hq.
  unfold current_quadratic in Hd. rarith.
  destruct (fold_left add_current (combine_halves x) (0, 0, 0)) as [[q0 q1] q2].
  cbn [fst] in Hq. destruct Hd as [Hz _]. exact (Hz Hq).
Qed.

(** The solver of the run without thrust is exact. *)
Lemma sway_linprog_sound : sound sway_linprog.
Proof.
  intros lp r Hr. unfold sway_linprog in Hr.
  destruct (LinProg_eq_dec lp sway_problem_1) as [-> | _].
  - injection Hr as <-. unfold answers. cbn [res_fun res_x sway_answer_1].
    unfold optimum, feasible, sway_problem_1, sway_cols, max_thrust_problem.
    cbn [c A_eq b_eq bounds map v0 v1 v2 length]. unfold dec. rarith.
    repeat split.
    + repeat constructor; unfold dotl; cbn; lra.
    + repeat constructor; cbn; lra.
    + unfold dotl. cbn. lra.
    + intros y (Hlen & Hrows & _).
      destruct y as [| y0 [| y1 y]]; try discriminate.
      inversion Hrows as [| ra ba rsa bsa _ Hr1 E1 E2]; subst.
      inversion Hr1 as [| rb bb rsb bsb _ Hr2 E1 E2]; subst.
      inversion Hr2 as [| rc bc rsc bsc _ Hr3 E1 E2]; subst.
      inversion Hr3 as [| rd bd rsd bsd _ Hr4 E1 E2]; subst.
      inversion Hr4 as [| re be rse bse Hrow _ E1 E2]; subst.
      unfold dotl in *. cbn in *. lra.
  - destruct (LinProg_eq_dec lp sway_problem_2) as [-> | _]; [| discriminate].
    injection Hr as <-. unfold answers. cbn [res_fun res_x sway_answer_2].
    unfold optimum, feasible, sway_problem_2, sway_cols, min_current_problem, halves.
    cbn [c A_eq b_eq bounds flat_map app v0 v1 v2 length]. unfold dec. rarith.
    repeat split.
    + repeat constructor; unfold dotl; cbn; lra.
    + repeat constructor; cbn; lra.
    + unfold dotl. cbn. lra.
    + intros y (Hlen & _ & Hb).
      destruct y as [| y0 [| y1 [| y2 y]]]; try discriminate.
      inversion Hb as [| bd y0' bds y' Hw0 Hb' E1 E2]; subst.
      inversion Hb' as [| bd y1' bds y' Hw1 _ E1 E2]; subst.
      cbn in Hw0, Hw1. unfold dotl. cbn. lra.
Qed.

Lemma sway_linprog_1 : sway_linprog sway_problem_1 = Ok sway_answer_1.
Proof.
  unfold sway_linprog.
  destruct (LinProg_eq_dec sway_problem_1 sway_problem_1); [reflexivity | contradiction].
Qed.

Lemma sway_linprog_2 : sway_linprog sway_problem_2 = Ok sway_answer_2.
Proof.
  unfold sway_linprog.
  destruct (LinProg_eq_dec sway_problem_2 sway_problem_1) as [Heq | _].
  - exfalso. apply (f_equal (fun lp => length (c lp))) in Heq. discriminate.
  - destruct (LinProg_eq_dec sway_problem_2 sway_problem_2); [reflexivity | contradiction].
Qed.

(** The theorem for a thruster at (0, 1, 0) that pushes along x, sampled
    along x with the default budget. *)
Lemma no_thrust_raises_value_error_witness :
  get_max_thrust sway_linprog [Vec 1 0 0] [Vec 0 0 (-1)] 22 = Raise ValueError.
Proof.
  apply (no_thrust_raises_value_error sway_linprog [Vec 1 0 0] [Vec 0 0 (-1)] 22
           sway_cols sway_answer_1 sway_answer_2 [0; 0]
           sway_linprog_sound eq_refl sway_linprog_1 eq_refl sway_linprog_2 eq_refl).
Defined.

(** At a positive scale, the accumulated quadratic is the current of the
    scaled allocation. *)
Lemma fold_add_current_scaled (m : R) (a : list R) (p0 p1 p2 : R) :
  0 < m ->
  let '(r0, r1, r2) := fold_left add_current a (p0, p1, p2) in
  r0 * (m * m) + r1 * m + r2
  = p0 * (m * m) + p1 * m + p2 + total (map default_current (map (Rmult m) a)).
Proof.
  intros Hm. revert p0 p1 p2.
  induction a as [| t a IH]; intros p0 p1 p2; cbn [fold_left map total fold_right].
  - lra.
  - fold (total (map default_current (map (Rmult m) a))).
    unfold add_current at 2. rarith. cbn [DEFAULT_FWD_CURRENT DEFAULT_REV_CURRENT nth].
    unfold default_current at 1, current_draw.
    cbn [DEFAULT_FWD_CURRENT DEFAULT_REV_CURRENT nth]. unfold dec. rarith.
    destruct (Rleb 0 t) eqn:Ht.
    + apply Rleb_true in Ht.
      destruct (Rle_dec 0 (m * t)) as [_ | Hn]; [| exfalso; apply Hn; nra].
      specialize (IH (p0 + 741 / 1000 * (t * t)) (p1 + 189 / 100 * t) (p2 + -278 / 1000)).
      destruct (fold_left add_current a _) as [[r0 r1] r2].
      rewrite IH, Rabs_sqr_eq, (Rabs_right (m * t)) by nra. ring.
    + apply Rleb_false in Ht.
      destruct (Rle_dec 0 (m * t)) as [Hn | _]; [exfalso; nra |].
      specialize (IH (p0 + 136 / 100 * (- t * - t)) (p1 + 204 / 100 * - t)
                     (p2 + -231 / 1000)).
      destruct (fold_left add_current a _) as [[r0 r1] r2].
      rewrite IH, Rabs_sqr_eq, (Rabs_left (m * t)) by nra. ring.
Qed.

Lemma larger_root_is_root (a b c : R) :
  0 < a -> 0 <= discriminant a b c ->
  a * (larger_root a b c * larger_root a b c) + b * larger_root a b c + c = 0.
Proof.
  intros Ha Hd. pose proof (sqrt_sqrt _ Hd) as Hs. unfold larger_root.
  set (s := sqrt (discriminant a b c)) in *. unfold discriminant in Hs.
  replace (a * ((- b + s) / (2 * a) * ((- b + s) / (2 * a))) + b * ((- b + s) / (2 * a)) + c)
    with ((s * s - (b * b - 4 * a * c)) / (4 * a)) by (field; lra).
  rewrite Hs. field. lra.
Qed.

(** The thrust that is derated is the target of the second program. *)
Lemma thrust_value_target
    (linprog : LinProg R -> result (OptimizeResult R))
    (os tcs : list (vec R))
    (cols : list (vec R * vec R)) (r2 : OptimizeResult R) (m : R) (x : list R) :
  sound linprog ->
  with_constraints os tcs = Ok cols ->
  linprog (min_current_problem cols m) = Ok r2 -> res_x r2 = Some x ->
  thrust_sum 0 (combine_halves x) os 0 = Ok m.
Proof.
  intros Hsound Hc H2 Hx.
  pose proof (with_constraints_fst os tcs cols Hc) as Hos.
  pose proof (Hsound _ _ H2) as Ha2. unfold answers in Ha2. rewrite Hx in Ha2.
  destruct (res_fun r2) as [f2 |]; [| contradiction].
  destruct Ha2 as (Hfeas2 & _ & _).
  destruct (min_current_feasible cols _ x Hfeas2) as [Hlen Hrow].
  pose proof (thrust_sum_dot (combine_halves x) [] os 0) as Hsum.
  cbn [length app] in Hsum. rewrite Hsum.
  - f_equal. rewrite <- Hos at 1. rewrite map_map.
    rewrite (map_ext (fun col => v0 (fst col)) (fun '(o, _) => v0 o))
      by (intros [o t]; reflexivity).
    rewrite halves_dot by exact Hlen. rewrite Hrow. ring.
  - rewrite (combine_halves_length x (length cols) Hlen).
    rewrite <- Hos, length_map. lia.
Qed.

(** X8.  With an exact solver and a budget that is not negative, what
    [get_max_thrust] returns is 0.999 times the optimum of the first
    program times a scale [m] with [0 < m <= 1], and the allocation of the
    second program scaled by [m] draws at most the budget: exactly the
    budget when [m < 1], and [m] is 1 when the unscaled allocation is
    within the budget. *)
Theorem derated_allocation_within_budget
    (linprog : LinProg R -> result (OptimizeResult R))
    (os tcs : list (vec R)) (max_current : Z)
    (cols : list (vec R * vec R)) (r1 r2 : OptimizeResult R) (f : R) (x : list R)
    (p : pynum R) :
  sound linprog ->
  (0 <= max_current)%Z ->
  with_constraints os tcs = Ok cols ->
  linprog (max_thrust_problem cols) = Ok r1 -> res_fun r1 = Some f ->
  linprog (min_current_problem cols (- (999 / 1000) * f)) = Ok r2 -> res_x r2 = Some x ->
  get_max_thrust linprog os tcs max_current = Ok p ->
  exists m : R,
    0 < m <= 1 /\
    p = PyFloat (- (999 / 1000) * f * m) /\
    total (map default_current (map (Rmult m) (combine_halves x))) <= IZR max_current /\
    (m < 1 ->
     total (map default_current (map (Rmult m) (combine_halves x))) = IZR max_current) /\
    (total (map default_current (combine_halves x)) <= IZR max_current -> m = 1).
Proof.
  intros Hsound Hbudget Hc H1 Hf H2 Hx Hrun.
  rewrite (get_max_thrust_derate linprog os tcs max_current cols r1 r2 f x Hc H1 Hf H2 Hx)
    in Hrun.
  pose proof (thrust_value_target linprog os tcs cols r2 _ x Hsound Hc H2 Hx) as Htv.
  pose proof (derate_cases x os max_current) as Hd.
  pose proof (current_quadratic_signs (combine_halves x)) as Hs.
  assert (Hsc : forall m : R, 0 < m ->
            let '(q0, q1, q2) := current_quadratic (combine_halves x) in
            total (map default_current (map (Rmult m) (combine_halves x)))
            = q0 * (m * m) + q1 * m + q2).
  { intros m Hm. pose proof (fold_add_current_scaled m (combine_halves x) 0 0 0 Hm) as Hq.
    unfold current_quadratic. rarith.
    destruct (fold_left add_current (combine_halves x) (0, 0, 0)) as [[q0 q1] q2]. lra. }
  destruct (current_quadratic (combine_halves x)) as [[q0 q1] q2].
  destruct Hs as (Hq0 & Hq1 & _ & _ & Hq2). destruct Hd as [Hz Hp].
  destruct Hq0 as [Ha | Hzero]; [| rewrite (Hz (eq_sym Hzero)) in Hrun; discriminate].
  rewrite (Hp Ha), Htv in Hrun. cbn [bind] in Hrun. unfold derated in Hrun.
  apply IZR_le in Hbudget. specialize (Hq2 Ha).
  set (c := q2 - IZR max_current) in *.
  destruct (larger_root_pos q0 q1 c Ha Hq1 ltac:(unfold c; lra)) as [Hdisc Hroot].
  destruct (Rlt_dec _ 0) as [Hn | _]; [lra |].
  injection Hrun as <-.
  pose proof (larger_root_is_root q0 q1 c Ha ltac:(lra)) as Heq.
  set (r := larger_root q0 q1 c) in *.
  exists (Rmin 1 r).
  assert (Hmin : 0 < Rmin 1 r <= 1) by (split; [apply Rmin_glb_lt; lra | apply Rmin_l]).
  pose proof (Hsc (Rmin 1 r) (proj1 Hmin)) as Hcur.
  pose proof (Hsc 1 Rlt_0_1) as Hfull.
  replace (map (Rmult 1) (combine_halves x)) with (combine_halves x) in Hfull
    by (rewrite <- (map_id (combine_halves x)) at 1; apply map_ext; intros t; ring).
  split; [exact Hmin | split; [reflexivity |]].
  rewrite Hcur. unfold Rmin in *. destruct (Rle_dec 1 r) as [Hge | Hlt].
  - assert (Hsq : 0 <= q0 * (r * r - 1)) by (apply Rmult_le_pos; nra).
    assert (Hli : 0 <= q1 * (r - 1)) by (apply Rmult_le_pos; lra).
    split; [| split]; [unfold c in Heq; lra | lra | reflexivity].
  - split; [| split]; [unfold c in Heq; lra | unfold c in Heq; lra |].
    intros Hwithin. exfalso. rewrite Hfull in Hwithin. unfold c in Heq.
    assert (Hsq : 0 < q0 * (1 - r * r)) by (apply Rmult_lt_0_compat; nra).
    assert (Hli : 0 <= q1 * (1 - r)) by (apply Rmult_le_pos; lra).
    lra.
Qed.

(** The theorem for the surge thruster and the budget 10, which it
    exceeds at full thrust. *)
Lemma derated_allocation_within_budget_witness :
  exists m : R,
    0 < m <= 1 /\
    derated surge_thrust surge_a surge_b (surge_c - IZR 10)
    = PyFloat (- (999 / 1000) * - (371 / 100) * m) /\
    total (map default_current (map (Rmult m) (combine_halves [surge_max_thrust; 0])))
    <= IZR 10 /\
    (m < 1 ->
     total (map default_current (map (Rmult m) (combine_halves [surge_max_thrust; 0])))
     = IZR 10) /\
    (total (map default_current (combine_halves [surge_max_thrust; 0])) <= IZR 10 ->
     m = 1).
Proof.
  apply (derated_allocation_within_budget surge_linprog [Vec 1 0 0] [Vec 0 0 0] 10
           surge_cols surge_answer_1 surge_answer_2 (- (371 / 100)) [surge_max_thrust; 0]
           _ surge_linprog_sound ltac:(lia) eq_refl surge_linprog_1 eq_refl
           surge_linprog_2 eq_refl (get_max_thrust_surge 10)).
Defined.

(** ** The sweep *)

Lemma Forall2_nth_error {A B : Type} (P : A -> B -> Prop) (l : list A) (l' : list B)
    (i : nat) (a : A) :
  Forall2 P l l' -> nth_error l i = Some a ->
  exists b : B, nth_error l' i = Some b /\ P a b.
Proof.
  intros Hf. revert i. induction Hf as [| a0 b0 l l' Hab _ IH]; intros [| i] Hn;
    cbn in Hn; try discriminate.
  - injection Hn as <-. exists b0. split; [reflexivity | exact Hab].
  - exact (IH i Hn).
Qed.

Lemma sample_inv (linprog : LinProg R -> result (OptimizeResult R))
    (thrusters : list (Thruster3D R)) (tcs : list (vec R)) (max_current : Z)
    (u v : R) (s : cell) :
  sample linprog thrusters tcs max_current u v = Ok s ->
  cell_dir s = Vec (cos v) (sin u * sin v) (cos u * sin v).
Proof.
  unfold sample. intros Hs.
  destruct (transform_orientations _ _) as [os | e]; cbn [bind] in Hs; [| discriminate].
  destruct (get_max_thrust _ _ _ _) as [rho | e]; cbn [bind] in Hs; [| discriminate].
  injection Hs as <-. reflexivity.
Qed.

(** X9.  The mesh is a radial function of the direction: every sampled
    direction is a unit vector, and the mesh point stored for a cell with a
    real thrust [rho] is the direction times [rho], at distance [|rho|]
    from the origin. *)
Theorem mesh_is_radial
    (linprog : LinProg R -> result (OptimizeResult R))
    (thrusters : list (Thruster3D R)) (resolution max_current : Z)
    (mesh : list (list cell)) :
  sweep linprog thrusters resolution max_current = Ok mesh ->
  forall row : list cell, In row mesh ->
  forall s : cell, In s row ->
  dot (cell_dir s) (cell_dir s) = 1 /\
  forall rho : R, cell_rho s = PyFloat rho ->
    mesh_point s = vmap (fun x => x * rho) (cell_dir s) /\
    norm (mesh_point s) = Rabs rho.
Proof.
  intros Hsweep row Hrow s Hs. unfold sweep in Hsweep.
  destruct (mapM_In _ _ _ _ Hsweep Hrow) as (u & _ & Hu).
  destruct (mapM_In _ _ _ _ Hu Hs) as (v & _ & Hv).
  pose proof (sample_inv _ _ _ _ _ _ _ Hv) as Hdir.
  pose proof (direction_unit u v) as Hunit. rewrite <- Hdir in Hunit.
  split; [exact Hunit |]. intros rho Hrho.
  assert (Hpoint : mesh_point s = vmap (fun x => x * rho) (cell_dir s)).
  { unfold mesh_point. rewrite Hrho. reflexivity. }
  split; [exact Hpoint |]. rewrite Hpoint. unfold norm. rarith.
  destruct (cell_dir s) as [x y z]. revert Hunit. cbv [dot vmap v0 v1 v2]. rarith.
  intros Hunit.
  replace (x * rho * (x * rho) + y * rho * (y * rho) + z * rho * (z * rho))
    with ((x * x + y * y + z * z) * Rsqr rho) by (unfold Rsqr; ring).
  rewrite Hunit, Rmult_1_l. apply sqrt_Rsqr_abs.
Qed.

Lemma sweep_surge_22 :
  sweep surge_linprog [surge_thruster] 2 22
  = Ok [[surge_cell surge_thrust]; [surge_cell surge_thrust]].
Proof.
  apply (sweep_surge surge_linprog surge_thruster 22 _ eq_refl eq_refl).
  exact get_max_thrust_surge_22.
Qed.

(** The theorem for the sweep of the surge thruster at resolution 2. *)
Lemma mesh_is_radial_witness :
  dot (cell_dir (surge_cell surge_thrust)) (cell_dir (surge_cell surge_thrust)) = 1 /\
  forall rho : R, cell_rho (surge_cell surge_thrust) = PyFloat rho ->
    mesh_point (surge_cell surge_thrust)
    = vmap (fun x => x * rho) (cell_dir (surge_cell surge_thrust)) /\
    norm (mesh_point (surge_cell surge_thrust)) = Rabs rho.
Proof.
  apply (mesh_is_radial surge_linprog [surge_thruster] 2 22 _ sweep_surge_22
           [surge_cell surge_thrust] ltac:(left; reflexivity)
           (surge_cell surge_thrust) ltac:(left; reflexivity)).
Defined.

Lemma sample_full_turn (linprog : LinProg R -> result (OptimizeResult R))
    (thrusters : list (Thruster3D R)) (tcs : list (vec R)) (max_current : Z) (v : R) :
  sample linprog thrusters tcs max_current (2 * PI) v
  = sample linprog thrusters tcs max_current 0 v.
Proof. unfold sample. rewrite cos_2PI, sin_2PI, cos_0, sin_0. reflexivity. Qed.

(** X10.  With at least two longitudes, the last longitude is a full turn
    from the first: the last row of the mesh repeats the first row. *)
Theorem last_row_repeats_first
    (linprog : LinProg R -> result (OptimizeResult R))
    (thrusters : list (Thruster3D R)) (resolution max_current : Z)
    (mesh : list (list cell)) :
  (2 <= Z.abs resolution)%Z ->
  sweep linprog thrusters resolution max_current = Ok mesh ->
  exists row : list cell,
    nth_error mesh 0 = Some row /\
    nth_error mesh (Z.to_nat (Z.abs resolution) - 1) = Some row.
Proof.
  intros Hres Hsweep. unfold sweep in Hsweep. apply mapM_Forall2 in Hsweep.
  destruct (Forall2_nth_error _ _ _ _ _ Hsweep
              (mgrid_axis_first (2 * PI) (count_u resolution) ltac:(unfold count_u; lia)))
    as (row0 & Hn0 & Hrow0).
  destruct (Forall2_nth_error _ _ _ _ _ Hsweep
              (mgrid_axis_last (2 * PI) (count_u resolution) Hres))
    as (row1 & Hn1 & Hrow1).
  exists row0. split; [exact Hn0 |].
  unfold count_u in Hn1. rewrite Hn1. f_equal.
  rewrite (mapM_ext _ (fun v => sample linprog thrusters (map torque thrusters)
                                  max_current 0 v)) in Hrow1
    by (intros v; apply sample_full_turn).
  congruence.
Qed.

(** The theorem for the sweep of the surge thruster at resolution 2. *)
Lemma last_row_repeats_first_witness :
  exists row : list cell,
    nth_error [[surge_cell surge_thrust]; [surge_cell surge_thrust]] 0 = Some row /\
    nth_error [[surge_cell surge_thrust]; [surge_cell surge_thrust]]
              (Z.to_nat (Z.abs 2) - 1) = Some row.
Proof.
  apply (last_row_repeats_first surge_linprog [surge_thruster] 2 22 _ ltac:(cbn; lia)
           sweep_surge_22).
Defined.

(** X11.  The sign of the resolution is not read, and a resolution of 0,
    1 or -1 samples no direction: the sweep then returns a mesh without
    cells (no row, or one empty row), solves no program and raises
    nothing. *)
Theorem degenerate_resolutions
    (linprog : LinProg R -> result (OptimizeResult R))
    (thrusters : list (Thruster3D R)) (resolution max_current : Z) :
  sweep linprog thrusters (- resolution) max_current
  = sweep linprog thrusters resolution max_current /\
  ((Z.abs resolution <= 1)%Z ->
   sweep linprog thrusters resolution max_current
   = Ok (repeat [] (Z.to_nat (Z.abs resolution)))).
Proof.
  split.
  - unfold sweep, count_u, count_v. rewrite Z.abs_opp. reflexivity.
  - intros Hres. unfold sweep, count_u, count_v.
    assert (Hcases : Z.abs resolution = 0%Z \/ Z.abs resolution = 1%Z) by lia.
    destruct Hcases as [-> | ->].
    + reflexivity.
    + change (1 / 2)%Z with 0%Z. rewrite mgrid_axis_1. reflexivity.
Qed.

Lemma sample_pole (linprog : LinProg R -> result (OptimizeResult R))
    (thrusters : list (Thruster3D R)) (tcs : list (vec R)) (max_current : Z) (u : R) :
  sample linprog thrusters tcs max_current u 0
  = (os <- transform_orientations thrusters (Vec 1 0 0) ;;
     rho <- get_max_thrust linprog os tcs max_current ;;
     Ok {| cell_dir := Vec 1 0 0; cell_rho := rho |}).
Proof. unfold sample. rewrite sin_0, cos_0, !Rmult_0_r. reflexivity. Qed.

(** X12.  The colatitude is measured from the x axis: the first cell of
    every row of the mesh is the sample of the direction (1, 0, 0), the
    same cell for every longitude. *)
Theorem first_column_is_the_pole
    (linprog : LinProg R -> result (OptimizeResult R))
    (thrusters : list (Thruster3D R)) (resolution max_current : Z)
    (mesh : list (list cell)) :
  sweep linprog thrusters resolution max_current = Ok mesh ->
  forall row : list cell, In row mesh ->
  forall s : cell, nth_error row 0 = Some s ->
  cell_dir s = Vec 1 0 0 /\
  forall row' : list cell, In row' mesh -> nth_error row' 0 = Some s.
Proof.
  intros Hsweep.
  assert (Hhead : forall row : list cell, In row mesh ->
            forall s : cell, nth_error row 0 = Some s ->
            (os <- transform_orientations thrusters (Vec 1 0 0) ;;
             rho <- get_max_thrust linprog os (map torque thrusters) max_current ;;
             Ok {| cell_dir := Vec 1 0 0; cell_rho := rho |}) = Ok s).
  { intros row Hrow s Hs. unfold sweep in Hsweep.
    destruct (mapM_In _ _ _ _ Hsweep Hrow) as (u & _ & Hu).
    apply mapM_Forall2 in Hu.
    destruct (mgrid_axis PI (count_v resolution)) as [| v vs] eqn:Haxis.
    - inversion Hu; subst. discriminate.
    - assert (Hv : v = 0).
      { assert (Hc : (1 <= count_v resolution)%Z).
        { pose proof (mgrid_axis_length PI (count_v resolution)) as Hl.
          rewrite Haxis in Hl. cbn [length] in Hl. lia. }
        pose proof (mgrid_axis_first PI (count_v resolution) Hc) as Hf.
        rewrite Haxis in Hf. cbn in Hf. congruence. }
      subst v. inversion Hu as [| v0' s0 vs' row' Hs0 _ E1 E2]; subst.
      cbn in Hs. injection Hs as ->. rewrite <- sample_pole with (u := u). exact Hs0. }
  intros row Hrow s Hs. pose proof (Hhead row Hrow s Hs) as Hcell. split.
  - destruct (transform_orientations thrusters (Vec 1 0 0)) as [os | e];
      cbn [bind] in Hcell; [| discriminate].
    destruct (get_max_thrust _ _ _ _) as [rho | e]; cbn [bind] in Hcell; [| discriminate].
    injection Hcell as <-. reflexivity.
  - intros row' Hrow'. unfold sweep in Hsweep.
    destruct (mapM_In _ _ _ _ Hsweep Hrow') as (u' & _ & Hu').
    destruct (mapM_In _ _ _ _ Hsweep Hrow) as (u & _ & Hu).
    pose proof (mapM_length _ _ _ Hu) as Hl. pose proof (mapM_length _ _ _ Hu') as Hl'.
    destruct row' as [| s' row'].
    + destruct row; [discriminate |]. cbn [length] in Hl, Hl'. lia.
    + cbn. f_equal. pose proof (Hhead (s' :: row') Hrow' s' eq_refl) as Hcell'.
      congruence.
Qed.

(** The theorem for the sweep of the surge thruster at resolution 2. *)
Lemma first_column_is_the_pole_witness :
  cell_dir (surge_cell surge_thrust) = Vec 1 0 0 /\
  forall row' : list cell,
    In row' [[surge_cell surge_thrust]; [surge_cell surge_thrust]] ->
    nth_error row' 0 = Some (surge_cell surge_thrust).
Proof.
  apply (first_column_is_the_pole surge_linprog [surge_thruster] 2 22 _ sweep_surge_22
           [surge_cell surge_thrust] ltac:(left; reflexivity)
           (surge_cell surge_thrust) eq_refl).
Defined.

(** ** The thruster file *)

Import Loader.









(** ** calc_max_yaw_pitch_roll *)

Section YawPitchRollErrors.

Context {num : Type} `{Arith num}.

Lemma with_thrusters_short (s : nat) (tcs : list (vec num)) (thrusters : list (Thruster3D num)) :
  (s <= length thrusters)%nat -> (length thrusters < s + length tcs)%nat ->
  mapM (fun '(i, t) => thruster <- index thrusters i ;; Ok (t, thruster))
       (combine (seq s (length tcs)) tcs) = Raise IndexError.
Proof.
  revert s. induction tcs as [| t tcs IH]; intros s Hs Hlen; cbn [length] in Hlen; [lia |].
  cbn [length seq combine mapM]. unfold index at 1.
  destruct (nth_error thrusters s) as [th |] eqn:Hn; cbn [bind]; [| reflexivity].
  assert (s < length thrusters)%nat by (apply nth_error_Some; congruence).
  rewrite IH by lia. reflexivity.
Qed.

(** X14.  [calc_max_yaw_pitch_roll] on no torque constraint raises an
    [UnboundLocalError], because [torques] is assigned only inside the
    first loop, and on more torque constraints than thrusters an
    [IndexError]; in both cases nothing is printed and no program is
    solved. *)
Theorem yaw_pitch_roll_errors
    (linprog : LinProg num -> result (OptimizeResult num))
    (thrusters : list (Thruster3D num)) (torque_constraints : list (vec num)) :
  calc_max_yaw_pitch_roll linprog thrusters [] = ([], Raise UnboundLocalError) /\
  ((length thrusters < length torque_constraints)%nat ->
   calc_max_yaw_pitch_roll linprog thrusters torque_constraints = ([], Raise IndexError)).
Proof.
  split; [reflexivity |]. intros Hlen.
  unfold calc_max_yaw_pitch_roll, with_thrusters, enumerate.
  rewrite with_thrusters_short by lia. reflexivity.
Qed.

End YawPitchRollErrors.

Lemma yaw_pitch_roll_zero_feasible (cols : list (vec R * Thruster3D R)) (i : nat) :
  (i < 3)%nat -> feasible (yaw_pitch_roll_problem cols i) (repeat 0 (length cols)).
Proof.
  intros Hi.
  unfold feasible, yaw_pitch_roll_problem. cbn [c A_eq b_eq bounds]. rarith.
  split; [| split].
  - rewrite repeat_length.
    destruct i as [| [| [| i]]]; [| | | lia]; cbn [nth]; rewrite length_map; reflexivity.
  - repeat constructor; apply dotl_zeros.
  - induction cols as [| col cols IH]; cbn [map repeat length]; constructor.
    + exact within_default_zero.
    + exact IH.
Qed.

Lemma solve_axes_inv (linprog : LinProg R -> result (OptimizeResult R))
    (axes : list nat) (cols : list (vec R * Thruster3D R))
    (printed0 printed : list (OptimizeResult R)) :
  solve_axes linprog axes cols printed0 = (printed, Ok tt) ->
  exists rs : list (OptimizeResult R),
    printed = printed0 ++ rs /\
    Forall2 (fun i r => linprog (yaw_pitch_roll_problem cols i) = Ok r) axes rs.
Proof.
  revert printed0. induction axes as [| i axes IH]; intros printed0 Hs; cbn [solve_axes] in Hs.
  - injection Hs as <-. exists []. split; [symmetry; apply app_nil_r | constructor].
  - destruct (linprog (yaw_pitch_roll_problem cols i)) as [r | e] eqn:Hr; [| discriminate].
    destruct (IH _ Hs) as (rs & -> & Hf). exists (r :: rs). split.
    + rewrite <- app_assoc. reflexivity.
    + constructor; assumption.
Qed.

(** X15.  When [calc_max_yaw_pitch_roll] returns, it has printed three
    answers, one per axis in the order x, y, z, each the answer of the
    program of its axis; that program minimises the torque about the axis
    (the objective is not negated), so with an exact solver no printed
    optimum is positive. *)
Theorem yaw_pitch_roll_prints_minima
    (linprog : LinProg R -> result (OptimizeResult R))
    (thrusters : list (Thruster3D R)) (torque_constraints : list (vec R))
    (printed : list (OptimizeResult R)) :
  sound linprog ->
  calc_max_yaw_pitch_roll linprog thrusters torque_constraints = (printed, Ok tt) ->
  exists cols : list (vec R * Thruster3D R),
    with_thrusters thrusters torque_constraints = Ok cols /\
    Forall2 (fun i r => linprog (yaw_pitch_roll_problem cols i) = Ok r)
            [0; 1; 2]%nat printed /\
    Forall (fun r => forall f : R, res_fun r = Some f -> f <= 0) printed.
Proof.
  intros Hsound Hrun. unfold calc_max_yaw_pitch_roll in Hrun.
  destruct (with_thrusters thrusters torque_constraints) as [cols | e]; [| discriminate].
  assert (Hsolve : solve_axes linprog (seq 0 3) cols [] = (printed, Ok tt)).
  { destruct cols; [discriminate | exact Hrun]. }
  clear Hrun. destruct (solve_axes_inv linprog _ cols [] printed Hsolve) as (rs & -> & Hf).
  cbn [app seq] in *. exists cols. split; [reflexivity | split; [exact Hf |]].
  assert (Hle : forall (i : nat) (r : OptimizeResult R), (i < 3)%nat ->
            linprog (yaw_pitch_roll_problem cols i) = Ok r ->
            forall f : R, res_fun r = Some f -> f <= 0).
  { intros i r Hi Hr f Hfun. pose proof (Hsound _ _ Hr) as Ha. unfold answers in Ha.
    rewrite Hfun in Ha. destruct (res_x r) as [x |]; [| contradiction].
    destruct Ha as (_ & _ & Hopt).
    pose proof (Hopt _ (yaw_pitch_roll_zero_feasible cols i Hi)) as Hz.
    rewrite dotl_zeros in Hz. exact Hz. }
  inversion Hf as [| i0 r0 l0 l0' H0 Hf1 E1 E2]; subst.
  inversion Hf1 as [| i1 r1 l1 l1' H1' Hf2 E1 E2]; subst.
  inversion Hf2 as [| i2 r2 l2 l2' H2' Hf3 E1 E2]; subst.
  inversion Hf3; subst.
  constructor; [exact (Hle 0%nat r0 ltac:(lia) H0) |].
  constructor; [exact (Hle 1%nat r1 ltac:(lia) H1') |].
  constructor; [exact (Hle 2%nat r2 ltac:(lia) H2') | constructor].
Qed.

Lemma still_linprog_sound : sound still_linprog.
Proof.
  intros lp r Hr. unfold still_linprog in Hr.
  destruct (LinProg_eq_dec lp still_problem) as [-> | _]; [| discriminate].
  injection Hr as <-. unfold answers. cbn [res_fun res_x still_answer].
  unfold optimum, feasible, still_problem, still_cols, yaw_pitch_roll_problem, pop.
  cbn [c A_eq b_eq bounds map v0 v1 v2 length nth firstn skipn app orientation
       surge_thruster].
  unfold dec. rarith.
  repeat split.
  - repeat constructor; unfold dotl; cbn; lra.
  - repeat constructor; cbn; lra.
  - unfold dotl. cbn. lra.
  - intros y (Hlen & _ & _).
    destruct y as [| y0 [| y1 y]]; try discriminate. unfold dotl. cbn. lra.
Qed.

Lemma still_run :
  calc_max_yaw_pitch_roll still_linprog [surge_thruster] [Vec 0 0 0]
  = ([still_answer; still_answer; still_answer], Ok tt).
Proof.
  unfold calc_max_yaw_pitch_roll. cbn [with_thrusters enumerate length seq combine mapM
    index nth_error bind]. fold still_cols. cbn [solve_axes seq].
  change (yaw_pitch_roll_problem still_cols 1) with still_problem.
  change (yaw_pitch_roll_problem still_cols 2) with still_problem.
  fold still_problem. unfold still_linprog.
  destruct (LinProg_eq_dec still_problem still_problem); [reflexivity | contradiction].
Qed.

(** The theorem for the surge thruster, whose torque arm is zero. *)
Lemma yaw_pitch_roll_prints_minima_witness :
  exists cols : list (vec R * Thruster3D R),
    with_thrusters [surge_thruster] [Vec 0 0 0] = Ok cols /\
    Forall2 (fun i r => still_linprog (yaw_pitch_roll_problem cols i) = Ok r)
            [0; 1; 2]%nat [still_answer; still_answer; still_answer] /\
    Forall (fun r => forall f : R, res_fun r = Some f -> f <= 0)
           [still_answer; still_answer; still_answer].
Proof.
  apply (yaw_pitch_roll_prints_minima still_linprog [surge_thruster] [Vec 0 0 0] _
           still_linprog_sound still_run).
Defined.

(** ** The running maximum *)

Lemma py_gt_floats (a b : R) : py_gt (PyFloat a) (PyFloat b) = Rltb b a.
Proof.
  unfold py_gt, clt, as_complex. cbn [fst snd]. rarith.
  rewrite (Rltb_ge 0 0) by lra. rewrite andb_false_r, orb_false_r. reflexivity.
Qed.

Lemma max_rho_row (row : list cell) (m0 : R) :
  Forall (fun s => exists rho : R, cell_rho s = PyFloat rho) row ->
  exists m : R,
    fold_left (fun m s => if py_gt (cell_rho s) m then cell_rho s else m) row (PyFloat m0)
    = PyFloat m /\
    m0 <= m /\
    (forall (s : cell) (rho : R), In s row -> cell_rho s = PyFloat rho -> rho <= m) /\
    (m = m0 \/ exists s : cell, In s row /\ cell_rho s = PyFloat m).
Proof.
  intros Hreal. revert m0. induction Hreal as [| s row [rho Hrho] _ IH]; intros m0;
    cbn [fold_left].
  - exists m0. repeat split; [lra | intros s rho [] | left; reflexivity].
  - rewrite Hrho, py_gt_floats.
    destruct (Rltb m0 rho) eqn:Hlt.
    + apply Rltb_true in Hlt. destruct (IH rho) as (m & Hm & Hle & Hall & Hsome).
      exists m. split; [exact Hm | split; [lra | split]].
      * intros s' rho' [<- | Hin] Hs'; [| exact (Hall s' rho' Hin Hs')].
        rewrite Hrho in Hs'. injection Hs' as <-. exact Hle.
      * right. destruct Hsome as [-> | (s' & Hin & Hs')].
        -- exists s. split; [left; reflexivity | exact Hrho].
        -- exists s'. split; [right; exact Hin | exact Hs'].
    + apply Rltb_false in Hlt. destruct (IH m0) as (m & Hm & Hle & Hall & Hsome).
      exists m. split; [exact Hm | split; [exact Hle | split]].
      * intros s' rho' [<- | Hin] Hs'; [| exact (Hall s' rho' Hin Hs')].
        rewrite Hrho in Hs'. injection Hs' as <-. lra.
      * destruct Hsome as [-> | (s' & Hin & Hs')]; [left; reflexivity |].
        right. exists s'. split; [right; exact Hin | exact Hs'].
Qed.

Lemma max_rho_from (mesh : list (list cell)) (m0 : R) :
  Forall (Forall (fun s => exists rho : R, cell_rho s = PyFloat rho)) mesh ->
  exists m : R,
    fold_left
      (fun max_rho row =>
         fold_left (fun m s => if py_gt (cell_rho s) m then cell_rho s else m) row max_rho)
      mesh (PyFloat m0)
    = PyFloat m /\
    m0 <= m /\
    (forall (row : list cell) (s : cell) (rho : R),
        In row mesh -> In s row -> cell_rho s = PyFloat rho -> rho <= m) /\
    (m = m0 \/
     exists (row : list cell) (s : cell), In row mesh /\ In s row /\ cell_rho s = PyFloat m).
Proof.
  intros Hreal. revert m0. induction Hreal as [| row mesh Hrow _ IH]; intros m0;
    cbn [fold_left].
  - exists m0. repeat split; [lra | intros row s rho [] | left; reflexivity].
  - destruct (max_rho_row row m0 Hrow) as (m1 & -> & Hle1 & Hall1 & Hsome1).
    destruct (IH m1) as (m & Hm & Hle & Hall & Hsome).
    exists m. split; [exact Hm | split; [lra | split]].
    + intros row' s rho [<- | Hin] Hs Hrho.
      * pose proof (Hall1 s rho Hs Hrho). lra.
      * exact (Hall row' s rho Hin Hs Hrho).
    + destruct Hsome as [-> | (row' & s & Hin & Hs & Hrho)].
      * destruct Hsome1 as [-> | (s & Hs & Hrho)]; [left; reflexivity |].
        right. exists row, s. repeat split; [left; reflexivity | exact Hs | exact Hrho].
      * right. exists row', s. repeat split; [right; exact Hin | exact Hs | exact Hrho].
Qed.

(** X16.  On a mesh of real thrusts, the running maximum that [main]
    keeps is a real number that is not negative, is at least the thrust of
    every cell, and is 0 or the thrust of some cell. *)
Theorem max_rho_is_the_maximum (mesh : list (list cell)) :
  Forall (Forall (fun s => exists rho : R, cell_rho s = PyFloat rho)) mesh ->
  exists m : R,
    max_rho mesh = PyFloat m /\
    0 <= m /\
    (forall (row : list cell) (s : cell) (rho : R),
        In row mesh -> In s row -> cell_rho s = PyFloat rho -> rho <= m) /\
    (m = 0 \/
     exists (row : list cell) (s : cell), In row mesh /\ In s row /\ cell_rho s = PyFloat m).
Proof. intros Hreal. exact (max_rho_from mesh 0 Hreal). Qed.

(** The theorem for the mesh of the surge thruster at resolution 2. *)
Lemma max_rho_is_the_maximum_witness :
  exists m : R,
    max_rho [[surge_cell surge_thrust]; [surge_cell surge_thrust]] = PyFloat m /\
    0 <= m /\
    (forall (row : list cell) (s : cell) (rho : R),
        In row [[surge_cell surge_thrust]; [surge_cell surge_thrust]] ->
        In s row -> cell_rho s = PyFloat rho -> rho <= m) /\
    (m = 0 \/
     exists (row : list cell) (s : cell),
       In row [[surge_cell surge_thrust]; [surge_cell surge_thrust]] /\
       In s row /\ cell_rho s = PyFloat m).
Proof.
  apply (max_rho_is_the_maximum [[surge_cell surge_thrust]; [surge_cell surge_thrust]]).
  repeat constructor; exists surge_thrust; reflexivity.
Defined.

(** ** Recombining the half-thrusters *)

Lemma dotl_comm (a b : list R) : dotl a b = dotl b a.
Proof.
  revert b. induction a as [| x a IH]; intros [| y b].
  - reflexivity.
  - rewrite dotl_nil_r. reflexivity.
  - rewrite dotl_nil_r. reflexivity.
  - rewrite !dotl_cons, IH. ring.
Qed.

(** Cancelling the overlap of every pair keeps the bounds, does not raise
    the total, and changes nothing only where no pair overlaps. *)
Lemma cancel_overlap (cols : list (vec R * vec R)) (x : list R) :
  Forall2 within
    (flat_map (fun _ : vec R * vec R => [[0; 371 / 100]; [0; 290 / 100]]) cols) x ->
  Forall2 within
    (flat_map (fun _ : vec R * vec R => [[0; 371 / 100]; [0; 290 / 100]]) cols)
    (split_halves (combine_halves x)) /\
  dotl (flat_map (fun _ : vec R * vec R => [1; 1]) cols) (split_halves (combine_halves x))
  <= dotl (flat_map (fun _ : vec R * vec R => [1; 1]) cols) x /\
  (dotl (flat_map (fun _ : vec R * vec R => [1; 1]) cols) x
   <= dotl (flat_map (fun _ : vec R * vec R => [1; 1]) cols) (split_halves (combine_halves x)) ->
   split_halves (combine_halves x) = x).
Proof.
  revert x. induction cols as [| col cols IH]; intros x Hb; cbn [flat_map app] in *.
  - inversion Hb; subst. cbn. repeat split; [constructor | lra].
  - inversion Hb as [| b0 f bs0 xs0 Hw0 Hb0 E1 E2]; subst.
    inversion Hb0 as [| b1 r bs1 xs1 Hw1 Hb1 E1 E2]; subst.
    destruct (IH xs1 Hb1) as (Hwithin & Hle & Heq).
    cbn in Hw0, Hw1. cbn [combine_halves]. unfold split_halves. cbn [flat_map app].
    fold (split_halves (combine_halves xs1)). rewrite !dotl_cons. rarith.
    assert (Hf : Rmax (f - r) 0 <= f) by (unfold Rmax; destruct (Rle_dec _ 0); lra).
    assert (Hr : Rmax (- (f - r)) 0 <= r) by (unfold Rmax; destruct (Rle_dec _ 0); lra).
    assert (Hf0 : 0 <= Rmax (f - r) 0) by apply Rmax_r.
    assert (Hr0 : 0 <= Rmax (- (f - r)) 0) by apply Rmax_r.
    split; [| split].
    + constructor; [cbn; lra | constructor; [cbn; lra | exact Hwithin]].
    + lra.
    + intros Hge. rewrite Heq by lra.
      assert (Rmax (f - r) 0 = f) by lra. assert (Rmax (- (f - r)) 0 = r) by lra.
      congruence.
Qed.

(** X17.  Recombining the half-thrusters loses nothing: in the answer of
    an exact solver to the second program, the signed thrusts of line 187
    determine the forward and reverse halves (each half is the positive
    part of the signed thrust or of its opposite), so no thruster is
    driven forward and in reverse at once. *)
Theorem recombination_lossless
    (linprog : LinProg R -> result (OptimizeResult R))
    (cols : list (vec R * vec R)) (max_thrust : R)
    (r2 : OptimizeResult R) (x : list R) :
  sound linprog ->
  linprog (min_current_problem cols max_thrust) = Ok r2 -> res_x r2 = Some x ->
  split_halves (combine_halves x) = x.
Proof.
  intros Hsound H2 Hx. pose proof (Hsound _ _ H2) as Ha. unfold answers in Ha.
  rewrite Hx in Ha. destruct (res_fun r2) as [f2 |]; [| contradiction].
  destruct Ha as (Hfeas & Hval & Hopt).
  destruct (min_current_feasible cols _ x Hfeas) as [Hlen _].
  destruct Hfeas as (Hlenc & Hrows & Hb).
  unfold min_current_problem in Hb, Hrows, Hval, Hlenc.
  cbn [c A_eq b_eq bounds] in Hb, Hrows, Hval, Hlenc. unfold dec in Hb. rarith.
  destruct (cancel_overlap cols x Hb) as (Hwithin & Hle & Heq).
  apply Heq. rewrite <- Hval. apply Hopt.
  unfold feasible, min_current_problem. cbn [c A_eq b_eq bounds]. unfold dec. rarith.
  split; [| split].
  - rewrite split_halves_length, (combine_halves_length x (length cols) Hlen).
    rewrite min_current_objective_length. reflexivity.
  - assert (Hsame : forall g : vec R * vec R -> R,
              dotl (halves g cols) (split_halves (combine_halves x))
              = dotl (halves g cols) x).
    { intros g. rewrite halves_split, dotl_comm. apply halves_dot. exact Hlen. }
    inversion Hrows as [| ra ba rsa bsa Ha0 Hr1 E1 E2]; subst.
    inversion Hr1 as [| rb bb rsb bsb Hb0 Hr2 E1 E2]; subst.
    inversion Hr2 as [| rc bc rsc bsc Hc0 Hr3 E1 E2]; subst.
    inversion Hr3 as [| rd bd rsd bsd Hd0 Hr4 E1 E2]; subst.
    inversion Hr4 as [| re be rse bse He0 Hr5 E1 E2]; subst.
    inversion Hr5 as [| rf bf rsf bsf Hf0 _ E1 E2]; subst.
    repeat constructor; rewrite Hsame; first [reflexivity | assumption].
  - exact Hwithin.
Qed.

(** The theorem for the second program of the surge thruster. *)
Lemma recombination_lossless_witness :
  split_halves (combine_halves [surge_max_thrust; 0]) = [surge_max_thrust; 0].
Proof.
  apply (recombination_lossless surge_linprog surge_cols surge_max_thrust surge_answer_2
           [surge_max_thrust; 0] surge_linprog_sound surge_linprog_2 eq_refl).
Defined.

(** ** Angles in degrees *)

Lemma radians_turn (x : R) : radians (x + 360) = radians x + 2 * PI.
Proof. unfold radians. field. Qed.

Lemma sin_turn (x : R) : sin (x + 2 * PI) = sin x.
Proof. rewrite sin_plus, sin_2PI, cos_2PI. ring. Qed.

Lemma cos_turn (x : R) : cos (x + 2 * PI) = cos x.
Proof. rewrite cos_plus, sin_2PI, cos_2PI. ring. Qed.

(** X18.  The angles of a thruster are read in degrees: adding 360 to
    theta or to phi gives the same thruster, and so does replacing
    (theta, phi) by (theta + 180, -phi). *)
Theorem thruster_angles_in_degrees (x y z theta phi : R) (mt fc rc : list R) :
  Thruster3D_init x y z (theta + 360) phi mt fc rc = Thruster3D_init x y z theta phi mt fc rc /\
  Thruster3D_init x y z theta (phi + 360) mt fc rc = Thruster3D_init x y z theta phi mt fc rc /\
  Thruster3D_init x y z (theta + 180) (- phi) mt fc rc
  = Thruster3D_init x y z theta phi mt fc rc.
Proof.
  unfold Thruster3D_init. repeat split.
  - rewrite radians_turn, sin_turn, cos_turn. reflexivity.
  - rewrite radians_turn, sin_turn, cos_turn. reflexivity.
  - assert (Hh : radians (theta + 180) = radians theta + PI) by (unfold radians; field).
    assert (Hn : radians (- phi) = - radians phi) by (unfold radians; field).
    rewrite Hh, Hn, sin_neg, cos_neg, neg_sin, neg_cos. f_equal. f_equal; ring.
Qed.
